(** * qlib.backtest.backtest: the nested decision-execution loop

    A shallow embedding of [collect_data_loop] and [backtest_loop]
    (src/qlib/backtest/backtest.py) as interaction trees, an executable
    semantics that runs a tree against arbitrary strategy, executor and
    driver implementations, and the properties of the loop. *)

From Stdlib Require Import List ZArith String Ascii Bool Arith Lia.
From Stdlib Require Import DecimalString DecimalPos.
From ITree Require Import ITree Eq.Shallow.
Import ListNotations ITreeNotations.
Local Open Scope itree_scope.
Local Open Scope Z_scope.

Set Implicit Arguments.

(** ** Python values the loop handles *)

(** The opaque values exchanged between the loop and its collaborators.
    [Gen] is a reference to a suspended generator object (what
    [trade_executor.collect_data(...)] returns), [Node] a reference to an
    executor of the tree ([get_all_executors()] returns a list of them). *)
Record Domain : Type := {
  Time : Type;           (* pd.Timestamp | str *)
  Infra : Type;          (* LevelInfrastructure *)
  Decision : Type;       (* BaseTradeDecision *)
  Result : Type;         (* what an executor returns for a step, when not None *)
  Gen : Type;
  Node : Type;           (* BaseExecutor *)
  Metrics : Type;        (* get_portfolio_metrics(): Tuple[pd.DataFrame, dict] *)
  Indicator : Type;      (* get_trade_indicator(): Indicator *)
  DataFrame : Type;      (* generate_trade_indicators_dataframe(): pd.DataFrame *)
  Exn : Type             (* Python exceptions *)
}.
Existing Class Domain.

(** A Python [dict] with [str] keys: insertion ordered, an assignment to a
    key that is present overwrites its value in place. *)
Definition Dict (V : Type) : Type := list (string * V).

Fixpoint dict_get {V} (d : Dict V) (k : string) : option V :=
  match d with
  | [] => None
  | (k', v) :: d' => if String.eqb k' k then Some v else dict_get d' k
  end.

(** [d[k] = v] *)
Fixpoint dict_set {V} (d : Dict V) (k : string) (v : V) : Dict V :=
  match d with
  | [] => [(k, v)]
  | (k', v') :: d' =>
      if String.eqb k' k then (k', v) :: d' else (k', v') :: dict_set d' k v
  end.

(** [d.update(other)] *)
Definition dict_update {V} (d other : Dict V) : Dict V :=
  fold_left (fun acc kv => dict_set acc (fst kv) (snd kv)) other d.

Definition dict_keys {V} (d : Dict V) : list string := map fst d.

Section Backtest.

Context {D : Domain}.

(** PORT_METRIC and INDICATOR_METRIC of the source. *)
Definition PORT_METRIC : Type := Dict (Metrics D).
Definition INDICATOR_METRIC : Type := Dict (DataFrame D * Indicator D).

(** The values stored in the [return_value] dict. *)
Inductive PyVal : Type :=
| VPort (portfolio_dict : PORT_METRIC)
| VInd (indicator_dict : INDICATOR_METRIC).

(** A reference to a dict object on the heap; [return_value] is
    [None] or such a reference. *)
Definition Ref : Type := nat.

(** What resuming a generator gives: it yields a decision, or it stops
    with its return value ([StopIteration(value)]). *)
Inductive Resumed : Type :=
| Yielded (d : Decision D)
| Done (r : option (Result D)).

(** ** Events: every way the loop touches the outside *)

(** Calls on the collaborators. The strategy and the outermost executor
    are the two objects passed in; the account queries name the executor of
    the tree they are made on. *)
Variant callE : Type -> Type :=
| ExecutorReset (start_time end_time : Time D) : callE unit
| GetLevelInfra : callE (Infra D)
| StrategyReset (level_infra : Infra D) : callE unit
| GetTradeLen : callE Z
| TqdmOpen (total : Z) : callE unit
| Finished : callE bool
| GenerateTradeDecision (execute_result : option (Result D)) : callE (Decision D)
| CollectData (trade_decision : Decision D) (level : Z) : callE (Gen D)
| GenResume (g : Gen D) (sent : option (Decision D)) : callE Resumed
| PostExeStep (execute_result : option (Result D)) : callE unit
| BarUpdate (n : Z) : callE unit
| PostUpperLevelExeStep : callE unit
| TqdmClose : callE unit
| GetAllExecutors : callE (list (Node D))
| TimePerStep (executor : Node D) : callE string
| IsPortMetrEnabled (executor : Node D) : callE bool
| GetPortfolioMetrics (executor : Node D) : callE (Metrics D)
| GetTradeIndicator (executor : Node D) : callE (Indicator D)
| GenerateTradeIndicatorsDataframe (ind : Indicator D) : callE (DataFrame D).

(** The suspension point of the generator: [sent = yield d]. *)
Variant yieldE : Type -> Type :=
| Yield (d : Decision D) : yieldE (option (Decision D)).

(** What the Python runtime does for the loop itself: dict objects, and
    an exception raised by code that is not a collaborator's method
    ([Freq.parse] on a label it does not accept). *)
Variant pyE : Type -> Type :=
| DictNew : pyE Ref
| DictUpdate (r : Ref) (other : Dict PyVal) : pyE unit
| DictGet (r : Ref) (k : string) : pyE (option PyVal)
| Throw (e : Exn D) : pyE Empty_set.

Definition loopE : Type -> Type := callE +' yieldE +' pyE.

(** ** The source, as interaction trees *)

Section Program.

(** [Freq.parse] (qlib/utils/time.py) is not part of this file's source:
    the loop is parameterised by it. It returns a (count, unit) pair or
    raises. *)
Variable Freq_parse : string -> Exn D + (Z * string).

(** ["{}{}".format(n, unit)]: the decimal digits of [n], a leading minus
    for a negative [n], then [unit]. *)
Definition str_of_int (n : Z) : string :=
  match n with
  | Z0 => "0"
  | Zpos p => NilZero.string_of_uint (Pos.to_uint p)
  | Zneg p => String "-" (NilZero.string_of_uint (Pos.to_uint p))
  end.

Definition format2 (p : Z * string) : string :=
  (str_of_int (fst p) ++ snd p)%string.

(** [_r = yield from g]: the first value is asked with [next(g)], each
    value the delegate yields is yielded to the driver, and what the driver
    sends in is what the delegate is resumed with ([next(g)] for [None],
    [g.send(s)] otherwise); the delegate's return value is the result. *)
Definition yield_from (g : Gen D) : itree loopE (option (Result D)) :=
  ITree.iter (fun sent : option (Decision D) =>
    y <- trigger (GenResume g sent);;
    match y with
    | Yielded d => s <- trigger (Yield d);; Ret (inl s)
    | Done r => Ret (inr r)
    end) None.

(** Lines 103-114: one test of the [while] condition and, when it holds,
    one pass through the body. *)
Definition loop_body (_execute_result : option (Result D))
  : itree loopE (option (Result D) + unit) :=
  fin <- trigger Finished;;
  if fin : bool then Ret (inr tt)
  else
    _trade_decision <- trigger (GenerateTradeDecision _execute_result);;
    g <- trigger (CollectData _trade_decision 0);;
    _execute_result <- yield_from g;;
    trigger (PostExeStep _execute_result);;
    trigger (BarUpdate 1);;
    Ret (inl _execute_result).

(** Lines 124-130: the body of [for executor in all_executors]. *)
Definition aggregate_one (acc : PORT_METRIC * INDICATOR_METRIC) (executor : Node D)
  : itree loopE (PORT_METRIC * INDICATOR_METRIC) :=
  let (portfolio_dict, indicator_dict) := acc in
  label <- trigger (TimePerStep executor);;
  key <- match Freq_parse label with
         | inr p => Ret (format2 p)
         | inl e => x <- trigger (Throw e);; match x : Empty_set with end
         end;;
  enabled <- trigger (IsPortMetrEnabled executor);;
  portfolio_dict <-
    (if enabled : bool
     then m <- trigger (GetPortfolioMetrics executor);;
          Ret (dict_set portfolio_dict key m)
     else Ret portfolio_dict);;
  ind <- trigger (GetTradeIndicator executor);;
  indicator_df <- trigger (GenerateTradeIndicatorsDataframe ind);;
  indicator_obj <- trigger (GetTradeIndicator executor);;
  Ret (portfolio_dict, dict_set indicator_dict key (indicator_df, indicator_obj)).

Fixpoint aggregate (all_executors : list (Node D)) (acc : PORT_METRIC * INDICATOR_METRIC)
  : itree loopE (PORT_METRIC * INDICATOR_METRIC) :=
  match all_executors with
  | [] => Ret acc
  | executor :: rest => acc' <- aggregate_one acc executor;; aggregate rest acc'
  end.

(** [collect_data_loop(start_time, end_time, trade_strategy, trade_executor,
    return_value)]: the generator's body, run from its first [next()].
    [TqdmOpen] and [TqdmClose] are the entry and the normal exit of the
    [with tqdm(...)] block; a run that a raising call cuts short ends at
    that call, and the closing of the progress bar that [with] still does
    then is not recorded. *)
Definition collect_data_loop (start_time end_time : Time D) (return_value : option Ref)
  : itree loopE unit :=
  trigger (ExecutorReset start_time end_time);;
  level_infra <- trigger GetLevelInfra;;
  trigger (StrategyReset level_infra);;
  total <- trigger GetTradeLen;;
  trigger (TqdmOpen total);;
  ITree.iter loop_body None;;
  trigger PostUpperLevelExeStep;;
  trigger TqdmClose;;
  match return_value with
  | None => Ret tt
  | Some rv =>
      all_executors <- trigger GetAllExecutors;;
      acc <- aggregate all_executors ([], []);;
      trigger (DictUpdate rv [("portfolio_dict"%string, VPort (fst acc));
                              ("indicator_dict"%string, VInd (snd acc))])
  end.

(** [for _decision in gen: pass]: every value the generator yields is
    dropped and the generator is resumed with [next()], that is with
    nothing sent in. *)
Definition for_pass : loopE ~> itree loopE :=
  fun _ e =>
    match e with
    | inr1 (inl1 y) =>
        match y in yieldE X return itree loopE X with
        | Yield _decision => Ret None
        end
    | _ => ITree.trigger e
    end.

Definition backtest_loop (start_time end_time : Time D)
  : itree loopE (option PyVal * option PyVal) :=
  return_value <- trigger DictNew;;
  interp for_pass (collect_data_loop start_time end_time (Some return_value));;
  portfolio_dict <- trigger (DictGet return_value "portfolio_dict");;
  indicator_dict <- trigger (DictGet return_value "indicator_dict");;
  Ret (portfolio_dict, indicator_dict).

End Program.

(** ** Frequency labels *)

Definition is_digit (c : ascii) : bool :=
  (48 <=? nat_of_ascii c)%nat && (nat_of_ascii c <=? 57)%nat.

(** The longest prefix of decimal digits, and the rest. *)
Fixpoint split_digits (s : string) : string * string :=
  match s with
  | EmptyString => (EmptyString, EmptyString)
  | String c s' =>
      if is_digit c
      then let (digits, rest) := split_digits s' in (String c digits, rest)
      else (EmptyString, s)
  end.

Definition starts_with_digit (s : string) : bool :=
  match s with
  | EmptyString => false
  | String c _ => is_digit c
  end.

(** Modelled from the spec: [Freq.parse] (qlib/utils/time.py), which is
    not among the sources. The spec says it parses a granularity label
    into a (multiplier, unit) pair, as in "1day" to (1, "day") and "5min"
    to (5, "min"): the label is read as its leading decimal digits, taken
    as an integer, followed by a unit, which must be one of the supported
    ones; anything else is refused with [value_error]. *)
Definition Freq_parse_model (units : list string) (value_error : Exn D)
    (label : string) : Exn D + (Z * string) :=
  let (digits, unit) := split_digits label in
  match NilZero.uint_of_string digits with
  | Some d =>
      if existsb (String.eqb unit) units
      then inr (Z.of_N (N.of_uint d), unit)
      else inl value_error
  | None => inl value_error
  end.

(** Modelled from the spec: the supported granularity labels, a
    multiplier written in decimal followed by a supported unit. *)
Definition supported_label (units : list string) (label : string) : Prop :=
  exists n u, 0 <= n /\ In u units /\ label = format2 (n, u).

(** ** Running a tree against an environment *)

(** How a call on a collaborator ends: it returns, it raises, or it never
    comes back. *)
Inductive reply (X : Type) : Type :=
| Ok (x : X)
| Raise (e : Exn D)
| Stall.
Arguments Raise {X} e.
Arguments Stall {X}.

(** What the driver of the generator does at a suspension point: it
    resumes it ([next(gen)] is [Send None], [gen.send(d)] is
    [Send (Some d)]), or it never resumes it. *)
Inductive Drive : Type :=
| Send (sent : option (Decision D))
| Abandon.

(** The collaborators and the driver act on a state of their own. *)
Record Env : Type := {
  World : Type;
  call : forall X, callE X -> World -> reply X * World;
  drive : Decision D -> World -> Drive * World
}.

(** The trace of a run: each call with how it ended, each suspension with
    what the driver did. *)
Inductive Event : Type :=
| EvExecutorReset (start_time end_time : Time D) (r : reply unit)
| EvGetLevelInfra (r : reply (Infra D))
| EvStrategyReset (level_infra : Infra D) (r : reply unit)
| EvGetTradeLen (r : reply Z)
| EvTqdmOpen (total : Z) (r : reply unit)
| EvFinished (r : reply bool)
| EvGenerateTradeDecision (execute_result : option (Result D)) (r : reply (Decision D))
| EvCollectData (trade_decision : Decision D) (level : Z) (r : reply (Gen D))
| EvGenResume (g : Gen D) (sent : option (Decision D)) (r : reply Resumed)
| EvPostExeStep (execute_result : option (Result D)) (r : reply unit)
| EvBarUpdate (n : Z) (r : reply unit)
| EvPostUpperLevelExeStep (r : reply unit)
| EvTqdmClose (r : reply unit)
| EvGetAllExecutors (r : reply (list (Node D)))
| EvTimePerStep (executor : Node D) (r : reply string)
| EvIsPortMetrEnabled (executor : Node D) (r : reply bool)
| EvGetPortfolioMetrics (executor : Node D) (r : reply (Metrics D))
| EvGetTradeIndicator (executor : Node D) (r : reply (Indicator D))
| EvGenerateTradeIndicatorsDataframe (ind : Indicator D) (r : reply (DataFrame D))
| EvYield (d : Decision D) (a : Drive).

Definition event_of_call {X} (c : callE X) : reply X -> Event :=
  match c with
  | ExecutorReset s e => EvExecutorReset s e
  | GetLevelInfra => EvGetLevelInfra
  | StrategyReset i => EvStrategyReset i
  | GetTradeLen => EvGetTradeLen
  | TqdmOpen n => EvTqdmOpen n
  | Finished => EvFinished
  | GenerateTradeDecision r => EvGenerateTradeDecision r
  | CollectData d l => EvCollectData d l
  | GenResume g s => EvGenResume g s
  | PostExeStep r => EvPostExeStep r
  | BarUpdate n => EvBarUpdate n
  | PostUpperLevelExeStep => EvPostUpperLevelExeStep
  | TqdmClose => EvTqdmClose
  | GetAllExecutors => EvGetAllExecutors
  | TimePerStep n => EvTimePerStep n
  | IsPortMetrEnabled n => EvIsPortMetrEnabled n
  | GetPortfolioMetrics n => EvGetPortfolioMetrics n
  | GetTradeIndicator n => EvGetTradeIndicator n
  | GenerateTradeIndicatorsDataframe i => EvGenerateTradeIndicatorsDataframe i
  end.

(** One executor visited by the aggregation: what the calls made on it
    returned. [v_metrics] is [None] when [is_port_metr_enabled()] said no
    (then [get_portfolio_metrics()] is not called). *)
Record Visit : Type := {
  v_executor : Node D;
  v_label : string;                  (* executor.time_per_step *)
  v_parsed : Z * string;             (* Freq.parse of the label *)
  v_metrics : option (Metrics D);
  v_ind : Indicator D;               (* the first get_trade_indicator() *)
  v_df : DataFrame D;
  v_obj : Indicator D                (* the second get_trade_indicator() *)
}.

(** The frequency key of a visit. *)
Definition v_key (v : Visit) : string := format2 (v_parsed v).

Definition visit_events (v : Visit) : list Event :=
  [EvTimePerStep (v_executor v) (Ok (v_label v));
   EvIsPortMetrEnabled (v_executor v)
     (Ok (match v_metrics v with Some _ => true | None => false end))]
  ++ match v_metrics v with
     | Some m => [EvGetPortfolioMetrics (v_executor v) (Ok m)]
     | None => []
     end
  ++ [EvGetTradeIndicator (v_executor v) (Ok (v_ind v));
      EvGenerateTradeIndicatorsDataframe (v_ind v) (Ok (v_df v));
      EvGetTradeIndicator (v_executor v) (Ok (v_obj v))].

(** What a visit does to the two dicts. *)
Definition visit_apply (acc : PORT_METRIC * INDICATOR_METRIC) (v : Visit)
  : PORT_METRIC * INDICATOR_METRIC :=
  (match v_metrics v with
   | Some m => dict_set (fst acc) (v_key v) m
   | None => fst acc
   end,
   dict_set (snd acc) (v_key v) (v_df v, v_obj v)).

(** The executors on which the aggregation began a visit. *)
Definition visited_executors (l : list Event) : list (Node D) :=
  flat_map (fun e => match e with
                     | EvTimePerStep executor _ => [executor]
                     | _ => []
                     end) l.

(** A visit whose label [Freq.parse] accepted. *)
Definition parsed (Freq_parse : string -> Exn D + (Z * string)) (v : Visit) : Prop :=
  Freq_parse (v_label v) = inr (v_parsed v).

(** ** The protocol of the loop

    The order in which [collect_data_loop] may touch its collaborators,
    as a transition system over the events of a trace. A state says which
    event comes next and carries the values the next call must be made
    with. *)
Inductive PState : Type :=
| PStart                                     (* nothing has run yet *)
| PReset                                     (* the executor is reset *)
| PInfra (level_infra : Infra D)             (* its level infrastructure is read *)
| PStrategyReset                             (* the strategy is reset *)
| PLen (total : Z)                           (* the calendar length is read *)
| PHead (execute_result : option (Result D)) (* at the test of the while *)
| PGo (execute_result : option (Result D))   (* finished() said no *)
| PDecided (trade_decision : Decision D)     (* the strategy decided *)
| PInner (g : Gen D) (sent : option (Decision D)) (* the delegate is to be resumed *)
| PSuspended (g : Gen D) (d : Decision D)    (* the delegate yielded d *)
| PStepDone (execute_result : option (Result D)) (* the delegate returned *)
| PPosted (execute_result : option (Result D))   (* post_exe_step is done *)
| PExit                                      (* finished() said yes *)
| PHooked                                    (* post_upper_level_exe_step is done *)
| PClosed                                    (* the with block is left *)
| PAggregating                               (* the executors are being visited *)
| PHalt.                                     (* a call did not return: nothing follows *)

Definition on_ok {X} (r : reply X) (next : X -> PState) : PState :=
  match r with
  | Ok x => next x
  | _ => PHalt
  end.

(** The calls the aggregation makes on an executor and its account. *)
Definition account_query (e : Event) : option bool :=
  match e with
  | EvTimePerStep _ r => Some (match r with Ok _ => true | _ => false end)
  | EvIsPortMetrEnabled _ r => Some (match r with Ok _ => true | _ => false end)
  | EvGetPortfolioMetrics _ r => Some (match r with Ok _ => true | _ => false end)
  | EvGetTradeIndicator _ r => Some (match r with Ok _ => true | _ => false end)
  | EvGenerateTradeIndicatorsDataframe _ r =>
      Some (match r with Ok _ => true | _ => false end)
  | _ => None
  end.

Definition is_account_query (e : Event) : bool :=
  match account_query e with Some _ => true | None => false end.

(** Classes of events, to state where they may occur in a trace. *)
Definition is_executor_reset (e : Event) : bool :=
  match e with EvExecutorReset _ _ _ => true | _ => false end.

Definition is_strategy_reset (e : Event) : bool :=
  match e with EvStrategyReset _ _ => true | _ => false end.

Definition is_finished (e : Event) : bool :=
  match e with EvFinished _ => true | _ => false end.

Definition is_decision_request (e : Event) : bool :=
  match e with EvGenerateTradeDecision _ _ => true | _ => false end.

Definition is_post_exe_step (e : Event) : bool :=
  match e with EvPostExeStep _ _ => true | _ => false end.

Definition is_post_upper (e : Event) : bool :=
  match e with EvPostUpperLevelExeStep _ => true | _ => false end.

Definition is_get_portfolio_metrics (e : Event) : bool :=
  match e with EvGetPortfolioMetrics _ _ => true | _ => false end.

Definition is_get_all_executors (e : Event) : bool :=
  match e with EvGetAllExecutors _ => true | _ => false end.

(** The calls made before the [while]: lines 97-101. *)
Definition setup_event (e : Event) : bool :=
  match e with
  | EvExecutorReset _ _ _ | EvGetLevelInfra _ | EvStrategyReset _ _
  | EvGetTradeLen _ | EvTqdmOpen _ _ => true
  | _ => false
  end.

(** The events of the [while] itself: lines 103-114. *)
Definition loop_event (e : Event) : bool :=
  match e with
  | EvFinished _ | EvGenerateTradeDecision _ _ | EvCollectData _ _ _
  | EvGenResume _ _ _ | EvYield _ _ | EvPostExeStep _ _ | EvBarUpdate _ _ => true
  | _ => false
  end.

(** Whether the call of an event returned (the driver resumed). *)
Definition replied (e : Event) : bool :=
  let ok X (r : reply X) := match r with Ok _ => true | _ => false end in
  match e with
  | EvExecutorReset _ _ r => ok _ r
  | EvGetLevelInfra r => ok _ r
  | EvStrategyReset _ r => ok _ r
  | EvGetTradeLen r => ok _ r
  | EvTqdmOpen _ r => ok _ r
  | EvFinished r => ok _ r
  | EvGenerateTradeDecision _ r => ok _ r
  | EvCollectData _ _ r => ok _ r
  | EvGenResume _ _ r => ok _ r
  | EvPostExeStep _ r => ok _ r
  | EvBarUpdate _ r => ok _ r
  | EvPostUpperLevelExeStep r => ok _ r
  | EvTqdmClose r => ok _ r
  | EvGetAllExecutors r => ok _ r
  | EvTimePerStep _ r => ok _ r
  | EvIsPortMetrEnabled _ r => ok _ r
  | EvGetPortfolioMetrics _ r => ok _ r
  | EvGetTradeIndicator _ r => ok _ r
  | EvGenerateTradeIndicatorsDataframe _ r => ok _ r
  | EvYield _ a => match a with Send _ => true | Abandon => false end
  end.

(** How many events of a trace are in a class. *)
Definition count (p : Event -> bool) (l : list Event) : nat :=
  List.length (filter p l).

(** The calls on the strategy that make the steps of a run. *)
Definition strategy_steps (l : list Event) : list Event :=
  filter (fun e => is_decision_request e || is_post_exe_step e) l.

(** Decisions and results in strict alternation: each request is made
    with the result delivered just before it ([res] at first), and is
    followed by one delivery before the next request. *)
Inductive alternates : option (Result D) -> list Event -> Prop :=
| alternates_nil res : alternates res []
| alternates_requested res rep : alternates res [EvGenerateTradeDecision res rep]
| alternates_step res d res' rep rest :
    alternates res' rest ->
    alternates res (EvGenerateTradeDecision res (Ok d) :: EvPostExeStep res' rep :: rest).

(** States once the [while] is left, and states past the setup. *)
Definition exited (q : PState) : bool :=
  match q with
  | PExit | PHooked | PClosed | PAggregating | PHalt => true
  | _ => false
  end.

Definition in_setup (q : PState) : bool :=
  match q with
  | PStart | PReset | PInfra _ | PStrategyReset | PLen _ => true
  | _ => false
  end.

(** What the strategy sees from a state on. *)
Definition expects (q : PState) (sl : list Event) : Prop :=
  match q with
  | PStart | PReset | PInfra _ | PStrategyReset | PLen _ => alternates None sl
  | PHead res | PGo res | PPosted res => alternates res sl
  | PDecided _ | PInner _ _ | PSuspended _ _ =>
      sl = [] \/ exists res' rep rest,
                   sl = EvPostExeStep res' rep :: rest /\ alternates res' rest
  | PStepDone res' =>
      sl = [] \/ exists rep rest,
                   sl = EvPostExeStep res' rep :: rest /\ alternates res' rest
  | PExit | PHooked | PClosed | PAggregating | PHalt => sl = []
  end.

(** States from which a delivery is still owed to the strategy. *)
Definition owed (q : PState) : nat :=
  match q with
  | PDecided _ | PInner _ _ | PSuspended _ _ | PStepDone _ => 1%nat
  | _ => 0%nat
  end.

(** States of a run that left the [while] and has not stopped short. *)
Definition left_alive (q : PState) : bool :=
  match q with
  | PExit | PHooked | PClosed | PAggregating => true
  | _ => false
  end.

(** States after the post-level hook. *)
Definition past_hook (q : PState) : bool :=
  match q with
  | PHooked | PClosed | PAggregating | PHalt => true
  | _ => false
  end.

Section Protocol.

Variables (start_time end_time : Time D) (return_value : option Ref).

Inductive step : PState -> Event -> PState -> Prop :=
| step_executor_reset r :
    step PStart (EvExecutorReset start_time end_time r) (on_ok r (fun _ => PReset))
| step_get_level_infra r :
    step PReset (EvGetLevelInfra r) (on_ok r PInfra)
| step_strategy_reset i r :
    step (PInfra i) (EvStrategyReset i r) (on_ok r (fun _ => PStrategyReset))
| step_get_trade_len r :
    step PStrategyReset (EvGetTradeLen r) (on_ok r PLen)
| step_tqdm_open n r :
    step (PLen n) (EvTqdmOpen n r) (on_ok r (fun _ => PHead None))
| step_finished res r :
    step (PHead res) (EvFinished r)
         (on_ok r (fun fin : bool => if fin then PExit else PGo res))
| step_generate res r :
    step (PGo res) (EvGenerateTradeDecision res r) (on_ok r PDecided)
| step_collect_data d r :
    step (PDecided d) (EvCollectData d 0 r) (on_ok r (fun g => PInner g None))
| step_gen_resume g sent r :
    step (PInner g sent) (EvGenResume g sent r)
         (on_ok r (fun y => match y with
                            | Yielded d => PSuspended g d
                            | Done res => PStepDone res
                            end))
| step_yield g d a :
    step (PSuspended g d) (EvYield d a)
         (match a with Send sent => PInner g sent | Abandon => PHalt end)
| step_post_exe_step res r :
    step (PStepDone res) (EvPostExeStep res r) (on_ok r (fun _ => PPosted res))
| step_bar_update res r :
    step (PPosted res) (EvBarUpdate 1 r) (on_ok r (fun _ => PHead res))
| step_post_upper r :
    step PExit (EvPostUpperLevelExeStep r) (on_ok r (fun _ => PHooked))
| step_tqdm_close r :
    step PHooked (EvTqdmClose r) (on_ok r (fun _ => PClosed))
| step_get_all_executors r :
    return_value <> None ->
    step PClosed (EvGetAllExecutors r) (on_ok r (fun _ => PAggregating))
| step_account_query e ok :
    account_query e = Some ok ->
    step PAggregating e (if ok then PAggregating else PHalt).

(** The state a run that returns has reached. *)
Definition final_state : PState :=
  match return_value with
  | None => PClosed
  | Some _ => PAggregating
  end.

(** The first five events of a run that got past the setup. *)
Definition setup_trace (i : Infra D) (n : Z) : list Event :=
  [EvExecutorReset start_time end_time (Ok tt); EvGetLevelInfra (Ok i);
   EvStrategyReset i (Ok tt); EvGetTradeLen (Ok n); EvTqdmOpen n (Ok tt)].

(** [reach l q]: the trace [l] follows the protocol and leaves it in [q]. *)
Inductive reach : list Event -> PState -> Prop :=
| reach_nil : reach [] PStart
| reach_snoc l q e q' : reach l q -> step q e q' -> reach (l ++ [e]) q'.

(** The same, read from a given state on. *)
Inductive run : PState -> list Event -> PState -> Prop :=
| run_nil q : run q [] q
| run_cons q e q1 l q' : step q e q1 -> run q1 l q' -> run q (e :: l) q'.

End Protocol.

(** The dict objects of the run. *)
Record Heap : Type := {
  cells : Ref -> Dict PyVal;
  next_ref : Ref
}.

Definition heap_set (h : Heap) (r : Ref) (d : Dict PyVal) : Heap :=
  {| cells := fun r' => if Nat.eqb r' r then d else cells h r';
     next_ref := next_ref h |}.

(** A new, empty dict: [{}]. *)
Definition heap_new (h : Heap) : Heap :=
  {| cells := cells (heap_set h (next_ref h) []); next_ref := S (next_ref h) |}.

Definition empty_heap : Heap := {| cells := fun _ => []; next_ref := O |}.

Section Exec.

Variable env : Env.

Record State : Type := {
  world : World env;
  heap : Heap;
  log : list Event
}.

Definition handle_py {X} (p : pyE X) (st : State) : reply X * State :=
  match p with
  | DictNew =>
      (Ok (next_ref (heap st)),
       {| world := world st; heap := heap_new (heap st); log := log st |})
  | DictUpdate r other =>
      (Ok tt, {| world := world st;
                 heap := heap_set (heap st) r (dict_update (cells (heap st) r) other);
                 log := log st |})
  | DictGet r k => (Ok (dict_get (cells (heap st) r) k), st)
  | Throw e => (Raise e, st)
  end.

Definition handle_yield {X} (y : yieldE X) (st : State) : reply X * State :=
  match y with
  | Yield d =>
      let (a, w) := drive env d (world st) in
      (match a with Send s => Ok s | Abandon => Stall end,
       {| world := w; heap := heap st; log := log st ++ [EvYield d a] |})
  end.

Definition handle_call {X} (c : callE X) (st : State) : reply X * State :=
  let (r, w) := call env c (world st) in
  (r, {| world := w; heap := heap st; log := log st ++ [event_of_call c r] |}).

Definition handle {X} (e : loopE X) (st : State) : reply X * State :=
  match e with
  | inl1 c => handle_call c st
  | inr1 (inl1 y) => handle_yield y st
  | inr1 (inr1 p) => handle_py p st
  end.

(** How a run ends. [Returned] keeps the fuel that is left, so that runs
    compose. *)
Inductive outcome (R : Type) : Type :=
| Returned (r : R) (fuel_left : nat)
| Raised (e : Exn D)
| Stalled
| OutOfFuel.
Arguments Raised {R} e.
Arguments Stalled {R}.
Arguments OutOfFuel {R}.

(** [exec fuel t st]: run [t] from [st]; an event or a silent step costs
    one unit of fuel. *)
Fixpoint exec {R} (fuel : nat) (t : itree loopE R) (st : State) : outcome R * State :=
  match fuel with
  | O => (OutOfFuel, st)
  | S n =>
      match observe t with
      | RetF r => (Returned r fuel, st)
      | TauF t' => exec n t' st
      | VisF e k =>
          match handle e st with
          | (Ok x, st') => exec n (k x) st'
          | (Raise ex, st') => (Raised ex, st')
          | (Stall, st') => (Stalled, st')
          end
      end
  end.

(** A run from a fresh generator: nothing logged, the given heap. *)
Definition initial (w : World env) (h : Heap) : State :=
  {| world := w; heap := h; log := [] |}.

(** A run of the generator with [fuel], driven by the environment's
    driver: how it ends and the state it leaves. *)
Definition run_loop (Freq_parse : string -> Exn D + (Z * string))
    (start_time end_time : Time D) (return_value : option Ref)
    (fuel : nat) (w : World env) (h : Heap) : outcome unit * State :=
  exec fuel (collect_data_loop Freq_parse start_time end_time return_value)
       (initial w h).

(** Partial-correctness triples over runs: from a state where [P] holds,
    a run of [t] that returns [r] ends where [Q r] holds, and a run that is
    cut short (a call raised or stalled, the driver left, the fuel ran out)
    ends where [I] holds. *)
Definition triple {R} (I P : State -> Prop) (t : itree loopE R)
    (Q : R -> State -> Prop) : Prop :=
  forall n st, P st ->
    match exec n t st with
    | (Returned r _, st') => Q r st'
    | (_, st') => I st'
    end.

(** Two runs that end the same way, whatever fuel is left. *)
Definition same_outcome {R} (o o' : outcome R) : Prop :=
  match o, o' with
  | Returned r _, Returned r' _ => r = r'
  | Raised ex, Raised ex' => ex = ex'
  | Stalled, Stalled => True
  | _, _ => False
  end.

(** A tree whose runs raise only exceptions in [A]. *)
Definition raises_only (A : Exn D -> Prop) {R} (t : itree loopE R) : Prop :=
  forall n st,
    match fst (exec n t st) with
    | Raised ex => A ex
    | _ => True
    end.

(** A tree whose runs leave the dict objects as they are. *)
Definition keeps_heap {R} (t : itree loopE R) : Prop :=
  forall h, triple (fun st => heap st = h) (fun st => heap st = h) t
                   (fun _ st => heap st = h).

End Exec.

(** Calls that leave the outer calendar where it is: all but the reset
    of the executor and the resumption of its generator. *)
Definition steady {X} (c : callE X) : bool :=
  match c with
  | ExecutorReset _ _ | GenResume _ _ => false
  | _ => true
  end.

(** The contract of the outermost executor and its calendar (they are
    collaborators, not part of the loop): the calendar has a position
    [trade_step] and a length [trade_len]; a reset puts the position at 0;
    [finished()] says whether the position has reached the length, that is
    whether the calendar is exhausted; [get_trade_len()] gives the length;
    the executor's generator moves the position by one when it returns,
    and not when it yields; nothing else moves the calendar. *)
Record calendar_contract (env : Env) (trade_step trade_len : World env -> Z)
  : Prop := {
  cc_reset : forall s e w w',
      call env (ExecutorReset s e) w = (Ok tt, w') ->
      trade_step w' = 0 /\ 0 <= trade_len w';
  cc_finished : forall w fin w',
      call env Finished w = (Ok fin, w') ->
      fin = (trade_len w <=? trade_step w);
  cc_get_trade_len : forall w n w',
      call env GetTradeLen w = (Ok n, w') -> n = trade_len w;
  cc_resume : forall g sent w y w',
      call env (GenResume g sent) w = (Ok y, w') ->
      trade_len w' = trade_len w /\
      trade_step w' = trade_step w + match y with Done _ => 1 | Yielded _ => 0 end;
  cc_steady : forall X (c : callE X) w x w',
      steady c = true -> call env c w = (Ok x, w') ->
      trade_step w' = trade_step w /\ trade_len w' = trade_len w;
  cc_drive : forall d w a w',
      drive env d w = (a, w') ->
      trade_step w' = trade_step w /\ trade_len w' = trade_len w
}.

(** A reset of the executor on bounds in the wrong order. *)
Definition reversed_reset (precedes : Time D -> Time D -> bool) {X} (c : callE X)
  : bool :=
  match c with
  | ExecutorReset start_time end_time => precedes end_time start_time
  | _ => false
  end.

(** Modelled from the spec: the check of the bounds, which is made
    behind [trade_executor.reset] (qlib/backtest/executor.py and the
    calendar it resets, not among the sources; the loop itself compares
    nothing). The spec's failure kinds have "ConfigurationError: end_time
    precedes start_time": a call raises [ConfigurationError] exactly when
    it is a reset of the executor whose end precedes its start. *)
Definition checks_bounds (precedes : Time D -> Time D -> bool)
    (ConfigurationError : Exn D) (env : Env) : Prop :=
  forall X (c : callE X) w,
    fst (call env c w) = Raise ConfigurationError <-> reversed_reset precedes c = true.

(** The driver that [for _decision in gen: pass] is: it resumes the
    generator with nothing sent in, whatever was yielded, and touches
    nothing. *)
Definition unattended (env : Env) : Env :=
  {| World := World env;
     call := call env;
     drive := fun _decision w => (Send None, w) |}.

Definition is_yield (e : Event) : bool :=
  match e with EvYield _ _ => true | _ => false end.

(** The state of a run of [backtest_loop] against that of the generator
    driven from outside: the same but for the suspensions, which only the
    second records. *)
Definition same_but_yields {env : Env} (st : State env) (st0 : State (unattended env))
  : Prop :=
  world st = world st0 /\ heap st = heap st0 /\
  log st = filter (fun e => negb (is_yield e)) (log st0).

End Backtest.

Arguments Raise {D X} e.
Arguments Stall {D X}.
Arguments Raised {D R} e.
Arguments Stalled {D R}.
Arguments OutOfFuel {D R}.

(** ** Predicates on the states of a run *)

(** The trace so far follows the protocol of the run on these arguments
    and has left it in [q]. *)
Definition follows {D : Domain} (env : Env) (start_time end_time : Time D)
    (return_value : option Ref) (q : PState) : State env -> Prop :=
  fun st => reach start_time end_time return_value (log st) q.
Arguments follows {D} env start_time end_time return_value q _.

Definition follows_protocol {D : Domain} (env : Env) (start_time end_time : Time D)
    (return_value : option Ref) : State env -> Prop :=
  fun st => exists q, follows env start_time end_time return_value q st.
Arguments follows_protocol {D} env start_time end_time return_value _.

(** The calendar is at position [k] of [total], [a] decisions have been
    requested and [b] results delivered. *)
Definition calendar_at {D : Domain} (env : Env) (trade_step trade_len : World env -> Z)
    (total : Z) (k a b : nat) (st : State env) : Prop :=
  trade_step (world st) = Z.of_nat k /\ trade_len (world st) = total /\
  count is_decision_request (log st) = a /\ count is_post_exe_step (log st) = b.
Arguments calendar_at {D} env (trade_step trade_len)%_function_scope total%_Z_scope
  (k a b)%_nat_scope st.

Definition any_state {D : Domain} (env : Env) : State env -> Prop := fun _ => True.
Arguments any_state {D} env _.

(** The calls the loop makes: any, but a reset only on its own bounds. *)
Definition call_of_loop {D : Domain} (start_time end_time : Time D) {X}
    (c : callE X) : Prop :=
  match c with
  | ExecutorReset s e => s = start_time /\ e = end_time
  | _ => True
  end.
Arguments call_of_loop {D} start_time end_time {X} c.

(** The exceptions a run of the loop can end with: those its calls raise,
    and those [Freq.parse] raises. *)
Definition raised_by_loop {D : Domain} (env : Env)
    (Freq_parse : string -> Exn D + (Z * string)) (start_time end_time : Time D)
    (ex : Exn D) : Prop :=
  (exists X (c : callE X) w,
      call_of_loop start_time end_time c /\ fst (call env c w) = Raise ex) \/
  (exists label, Freq_parse label = inl ex).
Arguments raised_by_loop {D} env Freq_parse%_function_scope start_time end_time ex.

(** ** What the further properties are stated with *)

(** The last visit of a list that is in a class. *)
Definition last_visit {D : Domain} (p : Visit -> bool) (vs : list Visit) : option Visit :=
  find p (rev vs).

Definition has_key {D : Domain} (k : string) (v : Visit) : bool :=
  String.eqb (v_key v) k.

Definition has_metrics {D : Domain} (v : Visit) : bool :=
  match v_metrics v with Some _ => true | None => false end.

Definition is_collect_data {D : Domain} (e : Event) : bool :=
  match e with EvCollectData _ _ _ => true | _ => false end.

Definition is_bar_update {D : Domain} (e : Event) : bool :=
  match e with EvBarUpdate _ _ => true | _ => false end.

(** What is still to come from a state on, beyond one per decision
    request: a check of [finished()] (the one that ends the [while], or the
    one before the request that is next), the submission of the decision
    just made, the progress update of the step just delivered. *)
Definition check_owed {D : Domain} (q : PState) : nat :=
  match q with
  | PGo _ | PExit | PHooked | PClosed | PAggregating | PHalt => 0%nat
  | _ => 1%nat
  end.

Definition submission_owed {D : Domain} (q : PState) : nat :=
  match q with
  | PDecided _ => 1%nat
  | _ => 0%nat
  end.

Definition update_owed {D : Domain} (q : PState) : nat :=
  match q with
  | PPosted _ => 1%nat
  | _ => 0%nat
  end.

(** Runs that are cut short by a collaborator or by the driver: from a
    state where [P] holds, a run of [t] that ends with the exception [ex]
    ends where [E (Some ex)] holds, and one that is left waiting (a call
    that does not come back, a driver that does not resume) ends where
    [E None] holds. *)
Definition abrupt {D : Domain} {env : Env} {R} (P : State env -> Prop)
    (t : itree loopE R) (E : option (Exn D) -> State env -> Prop) : Prop :=
  forall n st, P st ->
    match exec n t st with
    | (Raised ex, st') => E (Some ex) st'
    | (Stalled, st') => E None st'
    | _ => True
    end.

(** Where a run that was cut short stopped: at the call that raised the
    exception, or at the label [Freq.parse] refused; at the call that did
    not come back, or at the suspension the driver left. *)
Definition stopped_at {D : Domain} {env : Env}
    (Freq_parse : string -> Exn D + (Z * string)) (o : option (Exn D))
    (st : State env) : Prop :=
  match o with
  | Some ex =>
      (exists l0 X (c : callE X), log st = l0 ++ [event_of_call c (Raise ex)]) \/
      (exists l0 executor label,
          log st = l0 ++ [EvTimePerStep executor (Ok label)] /\
          Freq_parse label = inl ex)
  | None =>
      (exists l0 X (c : callE X), log st = l0 ++ [event_of_call c Stall]) \/
      (exists l0 d, log st = l0 ++ [EvYield d Abandon])
  end.

(** A suspension that is resumed by [next()], and a resumption of the
    executor's generator with nothing sent in. *)
Definition resumed_by_next {D : Domain} (e : Event) : bool :=
  match e with
  | EvYield _ (Send None) => true
  | EvYield _ _ => false
  | _ => true
  end.

Definition resumes_with_nothing {D : Domain} (e : Event) : bool :=
  match e with
  | EvGenResume _ None _ => true
  | EvGenResume _ (Some _) _ => false
  | _ => true
  end.

(** From a state where [P] holds, [t] returns when given enough fuel. *)
Definition terminates {D : Domain} {env : Env} {R} (P : State env -> Prop)
    (t : itree loopE R) : Prop :=
  forall st, P st -> exists n r m st', exec n t st = (Returned r m, st').

(** Collaborators that answer: every call the loop makes returns, the
    driver resumes every suspension, the executor's generator stops
    yielding ([pending] bounds the yields that are left, and only a reset
    or a new generator may raise it), and [Freq.parse] accepts the labels of
    the executors. *)
Record responsive {D : Domain} (env : Env)
    (Freq_parse : string -> Exn D + (Z * string)) (start_time end_time : Time D)
    (pending : World env -> nat) : Prop := {
  rs_call : forall X (c : callE X) w,
      call_of_loop start_time end_time c -> exists x w', call env c w = (Ok x, w');
  rs_drive : forall d w a w',
      drive env d w = (a, w') -> a <> Abandon /\ (pending w' <= pending w)%nat;
  rs_yielded : forall g sent w d w',
      call env (GenResume g sent) w = (Ok (Yielded d), w') ->
      (pending w' < pending w)%nat;
  rs_label : forall executor w label w',
      call env (TimePerStep executor) w = (Ok label, w') ->
      exists p, Freq_parse label = inr p
}.

(** ** A two-level scenario

    The scenario of the spec's last testable property, as a concrete
    environment to run the loop in: an outer executor stepping by "1day"
    over an inner one stepping by "30min", two inner steps per outer day,
    the inner decisions being what the generator yields. Times are day
    numbers; day 7 is a holiday, so that a range can be empty of trading
    days. Only the outer account keeps portfolio metrics. *)

Definition two_level : Domain :=
  {| Time := Z; Infra := unit; Decision := nat; Result := nat; Gen := nat;
     Node := nat; Metrics := nat; Indicator := nat; DataFrame := nat;
     Exn := string |}.

(** The outer calendar: its position, its length, and the inner steps
    left in the current outer step. *)
Record Calendar : Type := { cal_step : Z; cal_len : Z; cal_pending : nat }.

Definition trading_days (s e : Z) : Z :=
  (e - s + 1) - (if (s <=? 7) && (7 <=? e) then 1 else 0).

Definition ConfigurationError : Exn two_level := "ConfigurationError"%string.
Definition ValueError : Exn two_level := "ValueError"%string.

Definition two_level_call X (c : @callE two_level X) (w : Calendar)
  : @reply two_level X * Calendar :=
  match c in callE X return @reply two_level X * Calendar with
  | ExecutorReset s e =>
      if e <? s then (Raise ConfigurationError, w)
      else (Ok tt, {| cal_step := 0; cal_len := trading_days s e; cal_pending := 0 |})
  | GetLevelInfra => (Ok tt, w)
  | StrategyReset _ => (Ok tt, w)
  | GetTradeLen => (Ok (cal_len w), w)
  | TqdmOpen _ => (Ok tt, w)
  | Finished => (Ok (cal_len w <=? cal_step w), w)
  | GenerateTradeDecision r => (Ok (match r with None => 0%nat | Some n => S n end), w)
  | CollectData d _ =>
      (Ok d, {| cal_step := cal_step w; cal_len := cal_len w; cal_pending := 2 |})
  | GenResume g _ =>
      match cal_pending w with
      | O => (Ok (@Done two_level (Some g)),
              {| cal_step := cal_step w + 1; cal_len := cal_len w; cal_pending := 0 |})
      | S p => (Ok (@Yielded two_level (g + 10)%nat),
                {| cal_step := cal_step w; cal_len := cal_len w; cal_pending := p |})
      end
  | PostExeStep _ => (Ok tt, w)
  | BarUpdate _ => (Ok tt, w)
  | PostUpperLevelExeStep => (Ok tt, w)
  | TqdmClose => (Ok tt, w)
  | GetAllExecutors => (Ok [0%nat; 1%nat], w)
  | TimePerStep n => (Ok (match n with O => "1day" | _ => "30min" end)%string, w)
  | IsPortMetrEnabled n => (Ok (Nat.eqb n 0), w)
  | GetPortfolioMetrics n => (Ok n, w)
  | GetTradeIndicator n => (Ok n, w)
  | GenerateTradeIndicatorsDataframe i => (Ok i, w)
  end.

Definition two_level_env : @Env two_level :=
  {| World := Calendar; call := two_level_call;
     drive := fun _ w => (@Send two_level None, w) |}.

Definition two_level_parse : string -> Exn two_level + (Z * string) :=
  Freq_parse_model ["day"; "min"]%string ValueError.

Definition fresh_calendar : Calendar :=
  {| cal_step := 0; cal_len := 0; cal_pending := 0 |}.

(** The run over days 1 and 2, capturing into the dict at reference 0. *)
Definition two_day_run : outcome unit * State two_level_env :=
  run_loop two_level_env two_level_parse 1 2 (Some 0%nat) 1000 fresh_calendar
           empty_heap.


(** A heap whose dict at reference 0 already holds an entry. *)
Definition noted_heap : Heap :=
  heap_set (heap_new empty_heap) 0%nat [("note"%string, @VPort two_level [])].

(** * Properties *)

(** ** Dicts *)

Lemma dict_get_set_eq {V} (d : Dict V) k v : dict_get (dict_set d k v) k = Some v.
Proof.
  induction d as [|[k' v'] d IH]; cbn.
  - now rewrite String.eqb_refl.
  - destruct (String.eqb k' k) eqn:E; cbn; rewrite E; auto.
Qed.

Lemma dict_get_set_neq {V} (d : Dict V) k k' v :
  k <> k' -> dict_get (dict_set d k v) k' = dict_get d k'.
Proof.
  intros Hn. induction d as [|[k0 v0] d IH]; cbn.
  - destruct (String.eqb k k') eqn:E; [apply String.eqb_eq in E; congruence|reflexivity].
  - destruct (String.eqb k0 k) eqn:E; cbn.
    + apply String.eqb_eq in E. subst k0.
      destruct (String.eqb k k') eqn:E'; [apply String.eqb_eq in E'; congruence|reflexivity].
    + destruct (String.eqb k0 k'); auto.
Qed.

Lemma dict_get_In {V} (d : Dict V) k v : dict_get d k = Some v -> In (k, v) d.
Proof.
  induction d as [|[k' v'] d IH]; cbn; [discriminate|].
  destruct (String.eqb k' k) eqn:E.
  - apply String.eqb_eq in E. intros H. inversion H; subst. now left.
  - intros H. right. auto.
Qed.

Lemma dict_get_set {V} (d : Dict V) k k' v :
  dict_get (dict_set d k v) k' = if String.eqb k k' then Some v else dict_get d k'.
Proof.
  destruct (String.eqb k k') eqn:E.
  - apply String.eqb_eq in E. subst. apply dict_get_set_eq.
  - apply dict_get_set_neq. intros ->. now rewrite String.eqb_refl in E.
Qed.

(** ** Frequency labels *)

Section FreqFacts.

Context {D : Domain}.

Lemma split_digits_no_digit rest :
  starts_with_digit rest = false -> split_digits rest = (EmptyString, rest).
Proof. destruct rest as [|c rest]; cbn; [reflexivity|]. now intros ->. Qed.

Lemma split_digits_string_of_uint d rest :
  starts_with_digit rest = false ->
  split_digits (NilEmpty.string_of_uint d ++ rest)
  = (NilEmpty.string_of_uint d, rest).
Proof.
  intros Hr. induction d; cbn [NilEmpty.string_of_uint String.append];
    try (cbn [split_digits]; change (is_digit _) with true; cbv iota;
         now rewrite IHd).
  now apply split_digits_no_digit.
Qed.

Lemma split_digits_str_of_int n rest :
  0 <= n -> starts_with_digit rest = false ->
  split_digits (str_of_int n ++ rest) = (str_of_int n, rest).
Proof.
  intros Hn Hr. destruct n as [|p|p]; [|  |lia].
  - cbn. now rewrite split_digits_no_digit.
  - cbn [str_of_int]. unfold NilZero.string_of_uint.
    pose proof (DecimalPos.Unsigned.to_uint_nonnil p) as Hp.
    destruct (Pos.to_uint p) eqn:E; try congruence;
      rewrite <- E; apply split_digits_string_of_uint; exact Hr.
Qed.

Lemma int_of_str_of_int n :
  0 <= n ->
  option_map (fun d => Z.of_N (N.of_uint d)) (NilZero.uint_of_string (str_of_int n))
  = Some n.
Proof.
  intros Hn. destruct n as [|p|p]; [reflexivity| |lia].
  cbn [str_of_int].
  rewrite NilZero.usu by apply DecimalPos.Unsigned.to_uint_nonnil.
  cbn [option_map]. unfold N.of_uint.
  now rewrite DecimalPos.Unsigned.of_to.
Qed.


End FreqFacts.

(** ** The equations of [exec] *)

Section ExecFacts.

Context {D : Domain} (env : Env (D:=D)).

Lemma exec_observe {R} (t t' : itree loopE R) n (st : State env) :
  observe t = observe t' -> exec n t st = exec n t' st.
Proof.
  intros H. destruct n as [|n]; simpl; [reflexivity|]. now rewrite H.
Qed.

Lemma exec_zero {R} (t : itree loopE R) (st : State env) :
  exec 0 t st = (OutOfFuel, st).
Proof. reflexivity. Qed.

Lemma exec_ret {R} (r : R) n (st : State env) :
  exec (S n) (Ret r) st = (Returned r (S n), st).
Proof. reflexivity. Qed.

Lemma exec_tau {R} (t : itree loopE R) n (st : State env) :
  exec (S n) (Tau t) st = exec n t st.
Proof. reflexivity. Qed.

Lemma exec_vis {R X} (e : loopE X) (k : X -> itree loopE R) n (st : State env) :
  exec (S n) (Vis e k) st =
  match handle e st with
  | (Ok x, st') => exec n (k x) st'
  | (Raise ex, st') => (Raised ex, st')
  | (Stall, st') => (Stalled, st')
  end.
Proof. reflexivity. Qed.

Lemma exec_trigger {X} (e : loopE X) n (st : State env) :
  exec (S n) (ITree.trigger e) st =
  match handle e st with
  | (Ok x, st') => exec n (Ret x) st'
  | (Raise ex, st') => (Raised ex, st')
  | (Stall, st') => (Stalled, st')
  end.
Proof. reflexivity. Qed.

(** Runs compose: the continuation starts with the fuel the first part
    left. *)
Lemma exec_bind {R S} (t : itree loopE R) (k : R -> itree loopE S) n (st : State env) :
  exec n (ITree.bind t k) st =
  match exec n t st with
  | (Returned r m, st') => exec m (k r) st'
  | (Raised ex, st') => (Raised ex, st')
  | (Stalled, st') => (Stalled, st')
  | (OutOfFuel, st') => (OutOfFuel, st')
  end.
Proof.
  revert t st. induction n as [|n IH]; intros t st; [reflexivity|].
  cbn [exec]. rewrite observe_bind.
  destruct (observe t) as [r|t'|X e h]; cbn [observe _observe].
  - reflexivity.
  - apply IH.
  - destruct (handle e st) as [[x|ex|] st']; [apply IH|reflexivity|reflexivity].
Qed.

Lemma exec_trigger_bind {R X} (e : loopE X) (k : X -> itree loopE R) n (st : State env) :
  exec (S n) (ITree.bind (ITree.trigger e) k) st =
  match handle e st with
  | (Ok x, st') => exec n (k x) st'
  | (Raise ex, st') => (Raised ex, st')
  | (Stall, st') => (Stalled, st')
  end.
Proof.
  cbn [exec]. rewrite observe_bind. cbn.
  destruct (handle e st) as [[x|ex|] st']; try reflexivity.
  apply exec_observe. now rewrite observe_bind.
Qed.

(** A call on a collaborator, then the rest. *)
Lemma exec_call_bind {R X} (c : callE X) (k : X -> itree loopE R) n (st : State env) :
  exec (S n) (ITree.bind (trigger c) k) st =
  let (r, w') := call env c (world st) in
  let st' := {| world := w'; heap := heap st;
                log := log st ++ [event_of_call c r] |} in
  match r with
  | Ok x => exec n (k x) st'
  | Raise ex => (Raised ex, st')
  | Stall => (Stalled, st')
  end.
Proof.
  rewrite exec_trigger_bind.
  change (handle (subevent X c) st) with (handle_call c st).
  unfold handle_call. destruct (call env c (world st)) as [[x|ex|] w']; reflexivity.
Qed.

Lemma exec_yield_bind {R} (d : Decision D) (k : option (Decision D) -> itree loopE R)
    n (st : State env) :
  exec (S n) (ITree.bind (trigger (Yield d)) k) st =
  let (a, w') := drive env d (world st) in
  let st' := {| world := w'; heap := heap st; log := log st ++ [EvYield d a] |} in
  match a with
  | Send sent => exec n (k sent) st'
  | Abandon => (Stalled, st')
  end.
Proof.
  rewrite exec_trigger_bind.
  change (handle (subevent _ (Yield d)) st) with (handle_yield (Yield d) st).
  cbn. destruct (drive env d (world st)) as [[sent|] w']; reflexivity.
Qed.

Lemma exec_py_bind {R X} (p : pyE X) (k : X -> itree loopE R) n (st : State env) :
  exec (S n) (ITree.bind (trigger p) k) st =
  match handle_py p st with
  | (Ok x, st') => exec n (k x) st'
  | (Raise ex, st') => (Raised ex, st')
  | (Stall, st') => (Stalled, st')
  end.
Proof. now rewrite exec_trigger_bind. Qed.

Lemma exec_iter {I R} (body : I -> itree loopE (I + R)) (i : I) n (st : State env) :
  exec n (ITree.iter body i) st =
  exec n (ITree.bind (body i)
            (fun lr => match lr with
                       | inl l => Tau (ITree.iter body l)
                       | inr r => Ret r
                       end)) st.
Proof. apply exec_observe. exact (observing_observe (unfold_aloop_ body i)). Qed.

(** A run that returns has used some of its fuel for each event, and has
    some left. *)
Lemma exec_fuel_left {R} (t : itree loopE R) n (st st' : State env) r m :
  exec n t st = (Returned r m, st') -> (1 <= m <= n)%nat.
Proof.
  revert t st. induction n as [|n IH]; intros t st; cbn [exec]; [discriminate|].
  destruct (observe t) as [r0|t'|X e h].
  - intros H. inversion H; subst. lia.
  - intros H. apply IH in H. lia.
  - destruct (handle e st) as [[x|ex|] st1]; try discriminate.
    intros H. apply IH in H. lia.
Qed.

(** A run only adds to the trace. *)
Lemma handle_log_extends {X} (e : loopE X) (st : State env) :
  exists l, log (snd (handle e st)) = log st ++ l.
Proof.
  destruct e as [c|[y|p]]; cbn.
  - unfold handle_call. destruct (call env c (world st)). cbn. eauto.
  - destruct y. cbn. destruct (drive env d (world st)). cbn. eauto.
  - exists []. rewrite app_nil_r. destruct p; reflexivity.
Qed.

Lemma exec_log_extends {R} (t : itree loopE R) n (st : State env) :
  exists l, log (snd (exec n t st)) = log st ++ l.
Proof.
  revert t st. induction n as [|n IH]; intros t st; cbn [exec].
  - exists []. now rewrite app_nil_r.
  - destruct (observe t) as [r|t'|X e k].
    + exists []. now rewrite app_nil_r.
    + apply IH.
    + destruct (handle_log_extends e st) as (l & Hl).
      destruct (handle e st) as [[x|ex|] st']; cbn in Hl.
      * destruct (IH (k x) st') as (l' & Hl').
        exists (l ++ l'). now rewrite Hl', Hl, app_assoc.
      * eauto.
      * eauto.
Qed.

Lemma exec_bind_log_prefix {R S} (t : itree loopE R) (k : R -> itree loopE S) n
    (st : State env) :
  exists l, log (snd (exec n (ITree.bind t k) st)) = log (snd (exec n t st)) ++ l.
Proof.
  rewrite exec_bind.
  destruct (exec n t st) as [[r m|ex| |] st']; cbn [snd];
    try (exists []; now rewrite app_nil_r).
  apply exec_log_extends.
Qed.

(** The first test of the [while], from any point of the loop. *)
Lemma exec_first_check (res : option (Result D)) n (st : State env) rep w' :
  call env Finished (world st) = (rep, w') ->
  let st' := {| world := w'; heap := heap st; log := log st ++ [EvFinished rep] |} in
  match rep with
  | Ok true => exec (S (S n)) (ITree.iter loop_body res) st = (Returned tt (S n), st')
  | Ok false =>
      exists rep' l,
        log (snd (exec (S (S n)) (ITree.iter loop_body res) st)) =
        log st ++ [EvFinished (Ok false); EvGenerateTradeDecision res rep'] ++ l
  | Raise ex => exec (S (S n)) (ITree.iter loop_body res) st = (Raised ex, st')
  | Stall => exec (S (S n)) (ITree.iter loop_body res) st = (Stalled, st')
  end.
Proof.
  intros Ec. rewrite exec_iter.
  destruct rep as [[|]|ex|]; cbn zeta;
    try (rewrite exec_bind; unfold loop_body; rewrite exec_call_bind, Ec; reflexivity).
  destruct (exec_bind_log_prefix (loop_body res)
              (fun lr : option (Result D) + unit =>
                 match lr with
                 | inl l => Tau (ITree.iter loop_body l)
                 | inr r => Ret r
                 end) (S (S n)) st) as (l2 & ->).
  unfold loop_body. rewrite exec_call_bind, Ec. cbn zeta. rewrite exec_call_bind.
  cbn [world heap log].
  destruct (call env (GenerateTradeDecision res) w') as [[d|ex|] w''];
    cbn [event_of_call].
  - match goal with
    | |- context [exec n ?t ?s] => destruct (exec_log_extends t n s) as (l1 & ->)
    end.
    cbn [log]. exists (Ok d), (l1 ++ l2). now rewrite <- !app_assoc.
  - cbn [snd log]. exists (Raise ex), l2. now rewrite <- !app_assoc.
  - cbn [snd log]. exists Stall, l2. now rewrite <- !app_assoc.
Qed.

(** More fuel does not change a run that ended by itself. *)
Lemma exec_more_fuel {R} (t : itree loopE R) n k (st st' : State env) o :
  exec n t st = (o, st') -> o <> OutOfFuel ->
  exec (n + k) t st
  = (match o with Returned r m => Returned r (m + k) | _ => o end, st').
Proof.
  revert t st. induction n as [|n IH]; intros t st;
    [cbn; intros H; inversion H; congruence|].
  cbn [exec Nat.add]. destruct (observe t) as [r|t'|X e h].
  - intros H _. inversion H; subst. reflexivity.
  - apply IH.
  - destruct (handle e st) as [[x|ex|] st1].
    + apply IH.
    + intros H _. now inversion H.
    + intros H _. now inversion H.
Qed.

(** *** Runs that return, taken apart *)

Lemma exec_bind_returned {R S} (t : itree loopE R) (k : R -> itree loopE S) n
    (st st' : State env) r m :
  exec n (ITree.bind t k) st = (Returned r m, st') ->
  exists r1 m1 st1,
    exec n t st = (Returned r1 m1, st1) /\ exec m1 (k r1) st1 = (Returned r m, st').
Proof.
  rewrite exec_bind.
  destruct (exec n t st) as [[r1 m1|ex| |] st1]; try discriminate. eauto.
Qed.

Lemma exec_call_returned {R X} (c : callE X) (k : X -> itree loopE R) n
    (st st' : State env) r m :
  exec n (ITree.bind (trigger c) k) st = (Returned r m, st') ->
  exists x w' n',
    n = S n' /\ call env c (world st) = (Ok x, w') /\
    exec n' (k x) {| world := w'; heap := heap st;
                     log := log st ++ [event_of_call c (Ok x)] |}
    = (Returned r m, st').
Proof.
  destruct n as [|n]; [cbn; discriminate|]. rewrite exec_call_bind.
  destruct (call env c (world st)) as [[x|ex|] w']; try discriminate. eauto 6.
Qed.

Lemma exec_ret_returned {R} (r r' : R) n m (st st' : State env) :
  exec n (Ret r) st = (Returned r' m, st') -> r' = r /\ m = n /\ st' = st.
Proof.
  destruct n as [|n]; [cbn; discriminate|]. rewrite exec_ret.
  intros H. inversion H. auto.
Qed.

Lemma exec_py_returned {X} (p : pyE X) n (st st' : State env) x m :
  exec n (trigger p) st = (Returned x m, st') ->
  handle_py p st = (Ok x, st').
Proof.
  destruct n as [|n]; [cbn; discriminate|]. rewrite exec_trigger.
  change (handle (subevent X p) st) with (handle_py p st).
  destruct (handle_py p st) as [[x'|ex|] st1]; try discriminate.
  destruct n as [|n]; [cbn; discriminate|]. cbn. intros H. now inversion H.
Qed.

(** ** Rules for triples *)

Lemma triple_ret {R} (I P : State env -> Prop) (r : R) (Q : R -> State env -> Prop) :
  (forall st, P st -> I st) ->
  (forall st, P st -> Q r st) ->
  triple I P (Ret r) Q.
Proof.
  intros HI HQ [|n] st HP; cbn; auto.
Qed.

Lemma triple_bind {R S} (I P : State env -> Prop) (t : itree loopE R)
    (k : R -> itree loopE S) (Q : R -> State env -> Prop) (Q' : S -> State env -> Prop) :
  triple I P t Q ->
  (forall r, triple I (Q r) (k r) Q') ->
  triple I P (ITree.bind t k) Q'.
Proof.
  intros Ht Hk n st HP. rewrite exec_bind.
  specialize (Ht n st HP).
  destruct (exec n t st) as [[r m|ex| |] st']; auto.
  apply Hk, Ht.
Qed.

Lemma triple_conseq {R} (I P P' : State env -> Prop) (t : itree loopE R)
    (Q Q' : R -> State env -> Prop) :
  (forall st, P' st -> P st) ->
  (forall r st, Q r st -> Q' r st) ->
  triple I P t Q ->
  triple I P' t Q'.
Proof.
  intros HP HQ Ht n st H. specialize (Ht n st (HP _ H)).
  destruct (exec n t st) as [[r m|ex| |] st']; auto.
Qed.

(** One event: what holds after it, whatever the environment replies. *)
Lemma triple_trigger {X} (I P : State env -> Prop) (e : loopE X)
    (Q : X -> State env -> Prop) :
  (forall st, P st -> I st) ->
  (forall st, P st ->
     match handle e st with
     | (Ok x, st') => Q x st' /\ I st'
     | (_, st') => I st'
     end) ->
  triple I P (ITree.trigger e) Q.
Proof.
  intros HI He [|n] st HP; [cbn; auto|].
  cbn [exec]. cbn. specialize (He st HP).
  destruct (handle e st) as [[x|ex|] st']; auto.
  destruct n; cbn; tauto.
Qed.

(** The loop rule: an invariant indexed by the loop variable. *)
Lemma triple_iter {A R} (I : State env -> Prop) (Inv : A -> State env -> Prop)
    (body : A -> itree loopE (A + R)) (Q : R -> State env -> Prop) :
  (forall a, triple I (Inv a) (body a)
               (fun lr st => match lr with
                             | inl a' => Inv a' st
                             | inr r => Q r st
                             end)) ->
  forall a, triple I (Inv a) (ITree.iter body a) Q.
Proof.
  intros Hbody a n. revert a.
  induction n as [n IH] using lt_wf_ind. intros a st HInv.
  rewrite exec_iter, exec_bind.
  specialize (Hbody a n st HInv).
  destruct (exec n (body a) st) as [[[a'|r] m|ex| |] st'] eqn:E; auto.
  - apply exec_fuel_left in E.
    destruct m as [|m]; [lia|]. rewrite exec_tau.
    apply IH; [lia|assumption].
  - apply exec_fuel_left in E.
    destruct m as [|m]; [lia|]. now rewrite exec_ret.
Qed.

(** *** Rules for runs that return *)

Lemma triple_exists {A R} (I : State env -> Prop) (P : A -> State env -> Prop)
    (t : itree loopE R) (Q : R -> State env -> Prop) :
  (forall a, triple I (P a) t Q) ->
  triple I (fun st => exists a, P a st) t Q.
Proof. intros H n st (a & Ha). now apply (H a). Qed.

Lemma triple_call_returned {X} (P : State env -> Prop) (c : callE X)
    (Q : X -> State env -> Prop) :
  (forall st x w', P st -> call env c (world st) = (Ok x, w') ->
     Q x {| world := w'; heap := heap st;
            log := log st ++ [event_of_call c (Ok x)] |}) ->
  triple (fun _ => True) P (trigger c) Q.
Proof.
  intros H. apply triple_trigger; [auto|]. intros st HP.
  change (handle (subevent X c) st) with (handle_call c st). unfold handle_call.
  destruct (call env c (world st)) as [[x|ex|] w'] eqn:E; auto.
Qed.

Lemma triple_yield_returned (P : State env -> Prop) (d : Decision D)
    (Q : option (Decision D) -> State env -> Prop) :
  (forall st sent w', P st -> drive env d (world st) = (Send sent, w') ->
     Q sent {| world := w'; heap := heap st;
               log := log st ++ [EvYield d (Send sent)] |}) ->
  triple (fun _ => True) P (trigger (Yield d)) Q.
Proof.
  intros H. apply triple_trigger; [auto|]. intros st HP.
  change (handle (subevent _ (Yield d)) st) with (handle_yield (Yield d) st). cbn.
  destruct (drive env d (world st)) as [[sent|] w'] eqn:E; auto.
Qed.

(** ** Where exceptions come from *)

Lemma raises_only_ret (A : Exn D -> Prop) {R} (r : R) : raises_only env A (Ret r).
Proof. intros [|n] st; cbn; exact I. Qed.

Lemma raises_only_bind (A : Exn D -> Prop) {R S} (t : itree loopE R)
    (k : R -> itree loopE S) :
  raises_only env A t -> (forall r, raises_only env A (k r)) ->
  raises_only env A (ITree.bind t k).
Proof.
  intros Ht Hk n st. rewrite exec_bind. specialize (Ht n st).
  destruct (exec n t st) as [[r m|ex| |] st']; cbn in *; auto.
  apply Hk.
Qed.

Lemma raises_only_iter (A : Exn D -> Prop) {I R} (body : I -> itree loopE (I + R)) i :
  (forall i, raises_only env A (body i)) -> raises_only env A (ITree.iter body i).
Proof.
  intros Hb n. revert i. induction n as [n IH] using lt_wf_ind. intros i st.
  rewrite exec_iter, exec_bind. specialize (Hb i n st).
  destruct (exec n (body i) st) as [[[i'|r] m|ex| |] st'] eqn:E; cbn in *; auto.
  - apply exec_fuel_left in E. destruct m as [|m]; [lia|]. rewrite exec_tau.
    apply IH. lia.
  - apply exec_fuel_left in E. destruct m as [|m]; [lia|]. now rewrite exec_ret.
Qed.

Lemma raises_only_call (A : Exn D -> Prop) {X} (c : callE X) :
  (forall w ex, fst (call env c w) = Raise ex -> A ex) ->
  raises_only env A (trigger c).
Proof.
  intros H [|n] st; [exact I|]. rewrite exec_trigger.
  change (handle (subevent X c) st) with (handle_call c st). unfold handle_call.
  specialize (H (world st)).
  destruct (call env c (world st)) as [[x|ex|] w']; cbn in *; auto.
  destruct n; exact I.
Qed.

Lemma raises_only_yield (A : Exn D -> Prop) (d : Decision D) :
  raises_only env A (trigger (Yield d)).
Proof.
  intros [|n] st; [exact I|]. rewrite exec_trigger.
  change (handle (subevent _ (Yield d)) st) with (handle_yield (Yield d) st). cbn.
  destruct (drive env d (world st)) as [[s|] w']; cbn; auto.
  destruct n; exact I.
Qed.

Lemma raises_only_py (A : Exn D -> Prop) {X} (p : pyE X) :
  (forall e, A e) \/ match p with Throw e => A e | _ => True end ->
  raises_only env A (trigger p).
Proof.
  intros H [|n] st; [exact I|]. rewrite exec_trigger.
  change (handle (subevent X p) st) with (handle_py p st).
  destruct p; cbn; try (destruct n; exact I).
  destruct H as [H|H]; auto.
Qed.

(** ** Trees that do not touch the heap *)

Lemma keeps_heap_ret {R} (r : R) : keeps_heap env (Ret r).
Proof. intros h. apply triple_ret; auto. Qed.

Lemma keeps_heap_bind {R S} (t : itree loopE R) (k : R -> itree loopE S) :
  keeps_heap env t -> (forall r, keeps_heap env (k r)) ->
  keeps_heap env (ITree.bind t k).
Proof. intros Ht Hk h. eapply triple_bind; [apply Ht|]. intros r. apply Hk. Qed.

Lemma keeps_heap_iter {A R} (body : A -> itree loopE (A + R)) a :
  (forall a, keeps_heap env (body a)) -> keeps_heap env (ITree.iter body a).
Proof.
  intros Hb h. apply (triple_iter (fun _ st => heap st = h)).
  intros a'. eapply triple_conseq; [| |apply Hb]; cbn; auto.
  intros [|]; auto.
Qed.

Lemma keeps_heap_call {X} (c : callE X) : keeps_heap env (trigger c).
Proof.
  intros h. apply triple_trigger; [auto|]. intros st H.
  change (handle (subevent X c) st) with (handle_call c st). unfold handle_call.
  destruct (call env c (world st)) as [[x|ex|] w']; cbn; auto.
Qed.

Lemma keeps_heap_yield (d : Decision D) : keeps_heap env (trigger (Yield d)).
Proof.
  intros h. apply triple_trigger; [auto|]. intros st H.
  change (handle (subevent _ (Yield d)) st) with (handle_yield (Yield d) st). cbn.
  destruct (drive env d (world st)) as [[s|] w']; cbn; auto.
Qed.

Lemma keeps_heap_throw (e : Exn D) : keeps_heap env (trigger (Throw e)).
Proof.
  intros h. apply triple_trigger; [auto|]. intros st H.
  change (handle (subevent _ (Throw e)) st) with (handle_py (Throw e) st). cbn. auto.
Qed.

Lemma keeps_heap_returned {R} (t : itree loopE R) n (st st' : State env) r m :
  keeps_heap env t -> exec n t st = (Returned r m, st') -> heap st' = heap st.
Proof.
  intros Hk E. specialize (Hk (heap st) n st eq_refl). now rewrite E in Hk.
Qed.

Lemma keeps_heap_always {R} (t : itree loopE R) n (st : State env) :
  keeps_heap env t -> heap (snd (exec n t st)) = heap st.
Proof.
  intros Hk. specialize (Hk (heap st) n st eq_refl).
  destruct (exec n t st) as [[r m|ex| |] st']; exact Hk.
Qed.

End ExecFacts.

Ltac keeps_heap_tac :=
  repeat first
    [ apply keeps_heap_ret
    | apply keeps_heap_call
    | apply keeps_heap_yield
    | apply keeps_heap_throw
    | apply keeps_heap_bind; [|intros ?]
    | apply keeps_heap_iter; intros ?
    | match goal with
      | |- keeps_heap _ (match ?x with _ => _ end) => destruct x
      | |- keeps_heap _ (if ?x then _ else _) => destruct x
      end ].

Section HeapFacts.

Context {D : Domain} (env : Env (D:=D)).

Lemma yield_from_keeps_heap (g : Gen D) : keeps_heap env (yield_from g).
Proof. unfold yield_from. keeps_heap_tac. Qed.

Lemma loop_body_keeps_heap res : keeps_heap env (loop_body res).
Proof.
  unfold loop_body. keeps_heap_tac.
Qed.

Lemma aggregate_keeps_heap Freq_parse (all_executors : list (Node D)) acc :
  keeps_heap env (aggregate Freq_parse all_executors acc).
Proof.
  revert acc. induction all_executors as [|executor rest IH]; intros acc;
    cbn [aggregate]; [apply keeps_heap_ret|].
  apply keeps_heap_bind; [|intros; apply IH].
  unfold aggregate_one. destruct acc. keeps_heap_tac.
Qed.

End HeapFacts.

(** ** The aggregation *)

Section Aggregation.

Context {D : Domain} (env : Env (D:=D)).
Variable Freq_parse : string -> Exn D + (Z * string).

Lemma aggregate_one_returned acc (executor : Node D) n (st st' : State env) acc' m :
  exec n (aggregate_one Freq_parse acc executor) st = (Returned acc' m, st') ->
  exists v,
    v_executor v = executor /\ parsed Freq_parse v /\
    log st' = log st ++ visit_events v /\
    acc' = visit_apply acc v /\
    heap st' = heap st.
Proof.
  unfold aggregate_one. destruct acc as [portfolio_dict indicator_dict]. intros H.
  apply exec_call_returned in H. destruct H as (label & w1 & n1 & -> & _ & H).
  apply exec_bind_returned in H. destruct H as (key & m1 & st1 & Hk & H).
  destruct (Freq_parse label) as [e|p] eqn:Ep.
  { apply exec_bind_returned in Hk. destruct Hk as ([] & _). }
  apply exec_ret_returned in Hk. destruct Hk as (-> & -> & ->).
  apply exec_call_returned in H. destruct H as (enabled & w2 & n2 & -> & _ & H).
  apply exec_bind_returned in H. destruct H as (pd' & m2 & st2 & Hp & H).
  assert (exists om w3,
             pd' = match om with Some m => dict_set portfolio_dict (format2 p) m
                               | None => portfolio_dict end /\
             enabled = match om with Some _ => true | None => false end /\
             st2 = {| world := w3; heap := heap st;
                      log := (log st ++ [EvTimePerStep executor (Ok label);
                                         EvIsPortMetrEnabled executor (Ok enabled)])
                             ++ match om with
                                | Some m => [EvGetPortfolioMetrics executor (Ok m)]
                                | None => []
                                end |})
    as (om & w3 & -> & -> & ->).
  { destruct enabled.
    - apply exec_call_returned in Hp. destruct Hp as (x & w3 & n3 & _ & _ & Hp).
      apply exec_ret_returned in Hp. destruct Hp as (-> & _ & ->).
      exists (Some x), w3. cbn. now rewrite <- !app_assoc.
    - apply exec_ret_returned in Hp. destruct Hp as (-> & _ & ->).
      exists None, w2. cbn. now rewrite <- !app_assoc, app_nil_r. }
  apply exec_call_returned in H. destruct H as (ind & w4 & n4 & -> & _ & H).
  apply exec_call_returned in H. destruct H as (df & w5 & n5 & -> & _ & H).
  apply exec_call_returned in H. destruct H as (obj & w6 & n6 & -> & _ & H).
  apply exec_ret_returned in H. destruct H as (-> & _ & ->).
  exists {| v_executor := executor; v_label := label; v_parsed := p;
            v_metrics := om; v_ind := ind; v_df := df; v_obj := obj |}.
  unfold parsed, visit_apply, visit_events, v_key. cbn.
  repeat split; auto.
  rewrite <- !app_assoc. reflexivity.
Qed.

Lemma aggregate_returned (all_executors : list (Node D)) acc n (st st' : State env)
    acc' m :
  exec n (aggregate Freq_parse all_executors acc) st = (Returned acc' m, st') ->
  exists vs,
    map v_executor vs = all_executors /\ Forall (parsed Freq_parse) vs /\
    log st' = log st ++ flat_map visit_events vs /\
    acc' = fold_left visit_apply vs acc /\
    heap st' = heap st.
Proof.
  revert acc n st. induction all_executors as [|executor rest IH]; intros acc n st H;
    cbn [aggregate] in H.
  - apply exec_ret_returned in H. destruct H as (-> & _ & ->).
    exists []. cbn. rewrite app_nil_r. repeat split; auto.
  - apply exec_bind_returned in H. destruct H as (acc1 & m1 & st1 & H1 & H).
    apply aggregate_one_returned in H1.
    destruct H1 as (v & Hv & Hp & Hl & -> & Hh).
    apply IH in H. destruct H as (vs & Hvs & Hps & Hl' & -> & Hh').
    exists (v :: vs). cbn [map flat_map fold_left].
    rewrite Hl', Hl, Hh', Hh, <- app_assoc.
    repeat split; auto; try (now rewrite Hv, Hvs); now constructor.
Qed.

(** What the visits leave in the two dicts. *)
Lemma visits_keep_keys (vs : list Visit) acc k :
  (dict_get (fst acc) k <> None ->
   dict_get (fst (fold_left visit_apply vs acc)) k <> None) /\
  (dict_get (snd acc) k <> None ->
   dict_get (snd (fold_left visit_apply vs acc)) k <> None).
Proof.
  revert acc. induction vs as [|v vs IH]; intros acc; cbn [fold_left]; [auto|].
  destruct (IH (visit_apply acc v)) as [IH1 IH2]. split; intros H.
  - apply IH1. unfold visit_apply. cbn [fst].
    destruct (v_metrics v); [|exact H].
    rewrite dict_get_set. destruct (String.eqb _ _); [discriminate|exact H].
  - apply IH2. unfold visit_apply. cbn [snd].
    rewrite dict_get_set. destruct (String.eqb _ _); [discriminate|exact H].
Qed.

Lemma visits_enter (vs : list Visit) acc v :
  In v vs ->
  dict_get (snd (fold_left visit_apply vs acc)) (v_key v) <> None /\
  (v_metrics v <> None ->
   dict_get (fst (fold_left visit_apply vs acc)) (v_key v) <> None).
Proof.
  revert acc. induction vs as [|v0 vs IH]; intros acc Hin; [destruct Hin|].
  cbn [fold_left]. destruct Hin as [->|Hin]; [|now apply IH].
  destruct (visits_keep_keys vs (visit_apply acc v) (v_key v)) as [H1 H2].
  split.
  - apply H2. unfold visit_apply. cbn [snd]. now rewrite dict_get_set_eq.
  - intros Hm. apply H1. unfold visit_apply. cbn [fst].
    destruct (v_metrics v); [|congruence]. now rewrite dict_get_set_eq.
Qed.

Lemma visits_only (vs : list Visit) acc k :
  (forall m, dict_get (fst (fold_left visit_apply vs acc)) k = Some m ->
     dict_get (fst acc) k = Some m \/
     exists v, In v vs /\ v_key v = k /\ v_metrics v = Some m) /\
  (forall x, dict_get (snd (fold_left visit_apply vs acc)) k = Some x ->
     dict_get (snd acc) k = Some x \/
     exists v, In v vs /\ v_key v = k /\ x = (v_df v, v_obj v)).
Proof.
  revert acc. induction vs as [|v vs IH]; intros acc; cbn [fold_left]; [auto|].
  destruct (IH (visit_apply acc v)) as [IH1 IH2]. split.
  - intros m H. apply IH1 in H. destruct H as [H|(v' & Hin & Hk & Hm)].
    + unfold visit_apply in H. cbn [fst] in H.
      destruct (v_metrics v) as [m0|] eqn:Em; [|now left].
      rewrite dict_get_set in H. destruct (String.eqb (v_key v) k) eqn:E.
      * apply String.eqb_eq in E. inversion H; subst.
        right. exists v. cbn. auto.
      * now left.
    + right. exists v'. cbn. auto.
  - intros x H. apply IH2 in H. destruct H as [H|(v' & Hin & Hk & Hx)].
    + unfold visit_apply in H. cbn [snd] in H.
      rewrite dict_get_set in H. destruct (String.eqb (v_key v) k) eqn:E.
      * apply String.eqb_eq in E. inversion H; subst.
        right. exists v. cbn. auto.
      * now left.
    + right. exists v'. cbn. auto.
Qed.

(** C7. A run of the aggregation that returns has visited every
    executor of the list, in order; on each it read the label, parsed it
    into the frequency key, asked whether portfolio metrics are enabled,
    called [get_portfolio_metrics()] only when they are, and made the three
    indicator calls. Every visited executor's key is in the indicator dict;
    the key of one with portfolio metrics enabled is in the portfolio dict
    too; every entry of the portfolio dict was written for an executor with
    portfolio metrics enabled, so that an executor with them disabled has no
    entry unless an enabled one shares its key; every entry of the indicator
    dict holds the dataframe and the indicator of a visited executor. *)
Theorem disabled_metrics_omitted (all_executors : list (Node D)) n (st st' : State env)
    portfolio_dict indicator_dict m :
  exec n (aggregate Freq_parse all_executors ([], [])) st
  = (Returned (portfolio_dict, indicator_dict) m, st') ->
  exists vs,
    map v_executor vs = all_executors /\ Forall (parsed Freq_parse) vs /\
    log st' = log st ++ flat_map visit_events vs /\
    (portfolio_dict, indicator_dict) = fold_left visit_apply vs ([], []) /\
    (forall v, In v vs ->
       dict_get indicator_dict (v_key v) <> None /\
       (v_metrics v <> None -> dict_get portfolio_dict (v_key v) <> None) /\
       (v_metrics v = None ->
        count is_get_portfolio_metrics (visit_events v) = O)) /\
    (forall k m', dict_get portfolio_dict k = Some m' ->
       exists v, In v vs /\ v_key v = k /\ v_metrics v = Some m') /\
    (forall k x, dict_get indicator_dict k = Some x ->
       exists v, In v vs /\ v_key v = k /\ x = (v_df v, v_obj v)) /\
    (forall v, In v vs -> v_metrics v = None ->
       (forall v', In v' vs -> v_key v' = v_key v -> v_metrics v' = None) ->
       dict_get portfolio_dict (v_key v) = None).
Proof.
  intros H. apply aggregate_returned in H.
  destruct H as (vs & Hvs & Hps & Hl & Hacc & _).
  exists vs. split; [exact Hvs|]. split; [exact Hps|]. split; [exact Hl|].
  split; [exact Hacc|].
  assert (Ep : portfolio_dict = fst (fold_left visit_apply vs ([], [])))
    by now rewrite <- Hacc.
  assert (Ei : indicator_dict = snd (fold_left visit_apply vs ([], [])))
    by now rewrite <- Hacc.
  assert (Honly : forall k m', dict_get portfolio_dict k = Some m' ->
                    exists v, In v vs /\ v_key v = k /\ v_metrics v = Some m').
  { intros k m' Hg. rewrite Ep in Hg.
    apply (proj1 (visits_only vs ([], []) k)) in Hg.
    destruct Hg as [Hg|Hg]; [discriminate|exact Hg]. }
  split; [|split; [exact Honly|split]].
  - intros v Hin. destruct (visits_enter vs ([], []) v Hin) as [H1 H2].
    rewrite Ep, Ei. split; [exact H1|]. split; [exact H2|].
    intros Hm. unfold visit_events. rewrite Hm. reflexivity.
  - intros k x Hg. rewrite Ei in Hg.
    apply (proj2 (visits_only vs ([], []) k)) in Hg.
    destruct Hg as [Hg|Hg]; [discriminate|exact Hg].
  - intros v Hin Hm Hothers.
    destruct (dict_get portfolio_dict (v_key v)) as [m'|] eqn:E; [|reflexivity].
    apply Honly in E. destruct E as (v' & Hin' & Hk & Hm').
    rewrite (Hothers v' Hin' Hk) in Hm'. discriminate.
Qed.

End Aggregation.

(** ** The loop follows its protocol *)

Section Follows.

Context {D : Domain} (env : Env (D:=D)).
Variable Freq_parse : string -> Exn D + (Z * string).
Variables (start_time end_time : Time D) (return_value : option Ref).

#[local] Abbreviation at_ := (follows env start_time end_time return_value).
#[local] Abbreviation ok_ := (follows_protocol env start_time end_time return_value).

Lemma call_follows {X} (c : callE X) (q : PState) (next : X -> PState) :
  (forall r, step start_time end_time return_value q (event_of_call c r) (on_ok r next)) ->
  triple ok_ (at_ q) (trigger c) (fun x => at_ (next x)).
Proof.
  intros Hstep. apply triple_trigger.
  - intros st H. now exists q.
  - intros st H. change (handle (subevent X c) st) with (handle_call c st). unfold handle_call.
    destruct (call env c (world st)) as [r w'].
    pose proof (reach_snoc H (Hstep r)) as H'.
    destruct r as [x| |]; cbn in *; [split|..]; try (eexists; exact H'); exact H'.
Qed.

Lemma yield_follows (g : Gen D) (d : Decision D) :
  triple ok_ (at_ (PSuspended g d)) (trigger (Yield d)) (fun sent => at_ (PInner g sent)).
Proof.
  apply triple_trigger.
  - intros st H. now exists (PSuspended g d).
  - intros st H. change (handle (subevent _ (Yield d)) st) with (handle_yield (Yield d) st). cbn.
    destruct (drive env d (world st)) as [a w'].
    pose proof (reach_snoc H (step_yield start_time end_time return_value g d a)) as H'.
    destruct a as [sent|]; cbn in *; [split|]; try (eexists; exact H'); exact H'.
Qed.

Lemma yield_from_follows (g : Gen D) :
  triple ok_ (at_ (PInner g None)) (yield_from g) (fun r => at_ (PStepDone r)).
Proof.
  unfold yield_from.
  apply (triple_iter (fun sent => at_ (PInner g sent))).
  intros sent.
  eapply triple_bind.
  - apply call_follows with
      (next := fun y => match y with
                        | Yielded d => PSuspended g d
                        | Done res => PStepDone res
                        end).
    intros r. constructor.
  - intros [d|res]; cbn beta iota.
    + eapply triple_bind; [apply yield_follows|].
      intros s. apply triple_ret; [intros st H; eexists; exact H|auto].
    + apply triple_ret; [intros st H; eexists; exact H|auto].
Qed.

Lemma py_follows {X} (p : pyE X) (q : PState) :
  triple ok_ (at_ q) (trigger p) (fun _ => at_ q).
Proof.
  apply triple_trigger.
  - intros st H. now exists q.
  - intros st H. change (handle (subevent X p) st) with (handle_py p st).
    destruct p; cbn; try split; try (exists q); exact H.
Qed.

Ltac follow_call :=
  eapply triple_bind;
  [ apply call_follows; intros ?; econstructor; eauto
  | cbn beta; intros ? ].

Ltac follow_ret :=
  apply triple_ret; [intros ? ?; eexists; eassumption | auto].

Lemma loop_body_follows (res : option (Result D)) :
  triple ok_ (at_ (PHead res)) (loop_body res)
    (fun lr => match lr with
               | inl res' => at_ (PHead res')
               | inr _ => at_ PExit
               end).
Proof.
  unfold loop_body.
  eapply triple_bind.
  - apply call_follows with
      (next := fun fin : bool => if fin then PExit else PGo res).
    intros r. constructor.
  - intros [|]; [follow_ret|].
    follow_call. follow_call.
    eapply triple_bind; [apply yield_from_follows|]. intros res'.
    follow_call. follow_call. follow_ret.
Qed.

Lemma aggregate_one_follows acc (executor : Node D) :
  triple ok_ (at_ PAggregating) (aggregate_one Freq_parse acc executor)
    (fun _ => at_ PAggregating).
Proof.
  assert (Hq : forall X (c : callE X),
             (forall r, account_query (event_of_call c r)
                        = Some (match r with Ok _ => true | _ => false end)) ->
             triple ok_ (at_ PAggregating) (trigger c) (fun _ => at_ PAggregating)).
  { intros X c Hc. apply call_follows with (next := fun _ => PAggregating).
    intros r. pose proof (step_account_query start_time end_time return_value _ (Hc r)) as H.
    destruct r; exact H. }
  unfold aggregate_one. destruct acc as [portfolio_dict indicator_dict].
  eapply triple_bind; [apply Hq; reflexivity|]. intros label.
  eapply triple_bind with (Q := fun _ => at_ PAggregating).
  { destruct (Freq_parse label) as [e|p].
    - eapply triple_bind; [apply py_follows|]. intros [].
    - follow_ret. }
  intros key.
  eapply triple_bind; [apply Hq; reflexivity|]. intros enabled.
  eapply triple_bind with (Q := fun _ => at_ PAggregating).
  { destruct enabled.
    - eapply triple_bind; [apply Hq; reflexivity|]. intros m. follow_ret.
    - follow_ret. }
  intros portfolio_dict'.
  eapply triple_bind; [apply Hq; reflexivity|]. intros ind.
  eapply triple_bind; [apply Hq; reflexivity|]. intros indicator_df.
  eapply triple_bind; [apply Hq; reflexivity|]. intros indicator_obj.
  follow_ret.
Qed.

Lemma aggregate_follows (all_executors : list (Node D)) acc :
  triple ok_ (at_ PAggregating) (aggregate Freq_parse all_executors acc)
    (fun _ => at_ PAggregating).
Proof.
  revert acc. induction all_executors as [|executor rest IH]; intros acc; cbn [aggregate].
  - follow_ret.
  - eapply triple_bind; [apply aggregate_one_follows|]. intros acc'. apply IH.
Qed.

Lemma collect_data_loop_follows :
  triple ok_ (at_ PStart) (collect_data_loop Freq_parse start_time end_time return_value)
    (fun _ => at_ (final_state return_value)).
Proof.
  unfold collect_data_loop.
  follow_call. follow_call. follow_call. follow_call. follow_call.
  eapply triple_bind.
  { apply (triple_iter (fun res => at_ (PHead res))) with (Q := fun _ => at_ PExit).
    intros res. eapply triple_conseq; [| |apply loop_body_follows]; auto.
    intros [res'|[]] st H; exact H. }
  intros u.
  follow_call. follow_call.
  assert (E : return_value = None \/ exists rv, return_value = Some rv)
    by (destruct return_value; eauto).
  unfold final_state.
  set (at' := follows env start_time end_time return_value).
  set (ok' := follows_protocol env start_time end_time return_value).
  destruct E as [E|[rv E]]; rewrite E; subst at' ok'.
  - follow_ret.
  - eapply triple_bind.
    { apply call_follows with (next := fun _ => PAggregating).
      intros rep. constructor. congruence. }
    intros all_executors.
    eapply triple_bind; [apply aggregate_follows|]. intros acc.
    apply py_follows.
Qed.

End Follows.

(** ** Traces that follow the protocol *)

Section ProtocolFacts.

Context {D : Domain}.
Variables (start_time end_time : Time D) (return_value : option Ref).

#[local] Abbreviation step_ := (step start_time end_time return_value).
#[local] Abbreviation reach_ := (reach start_time end_time return_value).
#[local] Abbreviation run_ := (run start_time end_time return_value).

Lemma run_app q l1 l2 q' :
  run_ q (l1 ++ l2) q' <-> exists qm, run_ q l1 qm /\ run_ qm l2 q'.
Proof.
  revert q. induction l1 as [|e l1 IH]; intros q; cbn.
  - split.
    + intros H. exists q. split; [constructor|exact H].
    + intros (qm & H1 & H2). inversion H1; subst. exact H2.
  - split.
    + intros H. inversion H; subst.
      apply IH in H5. destruct H5 as (qm & Ha & Hb).
      exists qm. split; [econstructor; eassumption|exact Hb].
    + intros (qm & H1 & H2). inversion H1; subst.
      econstructor; [eassumption|]. apply IH. eauto.
Qed.

Lemma reach_run l q : reach_ l q <-> run_ PStart l q.
Proof.
  split.
  - induction 1 as [|l q e q' _ IH Hs]; [constructor|].
    apply run_app. exists q. split; [exact IH|].
    econstructor; [exact Hs|constructor].
  - intros H. remember PStart as q0 eqn:E.
    assert (G : forall l0, reach_ l0 q0 -> reach_ (l0 ++ l) q).
    { clear E. induction H as [q|q e q1 l q' Hs _ IH]; intros l0 H0.
      - now rewrite app_nil_r.
      - change (e :: l) with ([e] ++ l). rewrite app_assoc.
        apply IH. econstructor; eassumption. }
    subst q0. apply (G []). constructor.
Qed.

(** A trace that follows the protocol, cut at one of its events. *)
Lemma reach_split l1 e l2 q :
  reach_ (l1 ++ e :: l2) q ->
  exists q1 q2, reach_ l1 q1 /\ step_ q1 e q2 /\ run_ q2 l2 q.
Proof.
  intros H. apply reach_run in H. apply run_app in H.
  destruct H as (q1 & H1 & H2). inversion H2; subst.
  exists q1. eexists. split; [now apply reach_run|]. split; eassumption.
Qed.

Lemma reach_last l q :
  reach_ l q -> q <> PStart ->
  exists l0 q0 e, l = l0 ++ [e] /\ reach_ l0 q0 /\ step_ q0 e q.
Proof.
  intros H. destruct H as [|l q e q' H Hs]; intros Hq; [congruence|].
  exists l, q, e. auto.
Qed.

Lemma nothing_after_halt l q : run_ PHalt l q -> l = [].
Proof.
  intros H. inversion H; subst; [reflexivity|].
  match goal with Hs : step_ PHalt _ _ |- _ => inversion Hs end.
Qed.

Ltac on_ok_cases :=
  repeat match goal with
  | H : on_ok ?r _ = _ |- _ =>
      destruct r; cbn in H; try discriminate H
  | H : _ = on_ok ?r _ |- _ =>
      destruct r; cbn in H; try discriminate H
  | H : (if ?b then _ else _) = _ |- _ =>
      destruct b; try discriminate H
  | H : _ = (if ?b then _ else _) |- _ =>
      destruct b; try discriminate H
  | H : match ?a with Send _ => _ | Abandon => _ end = _ |- _ =>
      destruct a; try discriminate H
  | H : _ = match ?a with Send _ => _ | Abandon => _ end |- _ =>
      destruct a; try discriminate H
  | H : match ?y with Yielded _ => _ | Done _ => _ end = _ |- _ =>
      destruct y; try discriminate H
  | H : _ = match ?y with Yielded _ => _ | Done _ => _ end |- _ =>
      destruct y; try discriminate H
  end.

Ltac step_inv H :=
  inversion H; subst; clear H; on_ok_cases;
  repeat match goal with
  | E : @eq PState _ _ |- _ => inversion E; subst; clear E
  end.

(** What leads into a state, and what leaves it. *)
Lemma into_PGo q e res :
  step_ q e (PGo res) -> q = PHead res /\ e = EvFinished (Ok false).
Proof. intros H. step_inv H. auto. Qed.

Lemma into_PExit q e :
  step_ q e PExit -> exists res, q = PHead res /\ e = EvFinished (Ok true).
Proof. intros H. step_inv H. eauto. Qed.

Lemma into_PStepDone q e res :
  step_ q e (PStepDone res) ->
  exists g sent, q = PInner g sent /\ e = EvGenResume g sent (Ok (Done res)).
Proof. intros H. step_inv H. eauto. Qed.

Lemma into_PInfra q e i :
  step_ q e (PInfra i) -> q = PReset /\ e = EvGetLevelInfra (Ok i).
Proof. intros H. step_inv H. auto. Qed.

Lemma into_PReset q e :
  step_ q e PReset -> q = PStart /\ e = EvExecutorReset start_time end_time (Ok tt).
Proof. intros H. step_inv H. destruct x. auto. Qed.

Lemma at_generate q res rep q' :
  step_ q (EvGenerateTradeDecision res rep) q' ->
  q = PGo res /\ q' = on_ok rep PDecided.
Proof. intros H. step_inv H; auto; discriminate. Qed.

Lemma at_finished q rep q' :
  step_ q (EvFinished rep) q' ->
  exists res, q = PHead res /\
              q' = on_ok rep (fun fin : bool => if fin then PExit else PGo res).
Proof. intros H. step_inv H; eauto; discriminate. Qed.

Lemma at_post_exe_step q res rep q' :
  step_ q (EvPostExeStep res rep) q' ->
  q = PStepDone res /\ q' = on_ok rep (fun _ => PPosted res).
Proof. intros H. step_inv H; auto; discriminate. Qed.

Lemma at_post_upper q rep q' :
  step_ q (EvPostUpperLevelExeStep rep) q' ->
  q = PExit /\ q' = on_ok rep (fun _ => PHooked).
Proof. intros H. step_inv H; auto; discriminate. Qed.

Lemma at_strategy_reset q i rep q' :
  step_ q (EvStrategyReset i rep) q' ->
  q = PInfra i /\ q' = on_ok rep (fun _ => PStrategyReset).
Proof. intros H. step_inv H; auto; discriminate. Qed.

Lemma at_executor_reset q s e rep q' :
  step_ q (EvExecutorReset s e rep) q' ->
  q = PStart /\ s = start_time /\ e = end_time /\ q' = on_ok rep (fun _ => PReset).
Proof. intros H. step_inv H; auto; discriminate. Qed.

Lemma at_get_all_executors q rep q' :
  step_ q (EvGetAllExecutors rep) q' ->
  q = PClosed /\ return_value <> None /\ q' = on_ok rep (fun _ => PAggregating).
Proof. intros H. step_inv H; auto; discriminate. Qed.

Lemma from_PStart e q' :
  step_ PStart e q' -> exists rep, e = EvExecutorReset start_time end_time rep.
Proof. intros H. inversion H; subst. eauto. Qed.

Lemma from_PHead res e q' :
  step_ (PHead res) e q' -> exists rep, e = EvFinished rep.
Proof. intros H. inversion H; subst. eauto. Qed.

Lemma from_PGo res e q' :
  step_ (PGo res) e q' -> exists rep, e = EvGenerateTradeDecision res rep.
Proof. intros H. inversion H; subst. eauto. Qed.

Lemma from_PExit e q' :
  step_ PExit e q' -> exists rep, e = EvPostUpperLevelExeStep rep.
Proof. intros H. inversion H; subst. eauto. Qed.

Lemma from_PStepDone res e q' :
  step_ (PStepDone res) e q' -> exists rep, e = EvPostExeStep res rep.
Proof. intros H. inversion H; subst. eauto. Qed.

(** *** Phases: setup, the while, what follows it *)

Lemma count_zero_Forall (p : Event -> bool) l :
  count p l = O <-> Forall (fun e => p e = false) l.
Proof.
  unfold count. induction l as [|e l IH]; cbn.
  - split; auto.
  - destruct (p e) eqn:E; cbn.
    + split; [discriminate|]. intros H. inversion H; subst. congruence.
    + rewrite IH. split; [now constructor|]. intros H. now inversion H.
Qed.

Lemma count_app (p : Event -> bool) l1 l2 :
  count p (l1 ++ l2) = (count p l1 + count p l2)%nat.
Proof. unfold count. now rewrite filter_app, length_app. Qed.

Lemma exited_step q e q' :
  step_ q e q' -> exited q = true ->
  exited q' = true /\ loop_event e = false /\ setup_event e = false.
Proof.
  intros H Hq. inversion H; subst; cbn in Hq; try discriminate;
    repeat match goal with r : reply _ |- _ => destruct r end; cbn; auto.
  destruct ok; destruct e; cbn in *; try discriminate; auto.
Qed.

Lemma exited_run q l q' :
  run_ q l q' -> exited q = true ->
  exited q' = true /\ Forall (fun e => loop_event e = false) l
  /\ Forall (fun e => setup_event e = false) l.
Proof.
  induction 1 as [q|q e q1 l q' Hs _ IH]; intros Hq; [auto|].
  destruct (exited_step Hs Hq) as (H1 & H2 & H3).
  destruct (IH H1) as (Ha & Hb & Hc). auto.
Qed.

Lemma past_setup_step q e q' :
  step_ q e q' -> in_setup q = false ->
  in_setup q' = false /\ setup_event e = false.
Proof.
  intros H Hq. inversion H; subst; cbn in Hq; try discriminate;
    repeat match goal with
           | r : reply _ |- _ => destruct r
           | b : bool |- _ => destruct b
           | y : Resumed |- _ => destruct y
           | a : Drive |- _ => destruct a
           end; cbn; auto;
    destruct e; cbn in *; try discriminate; auto.
Qed.

Lemma past_setup_run q l q' :
  run_ q l q' -> in_setup q = false ->
  in_setup q' = false /\ Forall (fun e => setup_event e = false) l.
Proof.
  induction 1 as [q|q e q1 l q' Hs _ IH]; intros Hq; [auto|].
  destruct (past_setup_step Hs Hq) as (H1 & H2).
  destruct (IH H1) as (Ha & Hb). auto.
Qed.

Lemma reach_PStart l : reach_ l PStart -> l = [].
Proof.
  intros H. inversion H; subst; [reflexivity|].
  match goal with Hs : step_ _ _ PStart |- _ => step_inv Hs end.
Qed.

Lemma reach_PReset l :
  reach_ l PReset -> l = [EvExecutorReset start_time end_time (Ok tt)].
Proof.
  intros H. apply reach_last in H; [|discriminate].
  destruct H as (l0 & q0 & e & -> & H0 & Hs).
  apply into_PReset in Hs. destruct Hs as [-> ->].
  apply reach_PStart in H0. now subst.
Qed.

Lemma reach_PInfra l i :
  reach_ l (PInfra i) ->
  l = [EvExecutorReset start_time end_time (Ok tt); EvGetLevelInfra (Ok i)].
Proof.
  intros H. apply reach_last in H; [|discriminate].
  destruct H as (l0 & q0 & e & -> & H0 & Hs).
  apply into_PInfra in Hs. destruct Hs as [-> ->].
  apply reach_PReset in H0. now subst.
Qed.

Lemma reach_PLen l n :
  reach_ l (PLen n) ->
  exists i, l = [EvExecutorReset start_time end_time (Ok tt); EvGetLevelInfra (Ok i);
                 EvStrategyReset i (Ok tt); EvGetTradeLen (Ok n)].
Proof.
  intros H. apply reach_last in H; [|discriminate].
  destruct H as (l0 & q0 & e & -> & H0 & Hs).
  step_inv Hs.
  apply reach_last in H0; [|discriminate].
  destruct H0 as (l1 & q1 & e1 & -> & H1 & Hs).
  step_inv Hs. destruct x.
  apply reach_PInfra in H1. subst. exists i. reflexivity.
Qed.

Lemma setup_prefix l q :
  reach_ l q -> in_setup q = false -> q <> PHalt ->
  exists i n l', l = setup_trace start_time end_time i n ++ l' /\ run_ (PHead None) l' q.
Proof.
  induction 1 as [|l q e q' H IH Hs]; intros Hq Hh; [discriminate|].
  destruct (in_setup q) eqn:Eq.
  - assert (exists n, q = PLen n /\ e = EvTqdmOpen n (Ok tt) /\ q' = PHead None)
      as (n & -> & -> & ->).
    { inversion Hs; subst; cbn in Eq; try discriminate;
        destruct r; cbn in *; try discriminate; try congruence.
      destruct x. eauto. }
    apply reach_PLen in H. destruct H as (i & ->).
    exists i, n, []. split; [reflexivity|constructor].
  - assert (Hq0 : q <> PHalt) by (intros ->; inversion Hs).
    destruct (IH eq_refl Hq0) as (i & n & l' & -> & Hr).
    exists i, n, (l' ++ [e]). split; [now rewrite app_assoc|].
    apply run_app. exists q. split; [exact Hr|].
    econstructor; [exact Hs|constructor].
Qed.

(** *** Around the test of the while *)

Lemma count_zero_weaken (p p' : Event -> bool) l :
  (forall e, p e = true -> p' e = true) ->
  Forall (fun e => p' e = false) l -> count p l = O.
Proof.
  intros Hp H. apply count_zero_Forall.
  eapply Forall_impl; [|exact H]. cbn. intros e He.
  destruct (p e) eqn:E; [|reflexivity]. apply Hp in E. congruence.
Qed.

Lemma count_zero_not_In (p : Event -> bool) l e :
  count p l = O -> In e l -> p e = false.
Proof.
  intros H Hin. apply count_zero_Forall in H.
  rewrite Forall_forall in H. auto.
Qed.

Lemma request_after_finished_false l1 res rep l2 q :
  reach_ (l1 ++ EvGenerateTradeDecision res rep :: l2) q ->
  exists l0, l1 = l0 ++ [EvFinished (Ok false)].
Proof.
  intros H. apply reach_split in H. destruct H as (q1 & q2 & H1 & Hs & _).
  apply at_generate in Hs. destruct Hs as [-> _].
  apply reach_last in H1; [|discriminate].
  destruct H1 as (l0 & q0 & e & -> & _ & Hs).
  apply into_PGo in Hs. destruct Hs as [_ ->]. eauto.
Qed.

Lemma next_after_finished l1 rep e' l2 q :
  reach_ (l1 ++ EvFinished rep :: e' :: l2) q ->
  (rep = Ok true /\ exists r, e' = EvPostUpperLevelExeStep r) \/
  (rep = Ok false /\ exists res r, e' = EvGenerateTradeDecision res r).
Proof.
  intros H. apply reach_split in H. destruct H as (q1 & q2 & _ & Hs & Hr).
  apply at_finished in Hs. destruct Hs as (res & -> & ->).
  inversion Hr as [|? ? q3 ? ? Hs' _]; subst.
  destruct rep as [[|]| |]; cbn in Hs'.
  - left. split; [reflexivity|]. eapply from_PExit; eassumption.
  - right. split; [reflexivity|]. exists res. eapply from_PGo; eassumption.
  - inversion Hs'.
  - inversion Hs'.
Qed.

Lemma hook_after_finished_true l1 rep l2 q :
  reach_ (l1 ++ EvPostUpperLevelExeStep rep :: l2) q ->
  exists l0, l1 = l0 ++ [EvFinished (Ok true)].
Proof.
  intros H. apply reach_split in H. destruct H as (q1 & q2 & H1 & Hs & _).
  apply at_post_upper in Hs. destruct Hs as [-> _].
  apply reach_last in H1; [|discriminate].
  destruct H1 as (l0 & q0 & e & -> & _ & Hs).
  apply into_PExit in Hs. destruct Hs as (res & _ & ->). eauto.
Qed.

Lemma after_finished_true l1 l2 q :
  reach_ (l1 ++ EvFinished (Ok true) :: l2) q ->
  Forall (fun e => loop_event e = false) l2.
Proof.
  intros H. apply reach_split in H. destruct H as (q1 & q2 & _ & Hs & Hr).
  apply at_finished in Hs. destruct Hs as (res & -> & ->). cbn in Hr.
  now apply exited_run in Hr.
Qed.

Lemma no_request_before_first_check l q :
  reach_ l q ->
  forall l1 e l2, l = l1 ++ e :: l2 -> count is_finished l1 = O ->
  is_decision_request e = false.
Proof.
  intros H l1 e l2 -> Hc.
  destruct e; try reflexivity.
  apply request_after_finished_false in H. destruct H as (l0 & ->).
  rewrite count_app in Hc. cbn in Hc. lia.
Qed.

(** *** Decisions and results *)

Lemma run_expects q l q' : run_ q l q' -> expects q (strategy_steps l).
Proof.
  induction 1 as [q|q e q1 l q' Hs _ IH].
  - destruct q; cbn; auto using alternates_nil.
  - unfold strategy_steps in *. inversion Hs; subst;
      repeat match goal with
             | r : reply _ |- _ => destruct r
             | b : bool |- _ => destruct b
             | y : Resumed |- _ => destruct y
             | a : Drive |- _ => destruct a
             end;
      cbn in IH |- *; try exact IH;
      try (rewrite IH; auto using alternates_nil, alternates_requested; fail).
    + destruct IH as [->|(res' & rep & rest & -> & Ha)];
        [apply alternates_requested|now apply alternates_step].
    + destruct IH as [IH|(rep & rest & E & Ha)]; [now left|right; eauto 6].
    + right. do 2 eexists. split; [reflexivity|exact IH].
    + right. rewrite IH. eauto using alternates_nil.
    + right. rewrite IH. eauto using alternates_nil.
    + destruct e; cbn in *; try discriminate; exact IH.
    + destruct e; cbn in *; try discriminate; exact IH.
Qed.

Lemma alternates_counts res sl :
  alternates res sl ->
  (count is_post_exe_step sl <= count is_decision_request sl
   <= count is_post_exe_step sl + 1)%nat.
Proof.
  induction 1; cbn in *; unfold count in *; cbn; lia.
Qed.

Lemma count_strategy_steps (p : Event -> bool) l :
  (forall e, p e = true -> is_decision_request e || is_post_exe_step e = true) ->
  count p (strategy_steps l) = count p l.
Proof.
  intros Hp. unfold count, strategy_steps.
  induction l as [|e l IH]; cbn; [reflexivity|].
  destruct (is_decision_request e || is_post_exe_step e) eqn:E; cbn.
  - destruct (p e); cbn; now rewrite IH.
  - destruct (p e) eqn:Ep; [apply Hp in Ep; congruence|exact IH].
Qed.

Lemma run_balanced q l q' :
  run_ q l q' -> left_alive q' = true ->
  (count is_post_exe_step l = count is_decision_request l + owed q)%nat.
Proof.
  induction 1 as [q|q e q1 l q' Hs Hr IH]; intros Hq'.
  - destruct q; cbn in *; try discriminate; reflexivity.
  - specialize (IH Hq'). unfold count in *.
    inversion Hs; subst;
      repeat match goal with
             | r : reply _ |- _ => destruct r
             | b : bool |- _ => destruct b
             | y : Resumed |- _ => destruct y
             | a : Drive |- _ => destruct a
             end;
      cbn in IH, Hr |- *;
      try (apply nothing_after_halt in Hr; subst;
           inversion Hr; subst; discriminate);
      try lia;
      try (inversion Hr; subst; try discriminate;
           match goal with Hh : step_ PHalt _ _ |- _ => inversion Hh end).
    destruct e; cbn in *; try discriminate; lia.
Qed.

Lemma delivery_after_done l1 res rep l2 q :
  reach_ (l1 ++ EvPostExeStep res rep :: l2) q ->
  exists l0 g sent, l1 = l0 ++ [EvGenResume g sent (Ok (Done res))].
Proof.
  intros H. apply reach_split in H. destruct H as (q1 & q2 & H1 & Hs & _).
  apply at_post_exe_step in Hs. destruct Hs as [-> _].
  apply reach_last in H1; [|discriminate].
  destruct H1 as (l0 & q0 & e & -> & _ & Hs).
  apply into_PStepDone in Hs. destruct Hs as (g & sent & _ & ->). eauto.
Qed.

Lemma done_then_delivery l1 g sent res e' l2 q :
  reach_ (l1 ++ EvGenResume g sent (Ok (Done res)) :: e' :: l2) q ->
  exists rep, e' = EvPostExeStep res rep.
Proof.
  intros H. apply reach_split in H. destruct H as (q1 & q2 & _ & Hs & Hr).
  inversion Hs; subst; [|discriminate]. cbn in Hr.
  inversion Hr; subst. eapply from_PStepDone; eassumption.
Qed.

Lemma decision_then_submitted l1 res d e' l2 q :
  reach_ (l1 ++ EvGenerateTradeDecision res (Ok d) :: e' :: l2) q ->
  exists rep, e' = EvCollectData d 0 rep.
Proof.
  intros H. apply reach_split in H. destruct H as (q1 & q2 & _ & Hs & Hr).
  apply at_generate in Hs. destruct Hs as [-> ->]. cbn in Hr.
  inversion Hr as [|? ? ? ? ? Hs' _]; subst. inversion Hs'; subst. eauto.
Qed.

(** *** The resets *)

Lemma first_event e l q :
  reach_ (e :: l) q -> exists rep, e = EvExecutorReset start_time end_time rep.
Proof.
  intros H. apply reach_run in H. inversion H; subst.
  eapply from_PStart; eassumption.
Qed.

Lemma executor_reset_first l1 s e rep l2 q :
  reach_ (l1 ++ EvExecutorReset s e rep :: l2) q ->
  l1 = [] /\ s = start_time /\ e = end_time.
Proof.
  intros H. apply reach_split in H. destruct H as (q1 & q2 & H1 & Hs & _).
  apply at_executor_reset in Hs. destruct Hs as (-> & -> & -> & _).
  apply reach_PStart in H1. auto.
Qed.

Lemma strategy_reset_third l1 i rep l2 q :
  reach_ (l1 ++ EvStrategyReset i rep :: l2) q ->
  l1 = [EvExecutorReset start_time end_time (Ok tt); EvGetLevelInfra (Ok i)].
Proof.
  intros H. apply reach_split in H. destruct H as (q1 & q2 & H1 & Hs & _).
  apply at_strategy_reset in Hs. destruct Hs as (-> & _).
  now apply reach_PInfra.
Qed.

(** An event that can only be at one position occurs at most once. *)
Lemma count_fixed_position (p : Event -> bool) l k :
  (forall l1 e l2, l = l1 ++ e :: l2 -> p e = true -> List.length l1 = k) ->
  (count p l <= 1)%nat.
Proof.
  revert k. induction l as [|x l IH]; intros k H; [cbn; lia|].
  unfold count in *. cbn. destruct (p x) eqn:Ex.
  - pose proof (H [] x l eq_refl Ex) as Hk. cbn in Hk. subst k.
    assert (Hz : count p l = O); [|unfold count in Hz; cbn; lia].
    apply count_zero_Forall, Forall_forall. intros e Hin.
    destruct (p e) eqn:Ee; [|reflexivity].
    apply in_split in Hin. destruct Hin as (a & b & ->).
    specialize (H (x :: a) e b eq_refl Ee). discriminate.
  - apply (IH (Nat.pred k)). intros l1 e l2 -> He.
    specialize (H (x :: l1) e l2 eq_refl He). cbn in H. lia.
Qed.

(** *** The post-level hook *)

(** An event after which no event of its class follows occurs at most
    once. *)
Lemma count_none_after (p : Event -> bool) l :
  (forall l1 e l2, l = l1 ++ e :: l2 -> p e = true -> count p l2 = O) ->
  (count p l <= 1)%nat.
Proof.
  induction l as [|x l IH]; intros H; [cbn; lia|].
  unfold count in *. cbn. destruct (p x) eqn:Ex.
  - specialize (H [] x l eq_refl Ex). cbn. lia.
  - apply IH. intros l1 e l2 -> He. exact (H (x :: l1) e l2 eq_refl He).
Qed.

Lemma past_hook_run q l q' :
  run_ q l q' -> past_hook q = true ->
  past_hook q' = true /\ Forall (fun e => is_post_upper e = false) l.
Proof.
  induction 1 as [q|q e q1 l q' Hs _ IH]; intros Hq; [auto|].
  assert (past_hook q1 = true /\ is_post_upper e = false) as [H1 H2].
  { inversion Hs; subst; cbn in Hq; try discriminate;
      repeat match goal with r : reply _ |- _ => destruct r end; cbn; auto.
    destruct ok; destruct e; cbn in *; try discriminate; auto. }
  destruct (IH H1). auto.
Qed.

Lemma no_hook_after_hook l1 rep l2 q :
  reach_ (l1 ++ EvPostUpperLevelExeStep rep :: l2) q ->
  count is_post_upper l2 = O /\ Forall (fun e => loop_event e = false) l2.
Proof.
  intros H. apply reach_split in H. destruct H as (q1 & q2 & _ & Hs & Hr).
  apply at_post_upper in Hs. destruct Hs as [-> ->].
  split.
  - apply past_hook_run in Hr; [|now destruct rep].
    now apply count_zero_Forall.
  - apply exited_run in Hr; [tauto|now destruct rep].
Qed.

Lemma hook_was_called l q :
  reach_ l q -> past_hook q = true -> q <> PHalt ->
  exists l1 l2, l = l1 ++ EvPostUpperLevelExeStep (Ok tt) :: l2.
Proof.
  induction 1 as [|l q e q' H IH Hs]; intros Hq Hh; [discriminate|].
  destruct (past_hook q) eqn:Eq.
  - assert (Hq0 : q <> PHalt) by (intros ->; inversion Hs).
    destruct (IH eq_refl Hq0) as (l1 & l2 & ->).
    exists l1, (l2 ++ [e]). now rewrite <- app_assoc.
  - inversion Hs; subst; cbn in Eq; try discriminate;
      repeat match goal with
             | r : reply _ |- _ => destruct r
             | b : bool |- _ => destruct b
             | y : Resumed |- _ => destruct y
             | a : Drive |- _ => destruct a
             | u : unit |- _ => destruct u
             end; cbn in Hq, Hh; try discriminate; try congruence.
    exists l, []. reflexivity.
Qed.

(** *** The aggregation *)

Lemma reach_PClosed l :
  reach_ l PClosed -> exists l0, l = l0 ++ [EvTqdmClose (Ok tt)].
Proof.
  intros H. apply reach_last in H; [|discriminate].
  destruct H as (l0 & q0 & e & -> & _ & Hs).
  step_inv Hs. destruct x. eauto.
Qed.

Lemma reach_PAggregating l :
  reach_ l PAggregating ->
  return_value <> None /\
  exists l0 nodes l', l = l0 ++ EvTqdmClose (Ok tt) :: EvGetAllExecutors (Ok nodes) :: l'.
Proof.
  intros H. remember PAggregating as q eqn:E. revert E.
  induction H as [|l q e q' H IH Hs]; intros E; [discriminate|]. subst q'.
  inversion Hs; subst;
    repeat match goal with
           | r : reply _ |- _ => destruct r
           | b : bool |- _ => destruct b
           | y : Resumed |- _ => destruct y
           | a : Drive |- _ => destruct a
           end; try discriminate.
  - apply reach_PClosed in H. destruct H as (l0 & ->).
    split; [assumption|]. exists l0, x, []. now rewrite <- app_assoc.
  - destruct (IH eq_refl) as (Hrv & l0 & nodes & l' & ->).
    split; [assumption|]. exists l0, nodes, (l' ++ [e]).
    rewrite <- app_assoc. reflexivity.
Qed.

Lemma aggregation_needs_capture l1 e l2 q :
  reach_ (l1 ++ e :: l2) q ->
  is_get_all_executors e = true \/ is_account_query e = true ->
  return_value <> None /\ exists l0 l0', l1 = l0 ++ EvTqdmClose (Ok tt) :: l0'.
Proof.
  intros H He. apply reach_split in H. destruct H as (q1 & q2 & H1 & Hs & _).
  destruct He as [He|He].
  - destruct e; try discriminate.
    apply at_get_all_executors in Hs. destruct Hs as (-> & Hrv & _).
    apply reach_PClosed in H1. destruct H1 as (l0 & ->).
    split; [assumption|]. exists l0, []. reflexivity.
  - assert (q1 = PAggregating) as ->.
    { unfold is_account_query in He.
      inversion Hs; subst; cbn in He; try discriminate. reflexivity. }
    apply reach_PAggregating in H1. destruct H1 as (Hrv & l0 & nodes & l' & ->).
    split; [assumption|]. eauto.
Qed.

End ProtocolFacts.

(** * The loop *)

Section Loop.

Context {D : Domain} (env : Env (D:=D)).
Variable Freq_parse : string -> Exn D + (Z * string).
Variables (start_time end_time : Time D) (return_value : option Ref).

#[local] Abbreviation run_loop_ :=
  (run_loop env Freq_parse start_time end_time return_value).

(** Every run follows the protocol, and a run that returns has gone
    through all of it. *)
Lemma run_loop_follows n w h :
  (exists q, reach start_time end_time return_value (log (snd (run_loop_ n w h))) q) /\
  (forall r m, fst (run_loop_ n w h) = Returned r m ->
     reach start_time end_time return_value (log (snd (run_loop_ n w h)))
           (final_state return_value)).
Proof.
  pose proof (@collect_data_loop_follows D env Freq_parse start_time end_time
                return_value n (initial env w h)) as H.
  unfold run_loop.
  destruct (exec n _ (initial env w h)) as [[r m|ex| |] st'] eqn:E; cbn;
    specialize (H (reach_nil _ _ _)); cbn in H.
  - split; [eexists; exact H|]. intros; exact H.
  - split; [exact H|discriminate].
  - split; [exact H|discriminate].
  - split; [exact H|discriminate].
Qed.



(** C4. A run that has begun starts with the reset of the executor on
    [start_time] and [end_time], and the executor is not reset again; the
    strategy is reset at most once, and when it is, exactly the reset of
    the executor and the reading of its level infrastructure came before,
    both having returned, and the strategy is reset with the value read;
    every decision request comes after the three; a run that returns has
    reset the strategy once. *)
Theorem resets_once_in_order n w h :
  let tr := log (snd (run_loop_ (S n) w h)) in
  (exists rep rest,
      tr = EvExecutorReset start_time end_time rep :: rest /\
      count is_executor_reset rest = O) /\
  (count is_strategy_reset tr <= 1)%nat /\
  (forall l1 i rep l2,
      tr = l1 ++ EvStrategyReset i rep :: l2 ->
      l1 = [EvExecutorReset start_time end_time (Ok tt); EvGetLevelInfra (Ok i)]) /\
  (forall l1 res rep l2,
      tr = l1 ++ EvGenerateTradeDecision res rep :: l2 ->
      exists i l', l1 = EvExecutorReset start_time end_time (Ok tt)
                        :: EvGetLevelInfra (Ok i)
                        :: EvStrategyReset i (Ok tt) :: l') /\
  (forall r m, fst (run_loop_ (S n) w h) = Returned r m ->
      count is_strategy_reset tr = 1%nat).
Proof.
  intros tr. destruct (run_loop_follows (S n) w h) as [[q Hq] Hret].
  fold tr in Hq, Hret.
  split; [|split; [|split; [|split]]].
  - assert (E : exists e rest, tr = e :: rest).
    { subst tr. unfold run_loop, collect_data_loop. rewrite exec_call_bind.
      cbn [world initial].
      destruct (call env (ExecutorReset start_time end_time) w) as [[x|ex|] w1];
        cbn [log snd]; try (do 2 eexists; reflexivity).
      match goal with
      | |- context [exec n ?t ?st] =>
          destruct (exec_log_extends t n st) as (l & ->)
      end.
      cbn. eauto. }
    destruct E as (e & rest & E). rewrite E in Hq.
    destruct (first_event Hq) as (rep & ->).
    exists rep, rest. split; [exact E|].
    apply count_zero_Forall, Forall_forall. intros e Hin.
    destruct e; try reflexivity.
    apply in_split in Hin. destruct Hin as (a & b & ->).
    change (reach start_time end_time return_value
              ((EvExecutorReset start_time end_time rep :: a)
               ++ EvExecutorReset start_time0 end_time0 r :: b) q) in Hq.
    apply executor_reset_first in Hq. destruct Hq as [Hq _]. discriminate.
  - apply count_fixed_position with (k := 2%nat).
    intros l1 e l2 E He. destruct e; try discriminate.
    rewrite E in Hq. apply strategy_reset_third in Hq. now subst.
  - intros l1 i rep l2 E. rewrite E in Hq.
    eapply strategy_reset_third; eassumption.
  - intros l1 res rep l2 E. rewrite E in Hq.
    apply reach_split in Hq. destruct Hq as (q1 & q2 & H1 & Hs & _).
    apply at_generate in Hs. destruct Hs as [-> _].
    apply setup_prefix in H1; [|reflexivity|discriminate].
    destruct H1 as (i & k & l' & -> & _). cbn. eauto.
  - intros r m E. specialize (Hret r m E).
    apply setup_prefix in Hret;
      [|unfold final_state; now destruct return_value
       |unfold final_state; now destruct return_value].
    destruct Hret as (i & k & l' & E' & Hr). rewrite E'.
    apply past_setup_run in Hr; [|reflexivity]. destruct Hr as [_ Hr].
    rewrite count_app.
    rewrite (@count_zero_weaken _ is_strategy_reset setup_event l'); [reflexivity| |exact Hr].
    now intros [].
Qed.

Lemma hook_at_most_once n w h :
  (count is_post_upper (log (snd (run_loop_ n w h))) <= 1)%nat.
Proof.
  destruct (run_loop_follows n w h) as [[q Hq] _].
  apply count_none_after. intros l1 e l2 E He.
  destruct e; try discriminate. rewrite E in Hq.
  now apply no_hook_after_hook in Hq.
Qed.

Ltac not_replied :=
  let Hall := fresh "Hall" in
  intros Hall; exfalso; cbn in Hall;
  repeat match goal with
         | H : Forall _ (_ :: _) |- _ => inversion H; subst; clear H
         end;
  discriminate.

(** A run in which every call returns and no decision is requested goes
    through the post-level hook once, and returns when there is nothing
    to aggregate. *)
Lemma zero_decision_run n w h :
  (9 <= n)%nat ->
  Forall (fun e => replied e = true) (log (snd (run_loop_ n w h))) ->
  count is_decision_request (log (snd (run_loop_ n w h))) = O ->
  count is_post_upper (log (snd (run_loop_ n w h))) = 1%nat /\
  (return_value = None -> exists m, fst (run_loop_ n w h) = Returned tt m).
Proof.
  intros Hn. do 9 (destruct n as [|n]; [lia|]). clear Hn.
  pose proof (hook_at_most_once (S (S (S (S (S (S (S (S (S n))))))))) w h) as Hle.
  revert Hle.
  unfold run_loop, collect_data_loop.
  rewrite exec_call_bind; cbn [world heap log initial].
  destruct (call env _ _) as [[x1|ex|] w1]; [|intros _; not_replied..].
  rewrite exec_call_bind; cbn [world heap log initial].
  destruct (call env _ _) as [[x2|ex|] w2]; [|intros _; not_replied..].
  rewrite exec_call_bind; cbn [world heap log initial].
  destruct (call env _ _) as [[x3|ex|] w3]; [|intros _; not_replied..].
  rewrite exec_call_bind; cbn [world heap log initial].
  destruct (call env _ _) as [[x4|ex|] w4]; [|intros _; not_replied..].
  rewrite exec_call_bind; cbn [world heap log initial].
  destruct (call env _ _) as [[x5|ex|] w5]; [|intros _; not_replied..].
  match goal with
  | |- context [exec _ (ITree.bind (ITree.iter loop_body None) ?k) ?st] =>
      destruct (call env Finished (world st)) as [rep w6] eqn:Ec;
      pose proof (exec_first_check None (S (S n)) st Ec) as Hc;
      destruct (exec_bind_log_prefix (ITree.iter loop_body None) k
                  (S (S (S (S n)))) st) as (lk & Ek)
  end.
  cbn zeta in Hc. cbn [world heap log] in Hc. clear Ec.
  destruct rep as [[|]|ex|].
  - clear Ek lk. rewrite exec_bind, Hc. cbn [world heap log].
    rewrite exec_call_bind; cbn [world heap log].
    destruct (call env _ _) as [[x7|ex|] w7]; [|intros _; not_replied..].
    rewrite exec_call_bind; cbn [world heap log].
    destruct (call env _ _) as [[x8|ex|] w8]; [|intros _; not_replied..].
    match goal with
    | |- context [exec (S n) ?t ?st] =>
        destruct (exec_log_extends t (S n) st) as (l & El)
    end.
    intros Hle _ _. split.
    + rewrite El in Hle |- *. cbn [log] in Hle |- *.
      rewrite count_app in Hle |- *. cbn in Hle |- *. lia.
    + intros E. rewrite E, exec_ret. cbn. eauto.
  - destruct Hc as (rep' & l & Hc). rewrite Hc in Ek. rewrite Ek.
    intros _ _ Hz. exfalso. cbn [log] in Hz.
    rewrite !count_app in Hz. cbn in Hz. lia.
  - rewrite exec_bind, Hc. intros _. not_replied.
  - rewrite exec_bind, Hc. intros _. not_replied.
Qed.

(** A run that returns, taken apart: the state at the end of the [with]
    block, and what the aggregation did after it. *)
Lemma run_loop_returned n w h u m st' :
  run_loop_ n w h = (Returned u m, st') ->
  exists st_c l0,
    heap st_c = h /\ log st_c = l0 ++ [EvTqdmClose (Ok tt)] /\
    match return_value with
    | None => st' = st_c
    | Some rv =>
        exists nodes vs,
          map v_executor vs = nodes /\ Forall (parsed Freq_parse) vs /\
          log st' = log st_c ++ EvGetAllExecutors (Ok nodes)
                               :: flat_map visit_events vs /\
          heap st' =
          heap_set h rv
            (dict_update (cells h rv)
               [("portfolio_dict"%string,
                 VPort (fst (fold_left visit_apply vs ([], []))));
                ("indicator_dict"%string,
                 VInd (snd (fold_left visit_apply vs ([], []))))])
    end.
Proof.
  unfold run_loop, collect_data_loop. intros H.
  apply exec_call_returned in H. destruct H as (x1 & w1 & n1 & -> & _ & H).
  apply exec_call_returned in H. destruct H as (x2 & w2 & n2 & -> & _ & H).
  apply exec_call_returned in H. destruct H as (x3 & w3 & n3 & -> & _ & H).
  apply exec_call_returned in H. destruct H as (x4 & w4 & n4 & -> & _ & H).
  apply exec_call_returned in H. destruct H as (x5 & w5 & n5 & -> & _ & H).
  apply exec_bind_returned in H. destruct H as (r1 & m1 & st1 & Hi & H).
  apply keeps_heap_returned in Hi;
    [|apply keeps_heap_iter; intros; apply loop_body_keeps_heap].
  cbn [heap initial] in Hi.
  apply exec_call_returned in H. destruct H as (x6 & w6 & n6 & -> & _ & H).
  apply exec_call_returned in H. destruct H as (x7 & w7 & n7 & -> & _ & H).
  destruct x7.
  match type of H with
  | exec _ _ ?st = _ => exists st, (log st1 ++ [event_of_call PostUpperLevelExeStep (Ok x6)])
  end.
  split; [exact Hi|]. split; [reflexivity|].
  destruct return_value as [rv|].
  - apply exec_call_returned in H. destruct H as (nodes & w8 & n8 & -> & _ & H).
    apply exec_bind_returned in H. destruct H as (acc & m2 & st2 & Ha & H).
    apply aggregate_returned in Ha. destruct Ha as (vs & Hvs & Hps & Hl & -> & Hh).
    apply exec_py_returned in H. cbn in H. injection H as _ Hst.
    exists nodes, vs. cbn [heap log] in *. rewrite <- Hst. cbn [heap log].
    rewrite Hh, Hi, Hl.
    repeat split; auto. now rewrite <- app_assoc.
  - apply exec_ret_returned in H. destruct H as (_ & _ & H). exact H.
Qed.

(** C5. In every run the post-level hook is called at most once; when
    it is called, the check of [finished()] that said yes comes right
    before it, and no event of the stepping loop (no [post_exe_step], no
    check, no decision request) comes after it. A run that returns has
    called it exactly once, and the call returned. A run in which no
    decision is requested, as for a range whose start is its end, and in
    which every call returns, calls the hook once, and returns when no
    capture was asked for. *)
Theorem post_level_hook_once n w h :
  let tr := log (snd (run_loop_ n w h)) in
  (count is_post_upper tr <= 1)%nat /\
  (forall l1 rep l2,
      tr = l1 ++ EvPostUpperLevelExeStep rep :: l2 ->
      (exists l0, l1 = l0 ++ [EvFinished (Ok true)]) /\
      count loop_event l2 = O /\ count is_post_exe_step l2 = O) /\
  (forall r m, fst (run_loop_ n w h) = Returned r m ->
      count is_post_upper tr = 1%nat /\
      exists l1 l2, tr = l1 ++ EvPostUpperLevelExeStep (Ok tt) :: l2) /\
  ((9 <= n)%nat ->
   Forall (fun e => replied e = true) tr ->
   count is_decision_request tr = O ->
   count is_post_upper tr = 1%nat /\
   (return_value = None -> exists m, fst (run_loop_ n w h) = Returned tt m)).
Proof.
  intros tr. destruct (run_loop_follows n w h) as [[q Hq] Hret].
  fold tr in Hq, Hret.
  split; [apply hook_at_most_once|]. split; [|split].
  - intros l1 rep l2 E. rewrite E in Hq. split.
    + eapply hook_after_finished_true; eassumption.
    + apply no_hook_after_hook in Hq. destruct Hq as [_ Hq]. split.
      * now apply count_zero_Forall.
      * eapply count_zero_weaken; [|exact Hq]. now intros [].
  - intros r m E. specialize (Hret r m E).
    apply hook_was_called in Hret;
      [|unfold final_state; now destruct return_value
       |unfold final_state; now destruct return_value].
    destruct Hret as (l1 & l2 & E'). split; [|eauto].
    pose proof (hook_at_most_once n w h) as Hle. fold tr in Hle.
    rewrite E' in Hle |- *.
    change (EvPostUpperLevelExeStep (Ok tt) :: l2)
      with ([EvPostUpperLevelExeStep (Ok tt)] ++ l2) in *.
    rewrite !count_app in Hle |- *. cbn in Hle |- *. lia.
  - apply zero_decision_run.
Qed.

Lemma collect_data_loop_keeps_heap :
  return_value = None ->
  keeps_heap env (collect_data_loop Freq_parse start_time end_time return_value).
Proof.
  intros E. unfold collect_data_loop. rewrite E.
  keeps_heap_tac.
Qed.

(** C6. When [return_value] is [None], no run calls
    [get_all_executors()] or queries an account, and the heap is left as it
    was. In every run, a call of [get_all_executors()] or a query of an
    account occurs only with a capture dict, and only after the [with]
    block of the loop was left. When [return_value] is a dict, a run that
    returns has called [get_all_executors()] right after leaving the loop,
    has visited the executors it returned, all of them and in that order,
    and has updated the dict with the two dicts those visits built, under
    the keys ["portfolio_dict"] and ["indicator_dict"]. *)
Theorem aggregation_iff_capture n w h :
  let r := run_loop_ n w h in
  let tr := log (snd r) in
  (return_value = None ->
     count is_get_all_executors tr = O /\ count is_account_query tr = O /\
     heap (snd r) = h) /\
  (forall l1 e l2,
      tr = l1 ++ e :: l2 ->
      is_get_all_executors e = true \/ is_account_query e = true ->
      return_value <> None /\
      exists l0 l0', l1 = l0 ++ EvTqdmClose (Ok tt) :: l0') /\
  (forall rv u m,
      return_value = Some rv -> fst r = Returned u m ->
      exists l0 nodes vs,
        tr = l0 ++ EvTqdmClose (Ok tt) :: EvGetAllExecutors (Ok nodes)
                :: flat_map visit_events vs /\
        map v_executor vs = nodes /\ Forall (parsed Freq_parse) vs /\
        let acc := fold_left visit_apply vs ([], []) in
        heap (snd r) =
        heap_set h rv
          (dict_update (cells h rv)
             [("portfolio_dict"%string, VPort (fst acc));
              ("indicator_dict"%string, VInd (snd acc))]) /\
        dict_get (cells (heap (snd r)) rv) "portfolio_dict" = Some (VPort (fst acc)) /\
        dict_get (cells (heap (snd r)) rv) "indicator_dict" = Some (VInd (snd acc))).
Proof.
  intros r tr. destruct (run_loop_follows n w h) as [[q Hq] _].
  fold r in Hq. fold tr in Hq.
  assert (Hneed : forall l1 e l2,
             tr = l1 ++ e :: l2 ->
             is_get_all_executors e = true \/ is_account_query e = true ->
             return_value <> None /\
             exists l0 l0', l1 = l0 ++ EvTqdmClose (Ok tt) :: l0').
  { intros l1 e l2 E He. rewrite E in Hq.
    eapply aggregation_needs_capture; eassumption. }
  split; [|split; [exact Hneed|]].
  - intros E. split; [|split].
    + apply count_zero_Forall, Forall_forall. intros e Hin.
      destruct (is_get_all_executors e) eqn:Ee; [|reflexivity].
      apply in_split in Hin. destruct Hin as (a & b & Eab).
      destruct (Hneed a e b Eab (or_introl Ee)) as [Hrv _]. congruence.
    + apply count_zero_Forall, Forall_forall. intros e Hin.
      destruct (is_account_query e) eqn:Ee; [|reflexivity].
      apply in_split in Hin. destruct Hin as (a & b & Eab).
      destruct (Hneed a e b Eab (or_intror Ee)) as [Hrv _]. congruence.
    + subst r. unfold run_loop.
      now rewrite (keeps_heap_always n (initial env w h)
                     (collect_data_loop_keeps_heap E)).
  - intros rv u m E Hr.
    destruct r as [o st'] eqn:Er. cbn in Hr. subst o. subst tr. cbn [snd].
    apply run_loop_returned in Er.
    destruct Er as (st_c & l0 & Hh & Hl & Hrest). rewrite E in Hrest.
    destruct Hrest as (nodes & vs & Hvs & Hps & Hl' & Hh').
    exists l0, nodes, vs. rewrite Hl', Hl, <- app_assoc. cbn [app].
    split; [reflexivity|]. split; [exact Hvs|]. split; [exact Hps|].
    cbn zeta. split; [exact Hh'|].
    rewrite Hh'. cbn [heap_set cells]. rewrite Nat.eqb_refl.
    unfold dict_update. cbn [fold_left fst snd].
    split.
    + rewrite dict_get_set_neq; [apply dict_get_set_eq|discriminate].
    + apply dict_get_set_eq.
Qed.

End Loop.

(** ** [backtest_loop] and the generator driven with nothing sent in *)

Section Unattended.

Context {D : Domain} (env : Env (D:=D)).

Lemma exec_for_pass_step {R} (t : itree loopE R) n (st : State env) :
  exec (S n) (interp for_pass t) st =
  match observe t with
  | RetF r => (Returned r (S n), st)
  | TauF t' => exec n (interp for_pass t') st
  | VisF e k =>
      match e with
      | inr1 (inl1 y) =>
          match y in (@yieldE _ X)
                return (X -> itree loopE R) -> outcome R * State env with
          | Yield d => fun k => exec n (interp for_pass (k None)) st
          end k
      | e' =>
          match handle e' st with
          | (Ok x, st') => exec n (Tau (interp for_pass (k x))) st'
          | (Raise ex, st') => (Raised ex, st')
          | (Stall, st') => (Stalled, st')
          end
      end
  end.
Proof.
  cbn [exec]. unfold interp at 1. unfold Basics.iter, MonadIter_itree.
  rewrite (observing_observe (unfold_aloop_ _ _)). rewrite observe_bind.
  destruct (observe t) as [r|t'|X e k]; cbn.
  - reflexivity.
  - reflexivity.
  - destruct e as [c|[y|p]].
    + unfold for_pass, ITree.map. rewrite observe_bind. cbn.
      destruct (handle_call c st) as [[x|ex|] st']; try reflexivity.
      apply exec_observe. rewrite !observe_bind. cbn. reflexivity.
    + destruct y. unfold for_pass, ITree.map. rewrite observe_bind. cbn. reflexivity.
    + unfold for_pass, ITree.map. rewrite observe_bind. cbn.
      destruct (handle_py p st) as [[x|ex|] st']; try reflexivity.
      apply exec_observe. rewrite !observe_bind. cbn. reflexivity.
Qed.

Lemma event_of_call_not_yield {X} (c : callE X) (r : reply X) :
  is_yield (event_of_call c r) = false.
Proof. destruct c; reflexivity. Qed.

Lemma sim_call {X} (c : callE X) (st : State env) (st0 : State (unattended env)) :
  same_but_yields st st0 ->
  exists st0', handle_call c st0 = (fst (handle_call c st), st0') /\
               same_but_yields (snd (handle_call c st)) st0'.
Proof.
  intros (Hw & Hh & Hl). unfold handle_call. cbn [call unattended].
  rewrite <- Hw. destruct (call env c (world st)) as [r w'].
  eexists. split; [reflexivity|]. repeat split; cbn [fst snd world heap log]; auto.
  rewrite filter_app, Hl. cbn. now rewrite event_of_call_not_yield.
Qed.

Lemma sim_py {X} (p : pyE X) (st : State env) (st0 : State (unattended env)) :
  same_but_yields st st0 ->
  exists st0', handle_py p st0 = (fst (handle_py p st), st0') /\
               same_but_yields (snd (handle_py p st)) st0'.
Proof.
  intros (Hw & Hh & Hl).
  destruct p; cbn; rewrite <- ?Hh; eexists; (split; [reflexivity|]);
    repeat split; cbn; auto.
Qed.

Lemma sim_yield (d : Decision D) (st : State env) (st0 : State (unattended env)) :
  same_but_yields st st0 ->
  same_but_yields st {| world := world st0; heap := heap st0;
                        log := log st0 ++ [EvYield d (Send None)] |}.
Proof.
  intros (Hw & Hh & Hl). repeat split; cbn [world heap log]; auto.
  rewrite filter_app, Hl. cbn. now rewrite app_nil_r.
Qed.

(** What [backtest_loop] does with the generator, the generator does when
    driven with nothing sent in. *)
Lemma for_pass_forward {R} n : forall (t : itree loopE R) (st : State env)
    (st0 : State (unattended env)) o st',
  same_but_yields st st0 ->
  exec n (interp for_pass t) st = (o, st') -> o <> OutOfFuel ->
  exists n0 o0 st0',
    (n0 <= n)%nat /\ exec n0 t st0 = (o0, st0') /\
    same_outcome o o0 /\ same_but_yields st' st0'.
Proof.
  induction n as [n IH] using lt_wf_ind. intros t st st0 o st' Hs.
  destruct n as [|n]; [cbn; intros H; inversion H; congruence|].
  rewrite exec_for_pass_step.
  destruct (observe t) as [r|t'|X e k] eqn:Eo.
  - intros H _. inversion H; subst.
    exists 1%nat, (Returned r 1), st0. cbn [exec]. rewrite Eo.
    split; [lia|]. split; [first [reflexivity|eassumption]|]. split; [first [assumption|reflexivity|exact I]|assumption].
  - intros H Ho. destruct (IH n (Nat.lt_succ_diag_r n) _ _ _ _ _ Hs H Ho)
      as (n0 & o0 & st0' & Hn & He & Ho0 & Hs').
    exists (S n0), o0, st0'. cbn [exec]. rewrite Eo.
    split; [lia|]. split; [first [reflexivity|eassumption]|]. split; [first [assumption|reflexivity|exact I]|assumption].
  - destruct e as [c|[y|p]].
    + change (handle (inl1 c) st) with (handle_call c st).
      destruct (sim_call c Hs) as (st0' & Hc & Hs').
      destruct (handle_call c st) as [[x|ex|] st1]; cbn [fst snd] in Hc, Hs'.
      * destruct n as [|n]; [cbn; intros H; inversion H; congruence|].
        rewrite exec_tau. intros H Ho.
        assert (Hlt : (n < S (S n))%nat) by lia.
        destruct (IH n Hlt _ _ _ _ _ Hs' H Ho)
          as (n0 & o0 & st0'' & Hn & He & Ho0 & Hs'').
        exists (S n0), o0, st0''. cbn [exec]. rewrite Eo.
        change (handle (inl1 c) st0) with (handle_call c st0). rewrite Hc.
        split; [lia|]. split; [first [reflexivity|eassumption]|]. split; [first [assumption|reflexivity|exact I]|assumption].
      * intros H _. inversion H; subst.
        exists 1%nat, (Raised ex), st0'. cbn [exec]. rewrite Eo.
        change (handle (inl1 c) st0) with (handle_call c st0). rewrite Hc.
        split; [lia|]. split; [first [reflexivity|eassumption]|]. split; [first [assumption|reflexivity|exact I]|assumption].
      * intros H _. inversion H; subst.
        exists 1%nat, Stalled, st0'. cbn [exec]. rewrite Eo.
        change (handle (inl1 c) st0) with (handle_call c st0). rewrite Hc.
        split; [lia|]. split; [first [reflexivity|eassumption]|]. split; [first [assumption|reflexivity|exact I]|assumption].
    + destruct y. intros H Ho.
      destruct (IH n (Nat.lt_succ_diag_r n) _ _ _ _ _ (sim_yield d Hs) H Ho)
        as (n0 & o0 & st0' & Hn & He & Ho0 & Hs').
      exists (S n0), o0, st0'. cbn [exec]. rewrite Eo. cbn.
      split; [lia|]. split; [first [reflexivity|eassumption]|]. split; [first [assumption|reflexivity|exact I]|assumption].
    + change (handle (inr1 (inr1 p)) st) with (handle_py p st).
      destruct (sim_py p Hs) as (st0' & Hc & Hs').
      destruct (handle_py p st) as [[x|ex|] st1]; cbn [fst snd] in Hc, Hs'.
      * destruct n as [|n]; [cbn; intros H; inversion H; congruence|].
        rewrite exec_tau. intros H Ho.
        assert (Hlt : (n < S (S n))%nat) by lia.
        destruct (IH n Hlt _ _ _ _ _ Hs' H Ho)
          as (n0 & o0 & st0'' & Hn & He & Ho0 & Hs'').
        exists (S n0), o0, st0''. cbn [exec]. rewrite Eo.
        change (handle (inr1 (inr1 p)) st0) with (handle_py p st0). rewrite Hc.
        split; [lia|]. split; [first [reflexivity|eassumption]|]. split; [first [assumption|reflexivity|exact I]|assumption].
      * intros H _. inversion H; subst.
        exists 1%nat, (Raised ex), st0'. cbn [exec]. rewrite Eo.
        change (handle (inr1 (inr1 p)) st0) with (handle_py p st0). rewrite Hc.
        split; [lia|]. split; [first [reflexivity|eassumption]|]. split; [first [assumption|reflexivity|exact I]|assumption].
      * intros H _. inversion H; subst.
        exists 1%nat, Stalled, st0'. cbn [exec]. rewrite Eo.
        change (handle (inr1 (inr1 p)) st0) with (handle_py p st0). rewrite Hc.
        split; [lia|]. split; [first [reflexivity|eassumption]|]. split; [first [assumption|reflexivity|exact I]|assumption].
Qed.

Ltac sim_done :=
  split; [first [reflexivity|eassumption]|];
  split; [first [assumption|reflexivity|exact I]|assumption].

(** And the other way round. *)
Lemma for_pass_backward {R} n : forall (t : itree loopE R) (st : State env)
    (st0 : State (unattended env)) o0 st0',
  same_but_yields st st0 ->
  exec n t st0 = (o0, st0') -> o0 <> OutOfFuel ->
  exists n1 o st',
    exec n1 (interp for_pass t) st = (o, st') /\
    same_outcome o o0 /\ same_but_yields st' st0'.
Proof.
  induction n as [|n IH]; intros t st st0 o0 st0' Hs;
    [cbn; intros H; inversion H; congruence|].
  cbn [exec]. destruct (observe t) as [r|t'|X e k] eqn:Eo.
  - intros H _. inversion H; subst.
    exists 1%nat, (Returned r 1), st. rewrite exec_for_pass_step, Eo. sim_done.
  - intros H Ho. destruct (IH _ _ _ _ _ Hs H Ho) as (n1 & o & st' & He & Ho' & Hs').
    exists (S n1), o, st'. rewrite exec_for_pass_step, Eo. sim_done.
  - destruct e as [c|[y|p]].
    + change (handle (inl1 c) st0) with (handle_call c st0).
      destruct (sim_call c Hs) as (st0'' & Hc & Hs'). rewrite Hc.
      destruct (handle_call c st) as [[x|ex|] st1] eqn:Ec; cbn [fst snd] in Hs' |- *.
      * intros H Ho.
        destruct (IH _ _ _ _ _ Hs' H Ho) as (n1 & o & st' & He & Ho' & Hs'').
        exists (S (S n1)), o, st'. rewrite exec_for_pass_step, Eo.
        change (handle (inl1 c) st) with (handle_call c st). rewrite Ec, exec_tau.
        sim_done.
      * intros H _. inversion H; subst.
        exists 1%nat, (Raised ex), st1. rewrite exec_for_pass_step, Eo.
        change (handle (inl1 c) st) with (handle_call c st). rewrite Ec. sim_done.
      * intros H _. inversion H; subst.
        exists 1%nat, Stalled, st1. rewrite exec_for_pass_step, Eo.
        change (handle (inl1 c) st) with (handle_call c st). rewrite Ec. sim_done.
    + destruct y. cbn. intros H Ho.
      destruct (IH _ _ _ _ _ (sim_yield d Hs) H Ho) as (n1 & o & st' & He & Ho' & Hs').
      exists (S n1), o, st'. rewrite exec_for_pass_step, Eo. sim_done.
    + change (handle (inr1 (inr1 p)) st0) with (handle_py p st0).
      destruct (sim_py p Hs) as (st0'' & Hc & Hs'). rewrite Hc.
      destruct (handle_py p st) as [[x|ex|] st1] eqn:Ec; cbn [fst snd] in Hs' |- *.
      * intros H Ho.
        destruct (IH _ _ _ _ _ Hs' H Ho) as (n1 & o & st' & He & Ho' & Hs'').
        exists (S (S n1)), o, st'. rewrite exec_for_pass_step, Eo.
        change (handle (inr1 (inr1 p)) st) with (handle_py p st). rewrite Ec, exec_tau.
        sim_done.
      * intros H _. inversion H; subst.
        exists 1%nat, (Raised ex), st1. rewrite exec_for_pass_step, Eo.
        change (handle (inr1 (inr1 p)) st) with (handle_py p st). rewrite Ec. sim_done.
      * intros H _. inversion H; subst.
        exists 1%nat, Stalled, st1. rewrite exec_for_pass_step, Eo.
        change (handle (inr1 (inr1 p)) st) with (handle_py p st). rewrite Ec. sim_done.
Qed.

Variable Freq_parse : string -> Exn D + (Z * string).
Variables (start_time end_time : Time D).

(** C9. [backtest_loop] is the generator of [collect_data_loop], called
    with a new dict, driven with nothing sent in: a run of [backtest_loop]
    that returns a pair matches a run of the generator under the driver
    that always resumes with [next()], ending in the same state of the
    collaborators and of the heap, with the same calls in the same order
    (only the suspensions, which [backtest_loop] drops, are not in its
    trace), and the pair is what the dict holds under ["portfolio_dict"]
    and ["indicator_dict"] at the end, which are the two dicts the
    aggregation built; and every such run of the generator is matched by a
    run of [backtest_loop] that returns that pair. *)
Theorem backtest_loop_is_unattended_drive (w : World env) (h : Heap) :
  let rv := next_ref h in
  let gen := collect_data_loop Freq_parse start_time end_time (Some rv) in
  let start := initial (unattended env) w (heap_new h) in
  (forall n p i m st',
      exec n (backtest_loop Freq_parse start_time end_time) (initial env w h)
      = (Returned (p, i) m, st') ->
      exists n0 m0 st0 vs,
        exec n0 gen start = (Returned tt m0, st0) /\
        same_but_yields st' st0 /\
        p = dict_get (cells (heap st0) rv) "portfolio_dict" /\
        i = dict_get (cells (heap st0) rv) "indicator_dict" /\
        p = Some (VPort (fst (fold_left visit_apply vs ([], [])))) /\
        i = Some (VInd (snd (fold_left visit_apply vs ([], []))))) /\
  (forall n0 m0 st0,
      exec n0 gen start = (Returned tt m0, st0) ->
      exists n m st',
        exec n (backtest_loop Freq_parse start_time end_time) (initial env w h)
        = (Returned (dict_get (cells (heap st0) rv) "portfolio_dict",
                     dict_get (cells (heap st0) rv) "indicator_dict") m, st') /\
        same_but_yields st' st0).
Proof.
  intros rv gen start.
  assert (Hs0 : same_but_yields
                  {| world := w; heap := heap_new h; log := [] |} start)
    by (repeat split).
  split.
  - intros n p i m st' H. unfold backtest_loop in H.
    destruct n as [|n]; [cbn in H; discriminate|].
    rewrite exec_py_bind in H. cbn [handle_py initial heap world log] in H.
    apply exec_bind_returned in H. destruct H as (u & m1 & st2 & Hi & H).
    assert (Hne : Returned u m1 <> OutOfFuel) by discriminate.
    destruct (@for_pass_forward _ _ _ _ _ _ _ Hs0 Hi Hne)
      as (n0 & o0 & st0 & _ & He & Ho & Hs).
    destruct o0 as [u0 m0| | |]; cbn in Ho; try contradiction.
    destruct u0.
    destruct m1 as [|m1]; [cbn in H; discriminate|].
    rewrite exec_py_bind in H. cbn [handle_py] in H.
    destruct m1 as [|m1]; [cbn in H; discriminate|].
    rewrite exec_py_bind in H. cbn [handle_py] in H.
    apply exec_ret_returned in H. destruct H as (Hpi & _ & ->).
    injection Hpi as -> ->.
    pose proof (@run_loop_returned D (unattended env) Freq_parse start_time end_time
                  (Some rv) n0 w (heap_new h) tt m0 st0 He) as Hr.
    destruct Hr as (st_c & l0 & _ & _ & nodes & vs & _ & _ & _ & Hh).
    destruct Hs as (Hw & Hheap & Hl).
    exists n0, m0, st0, vs.
    split; [exact He|]. split; [repeat split; assumption|].
    rewrite Hheap. split; [reflexivity|]. split; [reflexivity|].
    rewrite Hh. cbn [heap_set cells]. rewrite Nat.eqb_refl.
    unfold dict_update. cbn [fold_left fst snd]. split.
    + rewrite dict_get_set_neq; [apply dict_get_set_eq|discriminate].
    + apply dict_get_set_eq.
  - intros n0 m0 st0 He.
    assert (Hne : Returned tt m0 <> OutOfFuel) by discriminate.
    destruct (@for_pass_backward _ _ _ _ _ _ _ Hs0 He Hne)
      as (n1 & o & st' & Hi & Ho & Hs).
    destruct o as [u m1| | |]; cbn in Ho; try contradiction.
    apply exec_more_fuel with (k := 3%nat) in Hi; [|discriminate].
    destruct Hs as (Hw & Hheap & Hl).
    exists (S (n1 + 3)), (S m1), st'.
    split; [|repeat split; assumption].
    unfold backtest_loop. rewrite exec_py_bind.
    cbn [handle_py initial heap world log].
    rewrite exec_bind. fold rv. fold gen. rewrite Hi.
    replace (m1 + 3)%nat with (S (S (S m1))) by lia.
    rewrite exec_py_bind. cbn [handle_py].
    rewrite exec_py_bind. cbn [handle_py]. rewrite exec_ret.
    now rewrite Hheap.
Qed.

End Unattended.

(** ** The number of steps, under the calendar contract *)

Section Calendar.

Context {D : Domain} (env : Env (D:=D)).
Variables (trade_step trade_len : World env -> Z).
Hypothesis contract : calendar_contract env trade_step trade_len.

#[local] Abbreviation at_step := (calendar_at env trade_step trade_len).
#[local] Abbreviation any := (any_state env).

Lemma count_snoc (p : Event -> bool) l e :
  count p (l ++ [e]) = (count p l + if p e then 1 else 0)%nat.
Proof. rewrite count_app. unfold count. cbn. now destruct (p e). Qed.

Lemma triple_assume {R} (phi : Prop) (I P : State env -> Prop) (t : itree loopE R)
    (Q : R -> State env -> Prop) :
  (forall st, P st -> phi) -> (phi -> triple I P t Q) -> triple I P t Q.
Proof. intros H1 H2 n st HP. apply H2; eauto. Qed.

Lemma at_step_steady {X} (c : callE X) total k a b :
  steady c = true ->
  (forall r, is_decision_request (event_of_call c r) = false) ->
  (forall r, is_post_exe_step (event_of_call c r) = false) ->
  triple any (at_step total k a b) (trigger c) (fun _ => at_step total k a b).
Proof.
  intros Hc Hd Hp. apply triple_call_returned.
  intros st x w' (Hs & Hl & Ha & Hb) E.
  destruct (cc_steady contract c _ Hc E) as [Hs' Hl'].
  unfold calendar_at. cbn [world log]. rewrite !count_snoc, Hd, Hp.
  repeat split; try congruence; lia.
Qed.

Lemma yield_from_steps (g : Gen D) total k a b :
  triple any (at_step total k a b) (yield_from g) (fun _ => at_step total (S k) a b).
Proof.
  unfold yield_from.
  apply (triple_iter (fun _ : option (Decision D) => at_step total k a b)).
  intros sent. eapply triple_bind.
  - apply triple_call_returned with
      (Q := fun y st => match y with
                        | Yielded _ => at_step total k a b st
                        | Done _ => at_step total (S k) a b st
                        end).
    intros st y w' (Hs & Hl & Ha & Hb) E.
    destruct (cc_resume contract _ _ _ E) as [Hl' Hs'].
    destruct y; unfold calendar_at; cbn [world log]; rewrite !count_snoc; cbn;
      repeat split; try congruence; lia.
  - intros [d|res]; cbn beta iota.
    + eapply triple_bind.
      * apply triple_yield_returned with (Q := fun _ => at_step total k a b).
        intros st sent' w' (Hs & Hl & Ha & Hb) E.
        destruct (cc_drive contract _ _ E) as [Hs' Hl'].
        unfold calendar_at. cbn [world log]. rewrite !count_snoc. cbn.
        repeat split; try congruence; lia.
      * intros s. apply triple_ret; unfold any_state; auto.
    + apply triple_ret; unfold any_state; auto.
Qed.

Lemma loop_body_steps res total k :
  Z.of_nat k <= total ->
  triple any (at_step total k k k) (loop_body res)
    (fun lr st =>
       match lr with
       | inl _ => at_step total (S k) (S k) (S k) st /\ Z.of_nat (S k) <= total
       | inr _ => at_step total k k k st /\ Z.of_nat k = total /\
                  exists l, log st = l ++ [EvFinished (Ok true)]
       end).
Proof.
  intros Hk. unfold loop_body. eapply triple_bind.
  - apply triple_call_returned with
      (Q := fun fin st => at_step total k k k st /\
                          fin = (total <=? Z.of_nat k) /\
                          exists l, log st = l ++ [EvFinished (Ok fin)]).
    intros st fin w' (Hs & Hl & Ha & Hb) E.
    pose proof (cc_finished contract _ E) as Hf.
    destruct (cc_steady contract Finished _ eq_refl E) as [Hs' Hl'].
    unfold calendar_at. cbn [world log event_of_call]. rewrite !count_snoc. cbn.
    repeat split; try congruence; try lia. eauto.
  - intros [|].
    + apply triple_ret; [unfold any_state; auto|].
      intros st (Hat & Hf & Hl). split; [exact Hat|]. split; [|exact Hl].
      symmetry in Hf. apply Z.leb_le in Hf. lia.
    + apply triple_assume with (phi := Z.of_nat k < total).
      { intros st (_ & Hf & _). symmetry in Hf. apply Z.leb_gt in Hf. exact Hf. }
      intros Hlt.
      eapply triple_conseq with (P := at_step total k k k);
        [intros st H; apply H|intros r st H; exact H|].
      eapply triple_bind.
      { apply triple_call_returned with (Q := fun _ => at_step total k (S k) k).
        intros st x w' (Hs & Hl & Ha & Hb) E.
        destruct (cc_steady contract (GenerateTradeDecision res) _ eq_refl E)
          as [Hs' Hl'].
        unfold calendar_at. cbn [world log event_of_call]. rewrite !count_snoc. cbn.
        repeat split; try congruence; lia. }
      intros d. eapply triple_bind; [now apply at_step_steady|]. intros g.
      eapply triple_bind; [apply yield_from_steps|]. intros res'.
      eapply triple_bind.
      { apply triple_call_returned with (Q := fun _ => at_step total (S k) (S k) (S k)).
        intros st x w' (Hs & Hl & Ha & Hb) E.
        destruct (cc_steady contract (PostExeStep res') _ eq_refl E) as [Hs' Hl'].
        unfold calendar_at. cbn [world log event_of_call]. rewrite !count_snoc. cbn.
        repeat split; try congruence; lia. }
      intros u. eapply triple_bind; [now apply at_step_steady|]. intros u'.
      apply triple_ret; [unfold any_state; auto|].
      intros st H. split; [exact H|lia].
Qed.

Lemma loop_steps total :
  0 <= total ->
  triple any (at_step total 0 0 0) (ITree.iter loop_body None)
    (fun _ st => Z.of_nat (count is_decision_request (log st)) = total /\
                 Z.of_nat (count is_post_exe_step (log st)) = total /\
                 exists l, log st = l ++ [EvFinished (Ok true)]).
Proof.
  intros Ht.
  eapply triple_conseq with
    (P := fun st => exists k, at_step total k k k st /\ Z.of_nat k <= total)
    (Q := fun _ st => Z.of_nat (count is_decision_request (log st)) = total /\
                      Z.of_nat (count is_post_exe_step (log st)) = total /\
                      exists l, log st = l ++ [EvFinished (Ok true)]);
    [intros st H; exists 0%nat; split; [exact H|exact Ht]|auto|].
  apply (triple_iter (fun (_ : option (Result D)) st =>
                        exists k, at_step total k k k st /\ Z.of_nat k <= total)).
  intros res. apply triple_exists. intros k.
  apply triple_assume with (phi := Z.of_nat k <= total); [intros st H; apply H|].
  intros Hk. eapply triple_conseq; [| |apply (loop_body_steps res Hk)].
  - intros st H. apply H.
  - intros [res'|[]] st; cbn beta iota.
    + intros H. exists (S k). exact H.
    + intros ((_ & _ & Ha & Hb) & Hk' & Hl). rewrite Ha, Hb. auto.
Qed.

(** C3. Under the calendar contract, a run that returns has requested
    as many decisions, and delivered as many results, as the length
    [get_trade_len()] gave at the start (the total the progress bar was
    opened with): one decision/result pair per step of the outer calendar.
    This holds for every pair of bounds on which the run returns, the
    ordered ones among them. *)
Theorem steps_equal_trade_len Freq_parse (start_time end_time : Time D)
    (return_value : option Ref) n w h u m :
  fst (run_loop env Freq_parse start_time end_time return_value n w h)
  = Returned u m ->
  let tr := log (snd (run_loop env Freq_parse start_time end_time return_value
                               n w h)) in
  exists i total rest,
    tr = setup_trace start_time end_time i total ++ rest /\
    Z.of_nat (count is_decision_request tr) = total /\
    Z.of_nat (count is_post_exe_step tr) = total.
Proof.
  intros H tr.
  destruct (run_loop_follows env Freq_parse start_time end_time return_value n w h)
    as [[q Hq] _]. fold tr in Hq.
  subst tr. destruct (run_loop _ _ _ _ _ _ _ _) as [o st'] eqn:E.
  cbn [fst snd] in *. subst o.
  unfold run_loop, collect_data_loop in E.
  apply exec_call_returned in E. destruct E as (x1 & w1 & n1 & -> & Ec1 & E).
  apply exec_call_returned in E. destruct E as (x2 & w2 & n2 & -> & Ec2 & E).
  apply exec_call_returned in E. destruct E as (x3 & w3 & n3 & -> & Ec3 & E).
  apply exec_call_returned in E. destruct E as (x4 & w4 & n4 & -> & Ec4 & E).
  apply exec_call_returned in E. destruct E as (x5 & w5 & n5 & -> & Ec5 & E).
  apply exec_bind_returned in E. destruct E as (r1 & m1 & st1 & Hi & E).
  cbn [world heap log initial] in *. destruct x1, x3, x5.
  destruct (@cc_reset _ _ _ _ contract _ _ _ _ Ec1) as [Hs1 Hl1].
  destruct (@cc_steady _ _ _ _ contract _ GetLevelInfra _ _ _ eq_refl Ec2) as [Hs2 Hl2].
  destruct (@cc_steady _ _ _ _ contract _ (StrategyReset x2) _ _ _ eq_refl Ec3) as [Hs3 Hl3].
  pose proof (@cc_get_trade_len _ _ _ _ contract _ _ _ Ec4) as Hx4.
  destruct (@cc_steady _ _ _ _ contract _ GetTradeLen _ _ _ eq_refl Ec4) as [Hs4 Hl4].
  destruct (@cc_steady _ _ _ _ contract _ (TqdmOpen x4) _ _ _ eq_refl Ec5) as [Hs5 Hl5].
  assert (Ht : 0 <= x4) by lia.
  match type of Hi with
  | exec _ _ ?st5 = _ =>
      assert (Hat : at_step x4 0 0 0 st5)
        by (unfold calendar_at; cbn; repeat split; try reflexivity; lia);
      pose proof (@loop_steps x4 Ht n5 st5 Hat) as Hloop;
      destruct (exec_log_extends (ITree.iter loop_body None) n5 st5) as (l1 & El1)
  end.
  rewrite Hi in Hloop, El1. cbn [snd log] in El1.
  destruct Hloop as (Hd & Hp & l & El).
  match type of E with
  | exec _ ?t _ = _ => destruct (exec_log_extends t m1 st1) as (l2 & El2)
  end.
  rewrite E in El2. cbn [snd] in El2.
  assert (Hz : Forall (fun e => loop_event e = false) l2).
  { rewrite El2, El, <- app_assoc in Hq. cbn in Hq.
    eapply after_finished_true; eassumption. }
  exists x2, x4, (l1 ++ l2).
  rewrite El2. split; [|split].
  - rewrite El1, <- app_assoc. reflexivity.
  - rewrite count_app, (@count_zero_weaken _ is_decision_request loop_event l2);
      [lia|now intros []|exact Hz].
  - rewrite count_app, (@count_zero_weaken _ is_post_exe_step loop_event l2);
      [lia|now intros []|exact Hz].
Qed.

End Calendar.

(** ** Bounds in the wrong order *)

Section Bounds.

Context {D : Domain} (env : Env (D:=D)).
Variable Freq_parse : string -> Exn D + (Z * string).
Variables (start_time end_time : Time D) (return_value : option Ref).
Variable precedes : Time D -> Time D -> bool.
Variable ConfigurationError : Exn D.

#[local] Abbreviation loop_call := (call_of_loop start_time end_time).
#[local] Abbreviation from_the_loop :=
  (raised_by_loop env Freq_parse start_time end_time).

Lemma call_raises {X} (c : callE X) :
  loop_call c -> raises_only env from_the_loop (trigger c).
Proof.
  intros Hc. apply raises_only_call. intros w ex H. left. now exists X, c, w.
Qed.

Ltac raises_tac :=
  repeat first
    [ apply raises_only_ret
    | apply call_raises; cbn; now auto
    | apply raises_only_yield
    | apply raises_only_bind; [|intros ?]
    | apply raises_only_iter; intros ?
    | match goal with
      | |- raises_only _ _ (if ?x then _ else _) => destruct x
      | |- raises_only _ _ (match ?x with Yielded _ => _ | Done _ => _ end) =>
          destruct x
      end ].

Lemma aggregate_raises (all_executors : list (Node D)) acc :
  raises_only env from_the_loop (aggregate Freq_parse all_executors acc).
Proof.
  revert acc. induction all_executors as [|executor rest IH]; intros acc;
    cbn [aggregate]; [apply raises_only_ret|].
  apply raises_only_bind; [|intros; apply IH].
  unfold aggregate_one. destruct acc as [pd id].
  apply raises_only_bind; [apply call_raises; exact I|]. intros label.
  apply raises_only_bind.
  { destruct (Freq_parse label) as [e|p] eqn:E; [|apply raises_only_ret].
    apply raises_only_bind; [|intros []].
    apply raises_only_py. right. right. now exists label. }
  intros key. raises_tac.
Qed.

Lemma collect_data_loop_raises :
  raises_only env from_the_loop
    (collect_data_loop Freq_parse start_time end_time return_value).
Proof.
  unfold collect_data_loop.
  apply raises_only_bind; [apply call_raises; cbn; auto|]. intros u.
  do 4 (apply raises_only_bind; [apply call_raises; exact I|]; intros ?).
  apply raises_only_bind.
  { apply raises_only_iter. intros res. unfold loop_body, yield_from. raises_tac. }
  intros u'.
  do 2 (apply raises_only_bind; [apply call_raises; exact I|]; intros ?).
  destruct return_value as [rv|]; [|apply raises_only_ret].
  apply raises_only_bind; [apply call_raises; exact I|]. intros all_executors.
  apply raises_only_bind; [apply aggregate_raises|]. intros acc.
  apply raises_only_py. now right.
Qed.


End Bounds.

(** ** The frequency key *)

Section KeyFacts.

Lemma format2_split n u :
  0 <= n -> starts_with_digit u = false ->
  split_digits (format2 (n, u)) = (str_of_int n, u).
Proof. intros Hn Hu. unfold format2. cbn [fst snd]. now apply split_digits_str_of_int. Qed.

Lemma str_of_int_inj n n' : 0 <= n -> 0 <= n' -> str_of_int n = str_of_int n' -> n = n'.
Proof.
  intros Hn Hn' E. pose proof (int_of_str_of_int Hn) as H.
  rewrite E, (int_of_str_of_int Hn') in H. congruence.
Qed.

(** X1. The frequency key of line 124, ["{}{}".format(count, unit)],
    determines the pair it was made from: when the counts are not negative
    and the units do not begin with a digit, two pairs with the same key
    are the same pair, so that executors of different granularities never
    share an entry of the result. *)
Theorem frequency_key_injective n u n' u' :
  0 <= n -> 0 <= n' ->
  starts_with_digit u = false -> starts_with_digit u' = false ->
  format2 (n, u) = format2 (n', u') -> n = n' /\ u = u'.
Proof.
  intros Hn Hn' Hu Hu' E. apply (f_equal split_digits) in E.
  rewrite !format2_split in E by assumption.
  injection E as E1 E2. split; [now apply str_of_int_inj|exact E2].
Qed.

End KeyFacts.

(** ** Keys that meet in the aggregation *)

Section LastWrite.

Context {D : Domain} (env : Env (D:=D)).
Variable Freq_parse : string -> Exn D + (Z * string).

Lemma dict_keys_set {V} (d : Dict V) k v k' :
  In k' (dict_keys (dict_set d k v)) <-> k' = k \/ In k' (dict_keys d).
Proof.
  unfold dict_keys. induction d as [|[k0 v0] d IH]; cbn.
  - intuition congruence.
  - destruct (String.eqb k0 k) eqn:E; cbn.
    + apply String.eqb_eq in E. subst k0. intuition congruence.
    + rewrite IH. intuition congruence.
Qed.

Lemma dict_set_NoDup {V} (d : Dict V) k v :
  NoDup (dict_keys d) -> NoDup (dict_keys (dict_set d k v)).
Proof.
  induction d as [|[k0 v0] d IH]; cbn; intros H.
  - constructor; [intros []|constructor].
  - inversion H as [|? ? Hn Hd]; subst.
    destruct (String.eqb k0 k) eqn:E; cbn.
    + constructor; assumption.
    + constructor; [|now apply IH].
      change (map fst (dict_set d k v)) with (dict_keys (dict_set d k v)).
      rewrite dict_keys_set. intros [->|Hin]; [|now apply Hn].
      now rewrite String.eqb_refl in E.
Qed.

Lemma dict_get_keys {V} (d : Dict V) k :
  dict_get d k <> None <-> In k (dict_keys d).
Proof.
  unfold dict_keys. induction d as [|[k0 v0] d IH]; cbn; [tauto|].
  destruct (String.eqb k0 k) eqn:E.
  - apply String.eqb_eq in E. split; [auto|discriminate].
  - rewrite IH. split; [auto|]. intros [->|H]; [|exact H].
    now rewrite String.eqb_refl in E.
Qed.

Lemma fold_visits_snoc (vs : list (@Visit D)) v acc :
  fold_left visit_apply (vs ++ [v]) acc = visit_apply (fold_left visit_apply vs acc) v.
Proof. now rewrite fold_left_app. Qed.

Lemma last_visit_snoc (p : @Visit D -> bool) vs v :
  last_visit p (vs ++ [v]) = if p v then Some v else last_visit p vs.
Proof. unfold last_visit. now rewrite rev_app_distr. Qed.

Lemma visit_apply_fst acc (v : @Visit D) :
  fst (visit_apply acc v)
  = match v_metrics v with
    | Some m => dict_set (fst acc) (v_key v) m
    | None => fst acc
    end.
Proof. reflexivity. Qed.

Lemma visit_apply_snd acc (v : @Visit D) :
  snd (visit_apply acc v) = dict_set (snd acc) (v_key v) (v_df v, v_obj v).
Proof. reflexivity. Qed.

Lemma visits_last_write (vs : list (@Visit D)) :
  let acc := fold_left visit_apply vs ([], []) in
  NoDup (dict_keys (fst acc)) /\ NoDup (dict_keys (snd acc)) /\
  (forall k, dict_get (snd acc) k
             = option_map (fun v => (v_df v, v_obj v)) (last_visit (has_key k) vs)) /\
  (forall k, dict_get (fst acc) k
             = match last_visit (fun v => has_key k v && has_metrics v) vs with
               | Some v => v_metrics v
               | None => None
               end).
Proof.
  induction vs as [|v vs IH] using rev_ind; cbn zeta.
  - cbn. repeat split; constructor.
  - rewrite fold_visits_snoc. destruct IH as (N1 & N2 & Hi & Hp).
    rewrite visit_apply_fst, visit_apply_snd. repeat split.
    + destruct (v_metrics v); [now apply dict_set_NoDup|exact N1].
    + now apply dict_set_NoDup.
    + intros k. rewrite dict_get_set, last_visit_snoc, Hi.
      unfold has_key at 2. now destruct (String.eqb (v_key v) k).
    + intros k. rewrite last_visit_snoc. unfold has_key at 1, has_metrics at 1.
      destruct (v_metrics v) as [m|] eqn:Em.
      * rewrite dict_get_set, Hp. destruct (String.eqb (v_key v) k); cbn;
          [now rewrite Em|reflexivity].
      * rewrite andb_false_r. apply Hp.
Qed.

Lemma find_weaken {A} (p q : A -> bool) l :
  (forall x, p x = true -> q x = true) -> find p l <> None -> find q l <> None.
Proof.
  intros Hpq. induction l as [|x l IH]; cbn; [auto|].
  destruct (p x) eqn:Ep.
  - now rewrite (Hpq _ Ep).
  - destruct (q x); [discriminate|exact IH].
Qed.

Lemma dict_set_length {V} (d : Dict V) k v :
  (List.length (dict_set d k v) <= S (List.length d))%nat.
Proof.
  induction d as [|[k0 v0] d IH]; cbn; [lia|].
  destruct (String.eqb k0 k); cbn; lia.
Qed.

Lemma visits_length (vs : list (@Visit D)) :
  (List.length (snd (fold_left visit_apply vs ([], []))) <= List.length vs)%nat.
Proof.
  induction vs as [|v vs IH] using rev_ind; [cbn; lia|].
  rewrite fold_visits_snoc, visit_apply_snd, length_app. cbn.
  pose proof (dict_set_length (snd (fold_left visit_apply vs ([], []))) (v_key v)
                (v_df v, v_obj v)). lia.
Qed.

(** X2. The two dicts a run of the aggregation returns hold each key
    once, and under a key what the last executor visited with that key
    left: the indicator dict holds the dataframe and the indicator of the
    last visit with that key, the portfolio dict the metrics of the last
    visit with that key whose portfolio metrics were enabled. Every key of
    the portfolio dict is a key of the indicator dict, and the indicator
    dict has no more entries than there are executors. *)
Theorem aggregation_last_write_wins (all_executors : list (Node D)) n (st st' : State env)
    portfolio_dict indicator_dict m :
  exec n (aggregate Freq_parse all_executors ([], [])) st
  = (Returned (portfolio_dict, indicator_dict) m, st') ->
  exists vs,
    map v_executor vs = all_executors /\
    log st' = log st ++ flat_map visit_events vs /\
    NoDup (dict_keys portfolio_dict) /\ NoDup (dict_keys indicator_dict) /\
    (forall k, dict_get indicator_dict k
               = option_map (fun v => (v_df v, v_obj v)) (last_visit (has_key k) vs)) /\
    (forall k, dict_get portfolio_dict k
               = match last_visit (fun v => has_key k v && has_metrics v) vs with
                 | Some v => v_metrics v
                 | None => None
                 end) /\
    (forall k, In k (dict_keys portfolio_dict) -> In k (dict_keys indicator_dict)) /\
    (List.length (dict_keys indicator_dict) <= List.length all_executors)%nat.
Proof.
  intros H. apply aggregate_returned in H.
  destruct H as (vs & Hvs & _ & Hl & Hacc & _).
  destruct (visits_last_write vs) as (N1 & N2 & Hi & Hp).
  rewrite <- Hacc in N1, N2, Hi, Hp. cbn [fst snd] in N1, N2, Hi, Hp.
  exists vs. repeat (split; [assumption|]). split.
  - intros k Hin. apply dict_get_keys. apply dict_get_keys in Hin.
    rewrite Hp in Hin. rewrite Hi. unfold last_visit in *.
    assert (Hf : find (has_key k) (rev vs) <> None).
    { apply find_weaken with (p := fun v => has_key k v && has_metrics v).
      - intros x Hx. now apply andb_true_iff in Hx.
      - destruct (find _ (rev vs)); [discriminate|congruence]. }
    destruct (find (has_key k) (rev vs)); [discriminate|congruence].
  - pose proof (visits_length vs) as Hlen. rewrite <- Hacc in Hlen. cbn [snd] in Hlen.
    unfold dict_keys. rewrite length_map, <- Hvs, length_map. exact Hlen.
Qed.

End LastWrite.

(** ** Delegation, and what each step calls *)

Section DelegationFacts.

Context {D : Domain}.
Variables (start_time end_time : Time D) (return_value : option Ref).

#[local] Abbreviation step_ := (step start_time end_time return_value).
#[local] Abbreviation reach_ := (reach start_time end_time return_value).
#[local] Abbreviation run_ := (run start_time end_time return_value).

Lemma at_yield q d a q' :
  step_ q (EvYield d a) q' ->
  exists g, q = PSuspended g d /\
            q' = match a with Send sent => PInner g sent | Abandon => PHalt end.
Proof. intros H. inversion H; subst; eauto; discriminate. Qed.

Lemma into_PSuspended q e g d :
  step_ q e (PSuspended g d) ->
  exists sent, q = PInner g sent /\ e = EvGenResume g sent (Ok (Yielded d)).
Proof.
  intros H. inversion H; subst;
    repeat match goal with
           | r : reply _ |- _ => destruct r
           | b : bool |- _ => destruct b
           | y : Resumed |- _ => destruct y
           | a : Drive |- _ => destruct a
           end; cbn in *; try discriminate.
  match goal with E : _ = PSuspended _ _ |- _ => inversion E; subst end. eauto.
Qed.

Lemma from_PInner g sent e q' :
  step_ (PInner g sent) e q' -> exists rep, e = EvGenResume g sent rep.
Proof. intros H. inversion H; subst. eauto. Qed.

Lemma from_PSuspended g d e q' :
  step_ (PSuspended g d) e q' -> exists a, e = EvYield d a.
Proof. intros H. inversion H; subst. eauto. Qed.

Lemma yield_after_inner_yield l1 d a l2 q :
  reach_ (l1 ++ EvYield d a :: l2) q ->
  exists l0 g sent, l1 = l0 ++ [EvGenResume g sent (Ok (Yielded d))].
Proof.
  intros H. apply reach_split in H. destruct H as (q1 & q2 & H1 & Hs & _).
  apply at_yield in Hs. destruct Hs as (g & -> & _).
  apply reach_last in H1; [|discriminate].
  destruct H1 as (l0 & q0 & e & -> & _ & Hs).
  apply into_PSuspended in Hs. destruct Hs as (sent & _ & ->). eauto.
Qed.

Lemma inner_yield_then_yield l1 g sent d e' l2 q :
  reach_ (l1 ++ EvGenResume g sent (Ok (Yielded d)) :: e' :: l2) q ->
  exists a, e' = EvYield d a.
Proof.
  intros H. apply reach_split in H. destruct H as (q1 & q2 & _ & Hs & Hr).
  inversion Hs; subst; [|discriminate]. cbn in Hr.
  inversion Hr; subst. eapply from_PSuspended; eassumption.
Qed.

Lemma sent_then_resumed l1 g sent0 d sent e' l2 q :
  reach_ (l1 ++ EvGenResume g sent0 (Ok (Yielded d)) :: EvYield d (Send sent)
             :: e' :: l2) q ->
  exists rep, e' = EvGenResume g sent rep.
Proof.
  intros H. apply reach_split in H. destruct H as (q1 & q2 & _ & Hs & Hr).
  inversion Hs; subst; [|discriminate]. cbn in Hr.
  inversion Hr as [|? ? ? ? ? Hs1 Hr1]; subst.
  inversion Hs1; subst. cbn in Hr1.
  inversion Hr1; subst. eapply from_PInner; eassumption.
Qed.

Lemma submitted_then_next l1 d lvl g e' l2 q :
  reach_ (l1 ++ EvCollectData d lvl (Ok g) :: e' :: l2) q ->
  exists rep, e' = EvGenResume g None rep.
Proof.
  intros H. apply reach_split in H. destruct H as (q1 & q2 & _ & Hs & Hr).
  inversion Hs; subst; [|discriminate]. cbn in Hr.
  inversion Hr; subst. eapply from_PInner; eassumption.
Qed.

Lemma step_not_replied q e q' : step_ q e q' -> replied e = false -> q' = PHalt.
Proof.
  intros H. inversion H; subst;
    repeat match goal with
           | r : reply _ |- _ => destruct r
           | a : Drive |- _ => destruct a
           end; cbn; try discriminate; try reflexivity.
  match goal with E : account_query _ = Some _ |- _ => rename E into Ea end.
  intros Hr. destruct e; cbn in Ea, Hr; try discriminate Ea;
    destruct r; try discriminate Hr; injection Ea as <-; reflexivity.
Qed.

Lemma last_when_not_replied l1 e l2 q :
  reach_ (l1 ++ e :: l2) q -> replied e = false -> l2 = [].
Proof.
  intros H He. apply reach_split in H. destruct H as (q1 & q2 & _ & Hs & Hr).
  rewrite (step_not_replied Hs He) in Hr. now apply nothing_after_halt in Hr.
Qed.

Lemma run_step_counts q l q' :
  run_ q l q' -> left_alive q' = true ->
  (count is_finished l = count is_decision_request l + check_owed q)%nat /\
  (count is_collect_data l = count is_decision_request l + submission_owed q)%nat /\
  (count is_bar_update l = count is_post_exe_step l + update_owed q)%nat.
Proof.
  induction 1 as [q|q e q1 l q' Hs Hr IH]; intros Hq'.
  - destruct q; cbn in *; try discriminate; auto.
  - specialize (IH Hq'). unfold count in *.
    inversion Hs; subst;
      repeat match goal with
             | r : reply _ |- _ => destruct r
             | b : bool |- _ => destruct b
             | y : Resumed |- _ => destruct y
             | a : Drive |- _ => destruct a
             end;
      cbn in IH, Hr |- *;
      try (apply nothing_after_halt in Hr; subst;
           inversion Hr; subst; discriminate);
      try lia;
      try (inversion Hr; subst; try discriminate;
           match goal with Hh : step_ PHalt _ _ |- _ => inversion Hh end).
    destruct e; cbn in *; try discriminate; lia.
Qed.

Lemma bar_update_after_delivery l1 n rep l2 q :
  reach_ (l1 ++ EvBarUpdate n rep :: l2) q ->
  n = 1 /\ exists l0 res, l1 = l0 ++ [EvPostExeStep res (Ok tt)].
Proof.
  intros H. apply reach_split in H. destruct H as (q1 & q2 & H1 & Hs & _).
  inversion Hs; subst; [|discriminate]. split; [reflexivity|].
  apply reach_last in H1; [|discriminate].
  destruct H1 as (l0 & q0 & e & -> & _ & Hs').
  inversion Hs'; subst;
    repeat match goal with
           | r : reply _ |- _ => destruct r
           | b : bool |- _ => destruct b
           | y : Resumed |- _ => destruct y
           | a : Drive |- _ => destruct a
           | u : unit |- _ => destruct u
           end; cbn in *; try discriminate.
  all: match goal with E : _ = PPosted _ |- _ => inversion E; subst end. all: eauto.
Qed.

Lemma tqdm_open_after_len l1 total rep l2 q :
  reach_ (l1 ++ EvTqdmOpen total rep :: l2) q ->
  exists l0, l1 = l0 ++ [EvGetTradeLen (Ok total)].
Proof.
  intros H. apply reach_split in H. destruct H as (q1 & q2 & H1 & Hs & _).
  inversion Hs; subst; [|discriminate].
  apply reach_last in H1; [|discriminate].
  destruct H1 as (l0 & q0 & e & -> & _ & Hs').
  inversion Hs'; subst;
    repeat match goal with
           | r : reply _ |- _ => destruct r
           | b : bool |- _ => destruct b
           | y : Resumed |- _ => destruct y
           | a : Drive |- _ => destruct a
           end; cbn in *; try discriminate.
  all: match goal with E : _ = PLen _ |- _ => inversion E; subst end. all: eauto.
Qed.

Lemma not_replied_not_final l1 e l2 q :
  reach_ (l1 ++ e :: l2) q -> replied e = false -> l2 = [] /\ q = PHalt.
Proof.
  intros H He. apply reach_split in H. destruct H as (q1 & q2 & _ & Hs & Hr).
  rewrite (step_not_replied Hs He) in Hr.
  pose proof (nothing_after_halt Hr) as ->. inversion Hr; subst. auto.
Qed.

End DelegationFacts.

Section LoopExtras.

Context {D : Domain} (env : Env (D:=D)).
Variable Freq_parse : string -> Exn D + (Z * string).
Variables (start_time end_time : Time D) (return_value : option Ref).

#[local] Abbreviation run_loop_ :=
  (run_loop env Freq_parse start_time end_time return_value).

Lemma final_state_not_halt : final_state return_value <> PHalt.
Proof. unfold final_state. destruct return_value; discriminate. Qed.

(** X3. The delegation of line 109 adds nothing and drops nothing: a
    decision the loop yields is the one the executor's generator has just
    yielded, and each decision that generator yields is yielded by the loop
    next; what the driver sends in at a suspension is what the same
    generator is resumed with next; a generator that [collect_data]
    returned is first resumed with nothing sent in; and when the driver
    leaves a suspension the run ends there, without returning. *)
Theorem yield_from_is_transparent n w h :
  let tr := log (snd (run_loop env Freq_parse start_time end_time return_value
                            n w h)) in
  (forall l1 d a l2,
      tr = l1 ++ EvYield d a :: l2 ->
      exists l0 g sent, l1 = l0 ++ [EvGenResume g sent (Ok (Yielded d))]) /\
  (forall l1 g sent d e' l2,
      tr = l1 ++ EvGenResume g sent (Ok (Yielded d)) :: e' :: l2 ->
      exists a, e' = EvYield d a) /\
  (forall l1 g sent0 d sent e' l2,
      tr = l1 ++ EvGenResume g sent0 (Ok (Yielded d)) :: EvYield d (Send sent)
              :: e' :: l2 ->
      exists rep, e' = EvGenResume g sent rep) /\
  (forall l1 d lvl g e' l2,
      tr = l1 ++ EvCollectData d lvl (Ok g) :: e' :: l2 ->
      exists rep, e' = EvGenResume g None rep) /\
  (forall l1 d l2,
      tr = l1 ++ EvYield d Abandon :: l2 ->
      l2 = [] /\
      forall r m,
        fst (run_loop env Freq_parse start_time end_time return_value n w h)
        <> Returned r m).
Proof.
  intros tr.
  destruct (run_loop_follows env Freq_parse start_time end_time return_value n w h)
    as [[q Hq] Hret]. fold tr in Hq, Hret.
  split; [|split; [|split; [|split]]].
  - intros l1 d a l2 E. rewrite E in Hq. eapply yield_after_inner_yield; eassumption.
  - intros l1 g sent d e' l2 E. rewrite E in Hq.
    eapply inner_yield_then_yield; eassumption.
  - intros l1 g sent0 d sent e' l2 E. rewrite E in Hq.
    eapply sent_then_resumed; eassumption.
  - intros l1 d lvl g e' l2 E. rewrite E in Hq.
    eapply submitted_then_next; eassumption.
  - intros l1 d l2 E. split.
    + rewrite E in Hq. eapply last_when_not_replied; [eassumption|reflexivity].
    + intros r m Hr. specialize (Hret r m Hr). rewrite E in Hret.
      apply not_replied_not_final in Hret; [|reflexivity].
      destruct Hret as [_ Hf]. now apply final_state_not_halt in Hf.
Qed.

(** X4. The progress bar is opened with the length [get_trade_len()]
    has just returned; it is only ever advanced by 1, right after a
    [post_exe_step] that returned. A run that returns has advanced it once
    per result delivered, has submitted one decision to the executor per
    decision requested, and has checked [finished()] once more than it
    requested decisions. *)
Theorem one_update_per_step n w h :
  let tr := log (snd (run_loop_ n w h)) in
  (forall l1 total rep l2,
      tr = l1 ++ EvTqdmOpen total rep :: l2 ->
      exists l0, l1 = l0 ++ [EvGetTradeLen (Ok total)]) /\
  (forall l1 k rep l2,
      tr = l1 ++ EvBarUpdate k rep :: l2 ->
      k = 1 /\ exists l0 res, l1 = l0 ++ [EvPostExeStep res (Ok tt)]) /\
  (forall r m, fst (run_loop_ n w h) = Returned r m ->
      count is_bar_update tr = count is_post_exe_step tr /\
      count is_collect_data tr = count is_decision_request tr /\
      count is_finished tr = S (count is_decision_request tr)).
Proof.
  intros tr.
  destruct (run_loop_follows env Freq_parse start_time end_time return_value n w h)
    as [[q Hq] Hret]. fold tr in Hq, Hret.
  split; [|split].
  - intros l1 total rep l2 E. rewrite E in Hq. eapply tqdm_open_after_len; eassumption.
  - intros l1 k rep l2 E. rewrite E in Hq. eapply bar_update_after_delivery; eassumption.
  - intros r m Hr. specialize (Hret r m Hr). apply reach_run in Hret.
    apply run_step_counts in Hret;
      [|unfold final_state; destruct return_value; reflexivity].
    cbn in Hret. lia.
Qed.

End LoopExtras.

(** ** Runs that are cut short *)

Section AbruptFacts.

Context {D : Domain} (env : Env (D:=D)).

Lemma abrupt_ret {R} (P : State env -> Prop) (r : R) E : abrupt P (Ret r) E.
Proof. intros [|n] st _; exact I. Qed.

Lemma abrupt_bind {R S} (P : State env -> Prop) (t : itree loopE R)
    (k : R -> itree loopE S) (Q : R -> State env -> Prop) E :
  abrupt P t E ->
  triple (fun _ => True) P t Q ->
  (forall r, abrupt (Q r) (k r) E) ->
  abrupt P (ITree.bind t k) E.
Proof.
  intros Ht Hq Hk n st HP. rewrite exec_bind.
  specialize (Ht n st HP). specialize (Hq n st HP).
  destruct (exec n t st) as [[r m|ex| |] st']; auto.
  now apply Hk.
Qed.

Lemma abrupt_conseq {R} (P P' : State env -> Prop) (t : itree loopE R)
    (E E' : option (Exn D) -> State env -> Prop) :
  (forall st, P' st -> P st) -> (forall o st, E o st -> E' o st) ->
  abrupt P t E -> abrupt P' t E'.
Proof.
  intros HP HE Ht n st H. specialize (Ht n st (HP _ H)).
  destruct (exec n t st) as [[r m|ex| |] st']; auto.
Qed.

Lemma abrupt_iter {A R} (Inv : A -> State env -> Prop)
    (body : A -> itree loopE (A + R)) E :
  (forall a, abrupt (Inv a) (body a) E) ->
  (forall a, triple (fun _ => True) (Inv a) (body a)
               (fun lr st => match lr with
                             | inl a' => Inv a' st
                             | inr _ => True
                             end)) ->
  forall a, abrupt (Inv a) (ITree.iter body a) E.
Proof.
  intros Hbody Hinv a n. revert a.
  induction n as [n IH] using lt_wf_ind. intros a st HInv.
  rewrite exec_iter, exec_bind.
  specialize (Hbody a n st HInv). specialize (Hinv a n st HInv).
  destruct (exec n (body a) st) as [[[a'|r] m|ex| |] st'] eqn:Eb; auto.
  - apply exec_fuel_left in Eb.
    destruct m as [|m]; [lia|]. rewrite exec_tau.
    apply IH; [lia|assumption].
  - apply exec_fuel_left in Eb.
    destruct m as [|m]; [lia|]. now rewrite exec_ret.
Qed.

Lemma abrupt_call {X} (P : State env -> Prop) (c : callE X) E :
  (forall st r w', P st -> call env c (world st) = (r, w') ->
     match r with
     | Ok _ => True
     | Raise ex => E (Some ex) {| world := w'; heap := heap st;
                                 log := log st ++ [event_of_call c r] |}
     | Stall => E None {| world := w'; heap := heap st;
                          log := log st ++ [event_of_call c r] |}
     end) ->
  abrupt P (trigger c) E.
Proof.
  intros H [|n] st HP; [exact I|]. rewrite exec_trigger.
  change (handle (subevent X c) st) with (handle_call c st). unfold handle_call.
  specialize (H st). destruct (call env c (world st)) as [[x|ex|] w'];
    specialize (H _ _ HP eq_refl); cbn in H |- *; auto.
  now destruct n.
Qed.

Lemma abrupt_yield (P : State env -> Prop) (d : Decision D) E :
  (forall st w', P st -> drive env d (world st) = (Abandon, w') ->
     E None {| world := w'; heap := heap st; log := log st ++ [EvYield d Abandon] |}) ->
  abrupt P (trigger (Yield d)) E.
Proof.
  intros H [|n] st HP; [exact I|]. rewrite exec_trigger.
  change (handle (subevent _ (Yield d)) st) with (handle_yield (Yield d) st). cbn.
  specialize (H st). destruct (drive env d (world st)) as [[sent|] w']; cbn; auto.
  now destruct n.
Qed.

Lemma abrupt_py {X} (P : State env -> Prop) (p : pyE X) E :
  (forall st, P st ->
     match p with
     | Throw ex => E (Some ex) st
     | _ => True
     end) ->
  abrupt P (trigger p) E.
Proof.
  intros H [|n] st HP; [exact I|]. rewrite exec_trigger.
  change (handle (subevent X p) st) with (handle_py p st).
  specialize (H st HP). destruct p; cbn; auto; now destruct n.
Qed.

End AbruptFacts.

Section Failure.

Context {D : Domain} (env : Env (D:=D)).
Variable Freq_parse : string -> Exn D + (Z * string).
Variable h : Heap.

#[local] Abbreviation same_heap := (fun st : State env => heap st = h).
#[local] Abbreviation stopped :=
  (fun o (st : State env) => stopped_at Freq_parse o st /\ heap st = h).

Lemma keeps_heap_triple {R} (t : itree loopE R) :
  keeps_heap env t -> triple (fun _ => True) same_heap t (fun _ => same_heap).
Proof.
  intros Hk n st HP. specialize (Hk h n st HP).
  destruct (exec n t st) as [[r m|ex| |] st']; auto.
Qed.

Lemma call_stops {X} (c : callE X) : abrupt same_heap (trigger c) stopped.
Proof.
  apply abrupt_call. intros st r w' Hh _. destruct r as [x|ex|]; [exact I| |];
    (split; [|exact Hh]); left; exists (log st), X, c; reflexivity.
Qed.

Lemma yield_stops (d : Decision D) : abrupt same_heap (trigger (Yield d)) stopped.
Proof.
  apply abrupt_yield. intros st w' Hh _. split; [|exact Hh].
  right. exists (log st), d. reflexivity.
Qed.

Ltac stops_tac :=
  repeat first
    [ apply abrupt_ret
    | apply call_stops
    | apply yield_stops
    | eapply abrupt_bind;
      [ | apply keeps_heap_triple; keeps_heap_tac | intros ? ]
    | match goal with
      | |- abrupt _ (match ?x with _ => _ end) _ => destruct x
      | |- abrupt _ (if ?x then _ else _) _ => destruct x
      end ].

Lemma yield_from_stops (g : Gen D) : abrupt same_heap (yield_from g) stopped.
Proof.
  unfold yield_from.
  apply (abrupt_iter (fun _ : option (Decision D) => same_heap)).
  - intros sent. stops_tac.
  - intros sent. eapply triple_conseq; [| |apply keeps_heap_triple; keeps_heap_tac];
      [auto|]. intros [s|r] st H; [exact H|exact I].
Qed.

Lemma loop_body_stops res : abrupt same_heap (loop_body res) stopped.
Proof.
  unfold loop_body.
  eapply abrupt_bind; [apply call_stops|apply keeps_heap_triple; keeps_heap_tac|].
  intros fin. destruct fin; [apply abrupt_ret|].
  eapply abrupt_bind; [apply call_stops|apply keeps_heap_triple; keeps_heap_tac|].
  intros d.
  eapply abrupt_bind; [apply call_stops|apply keeps_heap_triple; keeps_heap_tac|].
  intros g.
  eapply abrupt_bind;
    [apply yield_from_stops|apply keeps_heap_triple, yield_from_keeps_heap|].
  intros r. stops_tac.
Qed.

Lemma aggregate_one_stops acc (executor : Node D) :
  abrupt same_heap (aggregate_one Freq_parse acc executor) stopped.
Proof.
  unfold aggregate_one. destruct acc as [portfolio_dict indicator_dict].
  eapply abrupt_bind with
    (Q := fun label st =>
            heap st = h /\
            exists l0, log st = l0 ++ [EvTimePerStep executor (Ok label)]).
  - apply call_stops.
  - apply triple_call_returned. intros st label w' Hh _. cbn. split; [exact Hh|].
    exists (log st). reflexivity.
  - intros label.
    eapply abrupt_bind with (Q := fun _ => same_heap).
    + destruct (Freq_parse label) as [e|p] eqn:Ep; [|apply abrupt_ret].
      eapply abrupt_bind with (Q := fun _ _ => True).
      * apply abrupt_py. intros st (Hh & l0 & Hl). split; [|exact Hh].
        right. exists l0, executor, label. auto.
      * intros n st _. destruct (exec n _ st) as [[[] m|ex| |] st']; exact I.
      * intros [].
    + eapply triple_conseq; [| |apply keeps_heap_triple with
          (t := match Freq_parse label with
                | inl e => x <- trigger (Throw e);; match x : Empty_set with end
                | inr p => Ret (format2 p)
                end)].
      * intros st [Hh _]. exact Hh.
      * auto.
      * destruct (Freq_parse label); keeps_heap_tac.
    + intros key. stops_tac.
Qed.

Lemma aggregate_stops (all_executors : list (Node D)) acc :
  abrupt same_heap (aggregate Freq_parse all_executors acc) stopped.
Proof.
  revert acc. induction all_executors as [|executor rest IH]; intros acc;
    cbn [aggregate]; [apply abrupt_ret|].
  eapply abrupt_bind; [apply aggregate_one_stops| |intros acc'; apply IH].
  apply keeps_heap_triple. unfold aggregate_one. destruct acc. keeps_heap_tac.
Qed.

Variables (start_time end_time : Time D) (return_value : option Ref).

Lemma collect_data_loop_stops :
  abrupt same_heap (collect_data_loop Freq_parse start_time end_time return_value)
         stopped.
Proof.
  unfold collect_data_loop.
  do 5 (eapply abrupt_bind;
        [apply call_stops|apply keeps_heap_triple; keeps_heap_tac|intros ?]).
  eapply abrupt_bind.
  { apply (abrupt_iter (fun _ : option (Result D) => same_heap)).
    - intros res. apply loop_body_stops.
    - intros res. eapply triple_conseq;
        [| |apply keeps_heap_triple, loop_body_keeps_heap]; [auto|].
      intros [res'|u] st H; [exact H|exact I]. }
  { apply keeps_heap_triple. apply keeps_heap_iter. intros. apply loop_body_keeps_heap. }
  intros u.
  do 2 (eapply abrupt_bind;
        [apply call_stops|apply keeps_heap_triple; keeps_heap_tac|intros ?]).
  destruct return_value as [rv|]; [|apply abrupt_ret].
  eapply abrupt_bind;
    [apply call_stops|apply keeps_heap_triple; keeps_heap_tac|intros all_executors].
  eapply abrupt_bind;
    [apply aggregate_stops|apply keeps_heap_triple, aggregate_keeps_heap|intros acc].
  apply abrupt_py. auto.
Qed.

#[local] Abbreviation run_loop_ :=
  (run_loop env Freq_parse start_time end_time return_value).


End Failure.

(** ** [backtest_loop] when the generator fails *)

Section UnattendedFailure.

Context {D : Domain} (env : Env (D:=D)).
Variable Freq_parse : string -> Exn D + (Z * string).
Variables (start_time end_time : Time D).

(** The two reads of [backtest_loop] after the generator is exhausted
    never fail. *)
Lemma reads_do_not_fail (rv : Ref) m (st : State env) :
  match fst (exec m (portfolio_dict <- trigger (DictGet rv "portfolio_dict");;
                     indicator_dict <- trigger (DictGet rv "indicator_dict");;
                     Ret (portfolio_dict, indicator_dict)) st) with
  | Returned _ _ | OutOfFuel => True
  | _ => False
  end.
Proof.
  destruct m as [|m]; [exact I|]. rewrite exec_py_bind. cbn [handle_py].
  destruct m as [|m]; [exact I|]. rewrite exec_py_bind. cbn [handle_py].
  destruct m as [|m]; exact I.
Qed.

Lemma backtest_loop_cut n w h o st' :
  exec n (backtest_loop Freq_parse start_time end_time) (initial env w h) = (o, st') ->
  match o with Raised _ | Stalled => True | _ => False end ->
  exists n1 o1,
    exec n1 (interp for_pass
               (collect_data_loop Freq_parse start_time end_time (Some (next_ref h))))
         {| world := w; heap := heap_new h; log := [] |} = (o1, st') /\
    match o, o1 with
    | Raised ex, Raised ex1 => ex = ex1
    | Stalled, Stalled => True
    | _, _ => False
    end.
Proof.
  intros H Ho. unfold backtest_loop in H.
  destruct n as [|n]; [cbn in H; injection H as <- _; contradiction|].
  rewrite exec_py_bind in H. cbn [handle_py initial heap world log] in H.
  rewrite exec_bind in H.
  destruct (exec n (interp for_pass _) _) as [[u m|ex| |] st1] eqn:Ei.
  - pose proof (reads_do_not_fail (next_ref h) m st1) as Hr.
    cbn in H. rewrite H in Hr. cbn in Hr. destruct o; contradiction.
  - injection H as <- <-. exists n, (Raised ex). auto.
  - injection H as <- <-. exists n, Stalled. auto.
  - injection H as <- _. contradiction.
Qed.

(** X6. [backtest_loop] fails as the generator fails when it is driven
    with nothing sent in: a run of [backtest_loop] ends with an exception
    exactly when such a run of [collect_data_loop] on the new dict ends with
    that exception, after the same calls and in the same state of the
    collaborators and of the heap; the same holds of runs that are left
    waiting by a call that does not come back. *)
Theorem backtest_loop_fails_as_generator (w : World env) (h : Heap) :
  let rv := next_ref h in
  let gen := collect_data_loop Freq_parse start_time end_time (Some rv) in
  let start := initial (unattended env) w (heap_new h) in
  (forall n ex st',
      exec n (backtest_loop Freq_parse start_time end_time) (initial env w h)
      = (Raised ex, st') ->
      exists n0 st0, exec n0 gen start = (Raised ex, st0) /\ same_but_yields st' st0) /\
  (forall n0 ex st0,
      exec n0 gen start = (Raised ex, st0) ->
      exists n st',
        exec n (backtest_loop Freq_parse start_time end_time) (initial env w h)
        = (Raised ex, st') /\ same_but_yields st' st0) /\
  (forall n st',
      exec n (backtest_loop Freq_parse start_time end_time) (initial env w h)
      = (Stalled, st') ->
      exists n0 st0, exec n0 gen start = (Stalled, st0) /\ same_but_yields st' st0) /\
  (forall n0 st0,
      exec n0 gen start = (Stalled, st0) ->
      exists n st',
        exec n (backtest_loop Freq_parse start_time end_time) (initial env w h)
        = (Stalled, st') /\ same_but_yields st' st0).
Proof.
  intros rv gen start.
  assert (Hs0 : same_but_yields
                  {| world := w; heap := heap_new h; log := [] |} start)
    by (repeat split).
  assert (Hback : forall n0 o0 st0,
             exec n0 gen start = (o0, st0) ->
             match o0 with Raised _ | Stalled => True | _ => False end ->
             exists n o st',
               exec n (backtest_loop Freq_parse start_time end_time) (initial env w h)
               = (o, st') /\
               match o0, o with
               | Raised ex, Raised ex1 => ex = ex1
               | Stalled, Stalled => True
               | _, _ => False
               end /\ same_but_yields st' st0).
  { intros n0 o0 st0 He Ho.
    assert (Hne : o0 <> OutOfFuel) by (destruct o0; try discriminate; contradiction).
    destruct (@for_pass_backward _ _ _ _ _ _ _ _ _ Hs0 He Hne)
      as (n1 & o & st' & Hi & Hso & Hs).
    exists (S n1).
    unfold backtest_loop. rewrite exec_py_bind.
    cbn [handle_py initial heap world log].
    rewrite exec_bind. fold rv. fold gen. rewrite Hi.
    destruct o as [u m|ex| |], o0 as [u0 m0|ex0| |]; cbn in Hso, Ho; try contradiction.
    - exists (Raised ex), st'. subst. auto.
    - exists Stalled, st'. auto. }
  split; [|split; [|split]].
  - intros n ex st' H. destruct (backtest_loop_cut _ _ _ H I) as (n1 & o1 & Hi & Ho).
    destruct o1 as [| ex1 | |]; try contradiction. subst ex1.
    assert (Hne : @Raised D unit ex <> OutOfFuel) by discriminate.
    destruct (@for_pass_forward _ _ _ _ _ _ _ _ _ Hs0 Hi Hne)
      as (n0 & o0 & st0 & _ & He & Hso & Hs).
    destruct o0 as [| ex0 | |]; cbn in Hso; try contradiction. subst ex0.
    exists n0, st0. auto.
  - intros n0 ex st0 He. destruct (Hback _ _ _ He I) as (n & o & st' & Hb & Ho & Hs).
    destruct o as [| ex1 | |]; try contradiction. subst ex1.
    exists n, st'. auto.
  - intros n st' H. destruct (backtest_loop_cut _ _ _ H I) as (n1 & o1 & Hi & Ho).
    destruct o1 as [| ex1 | |]; try contradiction.
    assert (Hne : @Stalled D unit <> OutOfFuel) by discriminate.
    destruct (@for_pass_forward _ _ _ _ _ _ _ _ _ Hs0 Hi Hne)
      as (n0 & o0 & st0 & _ & He & Hso & Hs).
    destruct o0 as [| ex0 | |]; cbn in Hso; try contradiction.
    exists n0, st0. auto.
  - intros n0 st0 He. destruct (Hback _ _ _ He I) as (n & o & st' & Hb & Ho & Hs).
    destruct o as [| ex1 | |]; try contradiction.
    exists n, st'. auto.
Qed.

End UnattendedFailure.

(** ** [backtest_loop] never suspends *)

Section SendsNothing.

Context {D : Domain} (env : Env (D:=D)).

Lemma event_of_call_resumed_by_next {X} (c : callE X) (r : reply X) :
  resumed_by_next (event_of_call c r) = true.
Proof. destruct c; reflexivity. Qed.

(** Under the unattended driver every suspension is resumed by [next()]. *)
Lemma unattended_resumes_by_next {R} n : forall (t : itree loopE R)
    (st : State (unattended env)),
  Forall (fun e => resumed_by_next e = true) (log st) ->
  Forall (fun e => resumed_by_next e = true) (log (snd (exec n t st))).
Proof.
  induction n as [|n IH]; intros t st H; [exact H|].
  cbn [exec]. destruct (observe t) as [r|t'|X e k]; [exact H|now apply IH|].
  destruct e as [c|[y|p]].
  - change (handle (inl1 c) st) with (handle_call c st). unfold handle_call.
    destruct (call (unattended env) c (world st)) as [r w'].
    assert (H' : Forall (fun e => resumed_by_next e = true)
                   (log st ++ [event_of_call c r])).
    { apply Forall_app. split; [exact H|]. constructor; [|constructor].
      apply event_of_call_resumed_by_next. }
    destruct r as [x|ex|]; cbn; [apply IH; cbn| |]; exact H'.
  - destruct y. cbn. apply IH. cbn. apply Forall_app. split; [exact H|].
    constructor; [reflexivity|constructor].
  - change (handle (inr1 (inr1 p)) st) with (handle_py p st).
    destruct p; cbn; try (apply IH; exact H). exact H.
Qed.

(** The states of [backtest_loop]'s run of the generator are those of
    the generator under the unattended driver, whatever the fuel. *)
Lemma for_pass_states {R} n : forall (t : itree loopE R) (st : State env)
    (st0 : State (unattended env)),
  same_but_yields st st0 ->
  exists n0, same_but_yields (snd (exec n (interp for_pass t) st)) (snd (exec n0 t st0)).
Proof.
  induction n as [n IH] using lt_wf_ind. intros t st st0 Hs.
  destruct n as [|n]; [exists 0%nat; exact Hs|].
  rewrite exec_for_pass_step.
  destruct (observe t) as [r|t'|X e k] eqn:Eo.
  - exists 0%nat. exact Hs.
  - destruct (IH n (Nat.lt_succ_diag_r n) t' _ _ Hs) as (n0 & H).
    exists (S n0). cbn [exec]. now rewrite Eo.
  - destruct e as [c|[y|p]].
    + change (handle (inl1 c) st) with (handle_call c st).
      destruct (sim_call c Hs) as (st0' & Hc & Hs').
      destruct (handle_call c st) as [[x|ex|] st1]; cbn [fst snd] in Hc, Hs'.
      * destruct n as [|n].
        -- exists 1%nat. cbn [exec]. rewrite Eo.
           change (handle (inl1 c) st0) with (handle_call c st0). now rewrite Hc.
        -- rewrite exec_tau.
           assert (Hlt : (n < S (S n))%nat) by lia.
           destruct (IH n Hlt (k x) _ _ Hs') as (n0 & H).
           exists (S n0). cbn [exec]. rewrite Eo.
           change (handle (inl1 c) st0) with (handle_call c st0). now rewrite Hc.
      * exists 1%nat. cbn [exec]. rewrite Eo.
        change (handle (inl1 c) st0) with (handle_call c st0). now rewrite Hc.
      * exists 1%nat. cbn [exec]. rewrite Eo.
        change (handle (inl1 c) st0) with (handle_call c st0). now rewrite Hc.
    + destruct y.
      destruct (IH n (Nat.lt_succ_diag_r n) (k None) _ _ (sim_yield d Hs)) as (n0 & H).
      exists (S n0). cbn [exec]. rewrite Eo. exact H.
    + change (handle (inr1 (inr1 p)) st) with (handle_py p st).
      destruct (sim_py p Hs) as (st0' & Hc & Hs').
      destruct (handle_py p st) as [[x|ex|] st1]; cbn [fst snd] in Hc, Hs'.
      * destruct n as [|n].
        -- exists 1%nat. cbn [exec]. rewrite Eo.
           change (handle (inr1 (inr1 p)) st0) with (handle_py p st0). now rewrite Hc.
        -- rewrite exec_tau.
           assert (Hlt : (n < S (S n))%nat) by lia.
           destruct (IH n Hlt (k x) _ _ Hs') as (n0 & H).
           exists (S n0). cbn [exec]. rewrite Eo.
           change (handle (inr1 (inr1 p)) st0) with (handle_py p st0). now rewrite Hc.
      * exists 1%nat. cbn [exec]. rewrite Eo.
        change (handle (inr1 (inr1 p)) st0) with (handle_py p st0). now rewrite Hc.
      * exists 1%nat. cbn [exec]. rewrite Eo.
        change (handle (inr1 (inr1 p)) st0) with (handle_py p st0). now rewrite Hc.
Qed.

Variable Freq_parse : string -> Exn D + (Z * string).
Variables (start_time end_time : Time D).

Lemma resumed_with_what_was_sent (return_value : option Ref) l q :
  reach start_time end_time return_value l q ->
  Forall (fun e => resumed_by_next e = true) l ->
  Forall (fun e => resumes_with_nothing e = true) l /\
  match q with PInner _ sent => sent = None | _ => True end.
Proof.
  induction 1 as [|l q e q' _ IH Hs]; intros Hf; [split; [constructor|exact I]|].
  apply Forall_app in Hf. destruct Hf as [Hf He].
  destruct (IH Hf) as [IHl IHq]. inversion He as [|? ? He' _]; subst.
  split.
  - apply Forall_app. split; [exact IHl|]. constructor; [|constructor].
    inversion Hs; subst; try reflexivity.
    + now subst.
    + destruct e; try reflexivity. cbn in *. discriminate.
  - inversion Hs; subst;
      repeat match goal with
             | r : reply _ |- _ => destruct r
             | b : bool |- _ => destruct b
             | y : Resumed |- _ => destruct y
             end; cbn; auto.
    all: try (destruct a as [[s|]|]; cbn in *; try discriminate; auto).
    all: try (destruct ok; exact I).
Qed.

Lemma reads_keep_state (rv : Ref) m (st : State env) :
  snd (exec m (portfolio_dict <- trigger (DictGet rv "portfolio_dict");;
               indicator_dict <- trigger (DictGet rv "indicator_dict");;
               Ret (portfolio_dict, indicator_dict)) st) = st.
Proof.
  destruct m as [|m]; [reflexivity|]. rewrite exec_py_bind. cbn [handle_py].
  destruct m as [|m]; [reflexivity|]. rewrite exec_py_bind. cbn [handle_py].
  destruct m as [|m]; reflexivity.
Qed.

(** X7. In every run of [backtest_loop], however far it got, there is
    no suspension, and every resumption of a generator of the executor is
    made with nothing sent in. *)
Theorem backtest_loop_sends_nothing n (w : World env) (h : Heap) :
  let tr := log (snd (exec n (backtest_loop Freq_parse start_time end_time)
                           (initial env w h))) in
  count is_yield tr = 0%nat /\
  Forall (fun e => resumes_with_nothing e = true) tr.
Proof.
  intros tr.
  assert (Htr : exists n0,
             tr = filter (fun e => negb (is_yield e))
                    (log (snd (run_loop (unattended env) Freq_parse start_time end_time
                                        (Some (next_ref h)) n0 w (heap_new h))))).
  { subst tr. unfold backtest_loop.
    destruct n as [|n]; [exists 0%nat; reflexivity|].
    rewrite exec_py_bind. cbn [handle_py initial heap world log].
    rewrite exec_bind.
    assert (Hs0 : same_but_yields
                    {| world := w; heap := heap_new h; log := [] |}
                    (initial (unattended env) w (heap_new h)))
      by (repeat split).
    destruct (for_pass_states n
                (collect_data_loop Freq_parse start_time end_time (Some (next_ref h)))
                Hs0) as (n0 & _ & _ & Hl).
    exists n0. unfold run_loop. rewrite <- Hl.
    destruct (exec n (interp for_pass _) _) as [[u m| | |] st1]; try reflexivity.
    cbn [snd]. now rewrite reads_keep_state. }
  destruct Htr as (n0 & Htr).
  set (tr0 := log (snd (run_loop (unattended env) Freq_parse start_time end_time
                                 (Some (next_ref h)) n0 w (heap_new h)))) in Htr.
  assert (Hy : Forall (fun e => resumed_by_next e = true) tr0).
  { apply unattended_resumes_by_next. constructor. }
  destruct (run_loop_follows (unattended env) Freq_parse start_time end_time
              (Some (next_ref h)) n0 w (heap_new h)) as [[q Hq] _].
  fold tr0 in Hq.
  destruct (resumed_with_what_was_sent Hq Hy) as [Hr _].
  rewrite Htr. split.
  - unfold count. rewrite (proj2 (List.length_zero_iff_nil _)); [reflexivity|].
    clear. induction tr0 as [|e l IH]; [reflexivity|]. cbn.
    destruct (is_yield e) eqn:E; cbn; [exact IH|]. now rewrite E.
  - apply Forall_forall. intros e Hin. apply filter_In in Hin.
    rewrite Forall_forall in Hr. apply Hr. tauto.
Qed.

End SendsNothing.

(** ** Termination *)

Section TerminationRules.

Context {D : Domain} (env : Env (D:=D)).

Lemma terminates_ret {R} (P : State env -> Prop) (r : R) : terminates P (Ret r).
Proof. intros st _. exists 1%nat, r, 1%nat, st. reflexivity. Qed.

Lemma terminates_conseq {R} (P P' : State env -> Prop) (t : itree loopE R) :
  (forall st, P' st -> P st) -> terminates P t -> terminates P' t.
Proof. intros H Ht st HP. apply Ht, H, HP. Qed.

Lemma terminates_bind {R S} (P : State env -> Prop) (t : itree loopE R)
    (k : R -> itree loopE S) (Q : R -> State env -> Prop) :
  terminates P t ->
  triple (fun _ => True) P t Q ->
  (forall r, terminates (Q r) (k r)) ->
  terminates P (ITree.bind t k).
Proof.
  intros Ht Hq Hk st HP.
  destruct (Ht st HP) as (n & r & m & st1 & E1).
  pose proof (Hq n st HP) as HQ. rewrite E1 in HQ.
  destruct (Hk r st1 HQ) as (n2 & r2 & m2 & st2 & E2).
  exists (n + n2)%nat, r2, (m2 + m)%nat, st2.
  rewrite exec_bind.
  rewrite (exec_more_fuel _ _ n2 _ E1) by discriminate.
  rewrite Nat.add_comm. apply (exec_more_fuel _ _ m _ E2). discriminate.
Qed.

Lemma terminates_call {X} (P : State env -> Prop) (c : callE X) :
  (forall st, P st -> exists x w', call env c (world st) = (Ok x, w')) ->
  terminates P (trigger c).
Proof.
  intros H st HP. destruct (H st HP) as (x & w' & E).
  exists 2%nat, x, 1%nat. eexists. rewrite exec_trigger.
  change (handle (subevent X c) st) with (handle_call c st). unfold handle_call.
  rewrite E. reflexivity.
Qed.

Lemma terminates_yield (P : State env -> Prop) (d : Decision D) :
  (forall st, P st -> exists sent w', drive env d (world st) = (Send sent, w')) ->
  terminates P (trigger (Yield d)).
Proof.
  intros H st HP. destruct (H st HP) as (sent & w' & E).
  exists 2%nat, sent, 1%nat. eexists. rewrite exec_trigger.
  change (handle (subevent _ (Yield d)) st) with (handle_yield (Yield d) st). cbn.
  rewrite E. reflexivity.
Qed.

Lemma terminates_dict_update (P : State env -> Prop) rv other :
  terminates P (trigger (DictUpdate rv other)).
Proof.
  intros st _. exists 2%nat, tt, 1%nat. eexists. rewrite exec_trigger.
  reflexivity.
Qed.

(** The loop rule: a variant that each pass through the body lowers. *)
Lemma terminates_iter {A R} (Inv : A -> State env -> Prop) (V : State env -> nat)
    (body : A -> itree loopE (A + R)) :
  (forall a, terminates (Inv a) (body a)) ->
  (forall a v, triple (fun _ => True) (fun st => Inv a st /\ V st = v) (body a)
                 (fun lr st => match lr with
                               | inl a' => Inv a' st /\ (V st < v)%nat
                               | inr _ => True
                               end)) ->
  forall a, terminates (Inv a) (ITree.iter body a).
Proof.
  intros Hbody Hvar a st HInv.
  remember (V st) as v eqn:Ev. revert a st HInv Ev.
  induction v as [v IH] using lt_wf_ind. intros a st HInv Ev.
  destruct (Hbody a st HInv) as (n1 & lr & m1 & st1 & E1).
  pose proof (Hvar a v n1 st (conj HInv (eq_sym Ev))) as Hpost. rewrite E1 in Hpost.
  destruct lr as [a'|r].
  - destruct Hpost as [HInv' Hlt].
    destruct (IH _ Hlt a' st1 HInv' eq_refl) as (n2 & r & m2 & st2 & E2).
    exists (n1 + S n2)%nat, r, (m2 + m1)%nat, st2.
    rewrite exec_iter, exec_bind.
    rewrite (exec_more_fuel _ _ (S n2) _ E1) by discriminate.
    rewrite Nat.add_succ_r, exec_tau, Nat.add_comm.
    apply (exec_more_fuel _ _ m1 _ E2). discriminate.
  - exists (n1 + 1)%nat, r, (m1 + 1)%nat, st1.
    rewrite exec_iter, exec_bind.
    rewrite (exec_more_fuel _ _ 1%nat _ E1) by discriminate.
    rewrite Nat.add_1_r. reflexivity.
Qed.

End TerminationRules.

Section Termination.

Context {D : Domain} (env : Env (D:=D)).
Variable Freq_parse : string -> Exn D + (Z * string).
Variables (start_time end_time : Time D) (return_value : option Ref).
Variables (trade_step trade_len : World env -> Z) (pending : World env -> nat).
Hypothesis contract : calendar_contract env trade_step trade_len.
Hypothesis answers : responsive env Freq_parse start_time end_time pending.

#[local] Abbreviation anywhere := (fun _ : State env => True).
#[local] Abbreviation at_step := (calendar_at env trade_step trade_len).

Lemma triple_anywhere {R} (P : State env -> Prop) (t : itree loopE R) :
  triple anywhere P t (fun _ => anywhere).
Proof. intros n st _. destruct (exec n t st) as [[r m|ex| |] st']; exact I. Qed.

Lemma call_terminates {X} (P : State env -> Prop) (c : callE X) :
  call_of_loop start_time end_time c -> terminates P (trigger c).
Proof. intros Hc. apply terminates_call. intros st _. now apply (rs_call answers). Qed.

Lemma yield_terminates (P : State env -> Prop) (d : Decision D) :
  terminates P (trigger (Yield d)).
Proof.
  apply terminates_yield. intros st _.
  destruct (drive env d (world st)) as [[sent|] w'] eqn:E; [eauto|].
  now destruct (rs_drive answers _ _ E).
Qed.

Lemma yield_from_terminates (g : Gen D) : terminates anywhere (yield_from g).
Proof.
  unfold yield_from.
  apply (terminates_iter (fun _ : option (Decision D) => anywhere)
                         (fun st => pending (world st))).
  - intros sent.
    eapply terminates_bind; [now apply call_terminates|apply triple_anywhere|].
    intros [d|r]; [|apply terminates_ret].
    eapply terminates_bind; [apply yield_terminates|apply triple_anywhere|].
    intros s. apply terminates_ret.
  - intros sent v. eapply triple_bind.
    + apply triple_call_returned with
        (Q := fun y st => match y with
                          | Yielded _ => (pending (world st) < v)%nat
                          | Done _ => True
                          end).
      intros st y w' [_ Hv] E. destruct y as [d|r]; [|exact I].
      cbn [world]. apply (rs_yielded answers) in E. lia.
    + intros [d|r]; cbn beta iota.
      * eapply triple_bind.
        -- apply triple_yield_returned with
             (Q := fun _ st => (pending (world st) < v)%nat).
           intros st s w' Hv E. cbn [world].
           destruct (rs_drive answers _ _ E) as [_ Hle]. lia.
        -- intros s. apply triple_ret; auto.
      * apply triple_ret; auto.
Qed.

Lemma loop_body_terminates res : terminates anywhere (loop_body res).
Proof.
  unfold loop_body.
  eapply terminates_bind; [now apply call_terminates|apply triple_anywhere|].
  intros [|]; [apply terminates_ret|].
  eapply terminates_bind; [now apply call_terminates|apply triple_anywhere|].
  intros d.
  eapply terminates_bind; [now apply call_terminates|apply triple_anywhere|].
  intros g.
  eapply terminates_bind; [apply yield_from_terminates|apply triple_anywhere|].
  intros r.
  eapply terminates_bind; [now apply call_terminates|apply triple_anywhere|].
  intros u.
  eapply terminates_bind; [now apply call_terminates|apply triple_anywhere|].
  intros u'. apply terminates_ret.
Qed.

Lemma aggregate_one_terminates acc (executor : Node D) :
  terminates anywhere (aggregate_one Freq_parse acc executor).
Proof.
  unfold aggregate_one. destruct acc as [portfolio_dict indicator_dict].
  eapply terminates_bind with
    (Q := fun label _ => exists p, Freq_parse label = inr p).
  - now apply call_terminates.
  - apply triple_call_returned. intros st label w' _ E.
    apply (rs_label answers) in E. exact E.
  - intros label.
    eapply terminates_bind with (Q := fun _ => anywhere).
    + intros st (p & Hp). rewrite Hp. now apply (terminates_ret anywhere).
    + apply triple_anywhere.
    + intros key.
      eapply terminates_bind; [now apply call_terminates|apply triple_anywhere|].
      intros enabled.
      eapply terminates_bind with (Q := fun _ => anywhere).
      * destruct enabled; [|apply terminates_ret].
        eapply terminates_bind; [now apply call_terminates|apply triple_anywhere|].
        intros m. apply terminates_ret.
      * apply triple_anywhere.
      * intros portfolio_dict'.
        eapply terminates_bind; [now apply call_terminates|apply triple_anywhere|].
        intros ind.
        eapply terminates_bind; [now apply call_terminates|apply triple_anywhere|].
        intros df.
        eapply terminates_bind; [now apply call_terminates|apply triple_anywhere|].
        intros obj. apply terminates_ret.
Qed.

Lemma aggregate_terminates (all_executors : list (Node D)) acc :
  terminates anywhere (aggregate Freq_parse all_executors acc).
Proof.
  revert acc. induction all_executors as [|executor rest IH]; intros acc;
    cbn [aggregate]; [apply terminates_ret|].
  eapply terminates_bind;
    [apply aggregate_one_terminates|apply triple_anywhere|intros acc'; apply IH].
Qed.

#[local] Abbreviation on_calendar :=
  (fun st : State env =>
     exists total k, at_step total k k k st /\ Z.of_nat k <= total).

Lemma setup_call_on_calendar {X} (c : callE X) :
  steady c = true ->
  (forall r, is_decision_request (event_of_call c r) = false) ->
  (forall r, is_post_exe_step (event_of_call c r) = false) ->
  triple anywhere on_calendar (trigger c) (fun _ => on_calendar).
Proof.
  intros Hc Hd Hp. apply triple_call_returned.
  intros st x w' (total & k & (Hs & Hl & Ha & Hb) & Hk) E.
  destruct (cc_steady contract c _ Hc E) as [Hs' Hl'].
  exists total, k. split; [|exact Hk].
  unfold calendar_at. cbn [world log]. rewrite !count_snoc, Hd, Hp.
  repeat split; try congruence; lia.
Qed.

Lemma loop_terminates_on_calendar :
  terminates on_calendar (ITree.iter loop_body None).
Proof.
  apply (terminates_iter (fun _ : option (Result D) => on_calendar)
           (fun st => Z.to_nat (trade_len (world st) - trade_step (world st)))).
  - intros res. eapply terminates_conseq; [|apply loop_body_terminates].
    intros st _. exact I.
  - intros res v.
    eapply triple_conseq with
      (P := fun st => exists total k,
                at_step total k k k st /\
                (Z.of_nat k <= total /\ v = Z.to_nat (total - Z.of_nat k)))
      (Q := fun lr st => match lr with
                         | inl _ => on_calendar st /\
                                    (Z.to_nat (trade_len (world st)
                                               - trade_step (world st)) < v)%nat
                         | inr _ => True
                         end).
    { intros st [(total & k & Hat & Hk) Hv]. exists total, k.
      split; [exact Hat|]. split; [exact Hk|].
      destruct Hat as (Hs & Hl & _). rewrite <- Hv, Hs, Hl. reflexivity. }
    { auto. }
    apply triple_exists. intros total. apply triple_exists. intros k.
    apply triple_assume with
      (phi := Z.of_nat k <= total /\ v = Z.to_nat (total - Z.of_nat k));
      [intros st H; apply H|].
    intros [Hk Hv].
    eapply triple_conseq; [| |apply (loop_body_steps contract res Hk)].
    + intros st H. apply H.
    + intros [res'|u] st; cbn beta iota; [|auto].
      intros [Hat Hk']. split; [exists total, (S k); auto|].
      destruct Hat as (Hs & Hl & _). rewrite Hs, Hl. lia.
Qed.

Lemma collect_data_loop_terminates :
  terminates (fun st : State env => log st = [])
    (collect_data_loop Freq_parse start_time end_time return_value).
Proof.
  unfold collect_data_loop.
  eapply terminates_bind with (Q := fun _ => on_calendar).
  { apply call_terminates. cbn. auto. }
  { apply triple_call_returned. intros st [] w' Hl E.
    destruct (cc_reset contract _ _ _ E) as [Hs Ht].
    exists (trade_len w'), 0%nat. split; [|exact Ht].
    unfold calendar_at. cbn [world log]. rewrite Hl. cbn. auto. }
  intros u1.
  eapply terminates_bind;
    [now apply call_terminates|now apply setup_call_on_calendar|intros level_infra].
  eapply terminates_bind;
    [now apply call_terminates|now apply setup_call_on_calendar|intros u2].
  eapply terminates_bind;
    [now apply call_terminates|now apply setup_call_on_calendar|intros total].
  eapply terminates_bind;
    [now apply call_terminates|now apply setup_call_on_calendar|intros u3].
  eapply terminates_bind;
    [apply loop_terminates_on_calendar|apply triple_anywhere|intros u4].
  eapply terminates_bind; [now apply call_terminates|apply triple_anywhere|intros u5].
  eapply terminates_bind; [now apply call_terminates|apply triple_anywhere|intros u6].
  destruct return_value as [rv|]; [|apply terminates_ret].
  eapply terminates_bind;
    [now apply call_terminates|apply triple_anywhere|intros all_executors].
  eapply terminates_bind;
    [apply aggregate_terminates|apply triple_anywhere|intros acc].
  apply terminates_dict_update.
Qed.

(** X8. On a calendar that keeps the contract, with collaborators that
    answer (every call returns, the driver resumes every suspension, each
    generator of the executor yields finitely often, [Freq.parse] accepts
    the labels), the loop returns: there is a fuel from which on every run
    returns. *)
Theorem loop_terminates (w : World env) (h : Heap) :
  exists n, forall n', (n <= n')%nat ->
    exists u m,
      fst (run_loop env Freq_parse start_time end_time return_value n' w h)
      = Returned u m.
Proof.
  destruct (collect_data_loop_terminates (st := initial env w h) eq_refl)
    as (n & u & m & st' & E).
  exists n. intros n' Hn. exists u, (m + (n' - n))%nat. unfold run_loop.
  replace n' with (n + (n' - n))%nat at 1 by lia.
  now rewrite (exec_more_fuel _ _ (n' - n)%nat _ E) by discriminate.
Qed.

End Termination.

(** ** The capture dict *)

Section Capture.

Context {D : Domain} (env : Env (D:=D)).
Variable Freq_parse : string -> Exn D + (Z * string).
Variables (start_time end_time : Time D).


End Capture.

(** ** [backtest_loop] returns *)

Section UnattendedReturns.

Context {D : Domain} (env : Env (D:=D)).
Variable Freq_parse : string -> Exn D + (Z * string).
Variables (start_time end_time : Time D).
Variables (trade_step trade_len : World env -> Z) (pending : World env -> nat).

Lemma unattended_contract :
  calendar_contract env trade_step trade_len ->
  calendar_contract (unattended env) trade_step trade_len.
Proof.
  intros [H1 H2 H3 H4 H5 H6]. constructor; auto.
  intros d w a w' E. cbn in E. injection E as _ <-. auto.
Qed.

Lemma unattended_responsive :
  responsive env Freq_parse start_time end_time pending ->
  responsive (unattended env) Freq_parse start_time end_time pending.
Proof.
  intros [H1 H2 H3 H4]. constructor; auto.
  intros d w a w' E. cbn in E. injection E as <- <-. split; [discriminate|lia].
Qed.

(** X10. On a calendar that keeps the contract and with collaborators
    that answer, [backtest_loop] returns, and what it returns is a pair of
    two dicts, never [None]. *)
Theorem backtest_loop_returns (w : World env) (h : Heap) :
  calendar_contract (unattended env) trade_step trade_len ->
  responsive (unattended env) Freq_parse start_time end_time pending ->
  exists n portfolio_dict indicator_dict m st',
    exec n (backtest_loop Freq_parse start_time end_time) (initial env w h)
    = (Returned (Some (VPort portfolio_dict), Some (VInd indicator_dict)) m, st').
Proof.
  intros Hc Ha.
  destruct (@collect_data_loop_terminates D (unattended env) Freq_parse start_time
              end_time (Some (next_ref h)) trade_step trade_len pending Hc Ha
              (initial (unattended env) w (heap_new h)) eq_refl)
    as (n0 & [] & m0 & st0 & He).
  assert (Hs0 : same_but_yields
                  {| world := w; heap := heap_new h; log := [] |}
                  (initial (unattended env) w (heap_new h)))
    by (repeat split).
  assert (Hne : Returned tt m0 <> OutOfFuel) by discriminate.
  destruct (@for_pass_backward _ _ _ _ _ _ _ _ _ Hs0 He Hne)
    as (n1 & o & st' & Hi & Ho & Hs).
  destruct o as [[] m1| | |]; cbn in Ho; try contradiction.
  apply exec_more_fuel with (k := 3%nat) in Hi; [|discriminate].
  pose proof (@run_loop_returned D (unattended env) Freq_parse start_time end_time
                (Some (next_ref h)) n0 w (heap_new h) tt m0 st0 He) as Hr.
  destruct Hr as (st_c & l0 & _ & _ & nodes & vs & _ & _ & _ & Hh).
  destruct Hs as (Hw & Hheap & Hl).
  exists (S (n1 + 3)). eexists. eexists. exists (S m1), st'.
  unfold backtest_loop. rewrite exec_py_bind.
  cbn [handle_py initial heap world log].
  rewrite exec_bind, Hi.
  replace (m1 + 3)%nat with (S (S (S m1))) by lia.
  rewrite exec_py_bind. cbn [handle_py].
  rewrite exec_py_bind. cbn [handle_py]. rewrite exec_ret.
  rewrite Hheap, Hh. cbn [heap_set cells]. rewrite Nat.eqb_refl.
  unfold dict_update. cbn [fold_left fst snd].
  rewrite dict_get_set_neq by discriminate. rewrite !dict_get_set_eq. reflexivity.
Qed.

End UnattendedReturns.

(** ** The two-level scenario *)

Lemma two_level_contract : calendar_contract two_level_env cal_step cal_len.
Proof.
  constructor.
  - intros s e w w'. cbn. destruct (e <? s) eqn:E; [discriminate|].
    intros H. injection H as <-. cbn. unfold trading_days.
    apply Z.ltb_ge in E. split; [reflexivity|].
    destruct ((s <=? 7) && (7 <=? e)) eqn:E7; [|lia].
    apply andb_true_iff in E7. lia.
  - intros w fin w'. cbn. intros H. now injection H as <- _.
  - intros w n w'. cbn. intros H. now injection H as <- _.
  - intros g sent w y w'. cbn. destruct (cal_pending w); intros H;
      injection H as <- <-; cbn; split; (reflexivity || lia).
  - intros X c w x w' Hs. destruct c; try discriminate Hs; cbn; intros H;
      apply (f_equal snd) in H; cbn in H; subst w'; split; reflexivity.
  - intros d w a w'. cbn. intros H. injection H as _ <-. split; reflexivity.
Qed.

Lemma two_level_checks_bounds :
  checks_bounds (D:=two_level) Z.ltb ConfigurationError two_level_env.
Proof.
  intros X c w. destruct c; cbn; try (split; discriminate).
  - destruct (end_time <? start_time); cbn; split; (reflexivity || discriminate).
  - destruct (cal_pending w); cbn; split; discriminate.
Qed.

Lemma two_level_parse_value_error label e :
  two_level_parse label = inl e -> e = ValueError.
Proof.
  unfold two_level_parse, Freq_parse_model.
  destruct (split_digits label) as [digits unit].
  destruct (NilZero.uint_of_string digits); [destruct (existsb _ _)|]; congruence.
Qed.

Lemma two_level_parse_not_configuration label :
  two_level_parse label <> inl ConfigurationError.
Proof. intros H. apply two_level_parse_value_error in H. discriminate. Qed.

(** The two-level environment keeps the calendar contract, the run over
    days 1 and 2 returns, and it has made as many decision requests and
    deliveries as the length the calendar gave. *)
Lemma steps_equal_trade_len_two_days :
  calendar_contract two_level_env cal_step cal_len /\
  fst two_day_run = Returned tt 953 /\
  exists i total rest,
    log (snd two_day_run) = setup_trace (D:=two_level) 1 2 i total ++ rest /\
    Z.of_nat (count is_decision_request (log (snd two_day_run))) = total /\
    Z.of_nat (count is_post_exe_step (log (snd two_day_run))) = total.
Proof.
  split; [exact two_level_contract|]. split; [vm_compute; reflexivity|].
  apply (steps_equal_trade_len two_level_contract two_level_parse 1 2 (Some 0%nat)
           1000 fresh_calendar empty_heap (u:=tt) (m:=953%nat)).
  vm_compute. reflexivity.
Defined.

(** The aggregation over the two executors returns with the outer one in
    both dicts and the inner one, whose portfolio metrics are disabled, in
    the indicator dict only. *)
Lemma disabled_metrics_omitted_two_level :
  exists st' m,
    exec 100 (aggregate two_level_parse [0%nat; 1%nat] ([], []))
         (initial two_level_env fresh_calendar empty_heap)
    = (Returned ([("1day"%string, 0%nat)],
                 [("1day"%string, (0%nat, 0%nat)); ("30min"%string, (1%nat, 1%nat))]) m,
       st') /\
    exists vs : list (@Visit two_level),
      map v_executor vs = [0%nat; 1%nat] /\
      Forall (parsed two_level_parse) vs /\
      log st' = flat_map visit_events vs /\
      (forall v, In v vs -> v_metrics v = None ->
         (forall v', In v' vs -> v_key v' = v_key v -> v_metrics v' = None) ->
         dict_get (V:=Metrics two_level) [("1day"%string, 0%nat)] (v_key v) = None).
Proof.
  eexists. eexists. split; [vm_compute; reflexivity|].
  destruct (disabled_metrics_omitted two_level_parse [0%nat; 1%nat] 100
              (initial two_level_env fresh_calendar empty_heap)
              (portfolio_dict := [("1day"%string, 0%nat)])
              (indicator_dict := [("1day"%string, (0%nat, 0%nat));
                                  ("30min"%string, (1%nat, 1%nat))])
              ltac:(vm_compute; reflexivity))
    as (vs & Hn & Hp & Hl & _ & _ & _ & _ & Hd).
  exists vs. repeat split; assumption.
Defined.


(** The run on day 7 alone, a holiday, requests no decision, calls the
    post-level hook once and returns. *)
Lemma post_level_hook_once_on_holiday :
  count is_decision_request
    (log (snd (run_loop two_level_env two_level_parse 7 7 None 20 fresh_calendar
                        empty_heap))) = 0%nat /\
  count is_post_upper
    (log (snd (run_loop two_level_env two_level_parse 7 7 None 20 fresh_calendar
                        empty_heap))) = 1%nat /\
  exists m,
    fst (run_loop two_level_env two_level_parse 7 7 None 20 fresh_calendar empty_heap)
    = Returned tt m.
Proof.
  split; [vm_compute; reflexivity|].
  destruct (post_level_hook_once two_level_env two_level_parse 7 7 None 20
              fresh_calendar empty_heap) as (_ & _ & _ & H).
  destruct H as [H1 H2].
  - repeat constructor.
  - vm_compute. repeat constructor.
  - vm_compute. reflexivity.
  - split; [exact H1|exact (H2 eq_refl)].
Defined.

(** The two-level collaborators answer: [cal_pending] bounds the yields
    left in the current step. *)
Lemma two_level_responsive :
  responsive two_level_env two_level_parse 1 2 cal_pending.
Proof.
  constructor.
  - intros X c w Hc. destruct c; cbn; eauto.
    + destruct Hc as [-> ->]. cbn. eauto.
    + destruct (cal_pending w); eauto.
  - intros d w a w' E. cbn in E. injection E as <- <-. split; [discriminate|lia].
  - intros g sent w d w'. cbn. destruct (cal_pending w) eqn:Ep; intros E;
      [discriminate|]. injection E as _ <-. cbn. lia.
  - intros executor w label w'. cbn. intros E. injection E as <- _.
    destruct executor; eexists; vm_compute; reflexivity.
Qed.

(** The key "1day" comes from the pair (1, "day") only. *)
Lemma frequency_key_injective_day :
  format2 (1, "day"%string) = "1day"%string /\ (1 = 1 /\ "day"%string = "day"%string).
Proof.
  split; [reflexivity|].
  apply (@frequency_key_injective 1 "day" 1 "day");
    [lia|lia|reflexivity|reflexivity|reflexivity].
Defined.

(** With a third executor that also steps by "30min", the entry under
    "30min" is the one of the executor visited last. *)
Lemma aggregation_last_write_wins_two_level :
  exists st' m,
    exec 100 (aggregate two_level_parse [0%nat; 1%nat; 2%nat] ([], []))
         (initial two_level_env fresh_calendar empty_heap)
    = (Returned ([("1day"%string, 0%nat)],
                 [("1day"%string, (0%nat, 0%nat)); ("30min"%string, (2%nat, 2%nat))]) m,
       st') /\
    exists vs : list (@Visit two_level),
      map v_executor vs = [0%nat; 1%nat; 2%nat] /\
      (forall k,
          dict_get (V:=DataFrame two_level * Indicator two_level)
            [("1day"%string, (0%nat, 0%nat)); ("30min"%string, (2%nat, 2%nat))] k
          = option_map (fun v => (v_df v, v_obj v)) (last_visit (has_key k) vs)).
Proof.
  eexists. eexists. split; [vm_compute; reflexivity|].
  destruct (aggregation_last_write_wins two_level_parse [0%nat; 1%nat; 2%nat] 100
              (initial two_level_env fresh_calendar empty_heap)
              (portfolio_dict := [("1day"%string, 0%nat)])
              (indicator_dict := [("1day"%string, (0%nat, 0%nat));
                                  ("30min"%string, (2%nat, 2%nat))])
              ltac:(vm_compute; reflexivity))
    as (vs & Hn & _ & _ & _ & Hi & _).
  exists vs. split; assumption.
Defined.

(** The two-level environment keeps the contract and answers, and the
    run over days 1 and 2 returns from some fuel on. *)
Lemma loop_terminates_two_days :
  calendar_contract two_level_env cal_step cal_len /\
  responsive two_level_env two_level_parse 1 2 cal_pending /\
  exists n, forall n', (n <= n')%nat ->
    exists u m,
      fst (run_loop two_level_env two_level_parse 1 2 (Some 0%nat) n' fresh_calendar
                    empty_heap) = Returned u m.
Proof.
  split; [exact two_level_contract|]. split; [exact two_level_responsive|].
  exact (loop_terminates (Some 0%nat) two_level_contract two_level_responsive
           fresh_calendar empty_heap).
Defined.


(** [backtest_loop] over days 1 and 2 returns two dicts. *)
Lemma backtest_loop_returns_two_days :
  calendar_contract (unattended two_level_env) cal_step cal_len /\
  responsive (unattended two_level_env) two_level_parse 1 2 cal_pending /\
  exists n portfolio_dict indicator_dict m st',
    exec n (backtest_loop two_level_parse 1 2) (initial two_level_env fresh_calendar
                                                        empty_heap)
    = (Returned (Some (VPort portfolio_dict), Some (VInd indicator_dict)) m, st').
Proof.
  split; [exact (unattended_contract two_level_contract)|].
  split; [exact (unattended_responsive two_level_responsive)|].
  exact (@backtest_loop_returns two_level two_level_env two_level_parse 1 2
           cal_step cal_len cal_pending fresh_calendar empty_heap
           (unattended_contract two_level_contract)
           (unattended_responsive two_level_responsive)).
Defined.
